(** * Prioritized replay buffer: ring store and stratified sampler

    A shallow embedding of [buffer/prioritized_replay.h]: the class
    [ConcurrentQueue] (a ring store with a reserved and a committed tail)
    and the class [PrioritizedReplay] built on it.

    Conventions of the embedding.
    - C++ [int] is [Z]; signed overflow is undefined in the source and is
      not modelled, and neither is the wrap of the [std::atomic<int>]
      counter: the statements about [int(1.25 * capacity)] and about the
      counter carry the bounds within which the code computes the same
      integers.  [%] is [Z.rem], as in C++.
    - C++ [float] and [double] are IEEE 754 binary32 and binary64, taken
      from the Standard Library's [SpecFloat] (round to nearest even).
    - [std::vector] is a list read and written by index.  An index out of
      range is undefined behaviour in the source; the model reads a default
      there and writes nothing.
    - A failed [assert], an uncaught exception and [std::abort] are the
      outcome [Fatal]; a wait on a condition variable whose predicate does
      not hold is the outcome [Blocked].
    - Every critical section of the store mutex is one atomic step, so the
      two-phase [block_append] is three steps (reserve, fill, commit) that
      other threads may interleave with.  Every other call runs as one
      step, the sampler mutex being held across [sample_]. *)

From Stdlib Require Import ZArith Lia Bool String.
From Stdlib Require Import Floats.SpecFloat.
From stdpp Require Import base tactics option list relations.

Local Open Scope Z_scope.

(** ** IEEE arithmetic of the two C++ floating-point types *)

Module IEEE.

Definition float := spec_float.   (* C++ float: binary32 *)
Definition double := spec_float.  (* C++ double: binary64 *)

Definition fadd : float -> float -> float := SFadd 24 128.
Definition fsub : float -> float -> float := SFsub 24 128.
Definition fmul : float -> float -> float := SFmul 24 128.
Definition fdiv : float -> float -> float := SFdiv 24 128.
Definition fneg : float -> float := SFopp.
Definition fltb : float -> float -> bool := SFltb.

Definition dadd : double -> double -> double := SFadd 53 1024.
Definition dsub : double -> double -> double := SFsub 53 1024.
Definition dmul : double -> double -> double := SFmul 53 1024.
Definition dltb : double -> double -> bool := SFltb.
Definition dleb : double -> double -> bool := SFleb.

(** Conversions: [(float)d], [(double)f], [(float)i], [(double)i]. *)
Definition float_of_double (d : double) : float :=
  match d with
  | S754_finite s m e => binary_round 24 128 s m e
  | _ => d
  end.

Definition double_of_float (f : float) : double :=
  match f with
  | S754_finite s m e => binary_round 53 1024 s m e
  | _ => f
  end.

Definition float_of_int (z : Z) : float := binary_normalize 24 128 z 0 false.
Definition double_of_int (z : Z) : double := binary_normalize 53 1024 z 0 false.

(** [int(d)]: truncation toward zero.  The conversion is defined in C++
    only when the truncated value fits an [int]; this function gives
    the truncated value as an integer, which is the result of the code
    when it is below [2 ^ 31] in magnitude (for [int(1.25 * c)], up to
    [c = 1717986918]).  NaN and the infinities give 0. *)
Definition int_of_double (d : double) : Z :=
  match d with
  | S754_finite s m e =>
      let a := match e with
               | Zneg p => Z.shiftr (Zpos m) (Zpos p)
               | _ => Z.shiftl (Zpos m) e
               end in
      if s then - a else a
  | _ => 0
  end.

Definition fzero : float := S754_zero false.
Definition dzero : double := S754_zero false.
Definition fone : float := float_of_int 1.
(** The literal [(float)0.2] = 13421773 * 2^-26. *)
Definition f0_2 : float := S754_finite false 13421773 (-26).
(** The literal [1.25] = 5 * 2^-2. *)
Definition d1_25 : double := S754_finite false 5629499534213120 (-52).

(** [std::min(a, b)] is [(b < a) ? b : a]. *)
Definition std_min (a b : float) : float := if fltb b a then b else a.

(** Zero or of sign [s]: what rounding a magnitude of sign [s] gives. *)
Definition signed (s : bool) (x : spec_float) : Prop :=
  match x with
  | S754_zero s' | S754_infinity s' | S754_finite s' _ _ => s' = s
  | S754_nan => False
  end.

Definition is_nan (x : spec_float) : bool :=
  match x with S754_nan => true | _ => false end.

(** The maximum of two floats as a tensor reduction takes it: a NaN wins. *)
Definition fmax (a b : float) : float :=
  if is_nan a then a else if is_nan b then b else if fltb a b then b else a.

End IEEE.

Import IEEE.

(** ** Outcomes of a call *)

Inductive outcome (A : Type) : Type :=
| Done (a : A)
| Fatal
| Blocked.
Arguments Done {A} a.
Arguments Fatal {A}.
Arguments Blocked {A}.

#[global] Instance outcome_ret : MRet outcome := fun A a => Done a.
#[global] Instance outcome_bind : MBind outcome := fun A B k x =>
  match x with
  | Done a => k a
  | Fatal => Fatal
  | Blocked => Blocked
  end.

(** [assert(b)] *)
Definition assert (b : bool) : outcome unit := if b then Done tt else Fatal.

(** ** Tensors

    The code uses rank-1 float tensors only; a tensor of another rank is
    met by the [dim() == 1] assertions.  [size0] is [size(0)] of a rank-1
    tensor. *)

Record Tensor : Type := mkTensor { dim : Z; values : list float }.

Definition tensor1 (l : list float) : Tensor := {| dim := 1; values := l |}.
Definition size0 (t : Tensor) : Z := Z.of_nat (length (values t)).

(** [torch::ones({n})] and [torch::zeros({n})]: a negative size raises. *)
Definition ones (n : Z) : outcome (list float) :=
  if n <? 0 then Fatal else Done (replicate (Z.to_nat n) fone).
Definition zeros (n : Z) : outcome (list float) :=
  if n <? 0 then Fatal else Done (replicate (Z.to_nat n) fzero).

(** [t.max()]: raises on an empty tensor. *)
Definition tensor_max (l : list float) : outcome float :=
  match l with
  | [] => Fatal
  | x :: r => Done (foldl fmax x r)
  end.

(** ** What the classes take from outside

    The payload type with its default constructor, its packing
    constructor and [get_vector], [torch::pow] on one element, and the random engine with
    [std::uniform_real_distribution<float>(a, b)]. *)

Class External : Type := {
  DataType : Type;
  default_data : DataType;
  pack : list DataType -> DataType;
  get_vector : DataType -> list DataType;
  torch_pow : float -> float -> float;
  Rng : Type;
  seed_rng : Z -> Rng;
  uniform_real : float -> float -> Rng -> float * Rng;
}.

(** Vector reads and writes by an [int] index. *)
Definition vget {A : Type} (d : A) (l : list A) (i : Z) : A :=
  if i <? 0 then d else default d (l !! Z.to_nat i).
Definition vset {A : Type} (l : list A) (i : Z) (x : A) : list A :=
  if i <? 0 then l else <[Z.to_nat i := x]> l.

(** ** The ring store: class [ConcurrentQueue] *)

Module ConcurrentQueue.
Section Defs.
Context `{E : External}.

Record t : Type := mk {
  capacity : Z;
  head_ : Z;
  tail_ : Z;
  size_ : Z;
  safe_tail_ : Z;
  safe_size_ : Z;
  sum_ : double;
  evicted_ : list bool;
  elements_ : list DataType;
  weights_ : list float;
}.

(** The constructor [ConcurrentQueue(int capacity)]. *)
Definition new (cap : Z) : t :=
  {| capacity := cap; head_ := 0; tail_ := 0; size_ := 0;
     safe_tail_ := 0; safe_size_ := 0; sum_ := dzero;
     evicted_ := replicate (Z.to_nat cap) false;
     elements_ := replicate (Z.to_nat cap) default_data;
     weights_ := replicate (Z.to_nat cap) fzero |}.

(** [safe_size(float* sum)]: the committed size and, through the
    pointer, the running sum converted to [float]. *)
Definition safe_size (q : t) : Z * float := (safe_size_ q, float_of_double (sum_ q)).

Definition size (q : t) : Z := size_ q.

(** [check_size(head, tail, size)]: [true] when no assertion fails. *)
Definition check_size (q : t) (head tail size : Z) : bool :=
  if size =? 0 then tail =? head
  else if tail >? head then tail - head =? size
  else tail + capacity q - head =? size.

(** *** [block_append], one function per critical section *)

(** First critical section: wait for room, then reserve [block_size]
    slots.  Returns [start] and [end]. *)
Definition append_reserve (block_size : Z) (q : t) : outcome (t * (Z * Z)) :=
  if size_ q + block_size <=? capacity q then
    let start := tail_ q in
    let end_ := Z.rem (tail_ q + block_size) (capacity q) in
    let q' := {| capacity := capacity q; head_ := head_ q; tail_ := end_;
                 size_ := size_ q + block_size;
                 safe_tail_ := safe_tail_ q; safe_size_ := safe_size_ q;
                 sum_ := sum_ q; evicted_ := evicted_ q;
                 elements_ := elements_ q; weights_ := weights_ q |} in
    _ ← assert (check_size q' (head_ q') (tail_ q') (size_ q'));
    Done (q', (start, end_))
  else Blocked.

Definition write_slot (q : t) (j : Z) (x : DataType) (w : float) : t :=
  {| capacity := capacity q; head_ := head_ q; tail_ := tail_ q;
     size_ := size_ q; safe_tail_ := safe_tail_ q; safe_size_ := safe_size_ q;
     sum_ := sum_ q; evicted_ := evicted_ q;
     elements_ := vset (elements_ q) j x; weights_ := vset (weights_ q) j w |}.

(** The copy loop, run without the lock: iteration [i] writes [block[i]]
    and [weight_acc[i]] to slot [(start + i) % capacity]. *)
Fixpoint fill_loop (start i : Z) (block : list DataType) (weight_acc : list float)
    (q : t) (sum : float) : t * float :=
  match block with
  | [] => (q, sum)
  | x :: block' =>
      let j := Z.rem (start + i) (capacity q) in
      let w := vget fzero weight_acc i in
      fill_loop start (i + 1) block' weight_acc (write_slot q j x w) (fadd sum w)
  end.

(** The unlocked middle part, with its assertion on the weight tensor
    ([accessor<float, 1>] raises on another rank). *)
Definition append_fill (start : Z) (block : list DataType) (weights : Tensor)
    (q : t) : outcome (t * float) :=
  _ ← assert (dim weights =? 1);
  _ ← assert (size0 weights =? Z.of_nat (length block));
  Done (fill_loop start 0 block (values weights) q fzero).

(** Second critical section: wait until [safe_tail_ == start], then
    commit. *)
Definition append_commit (start end_ block_size : Z) (sum : float) (q : t) : outcome t :=
  if safe_tail_ q =? start then
    let q' := {| capacity := capacity q; head_ := head_ q; tail_ := tail_ q;
                 size_ := size_ q;
                 safe_tail_ := end_; safe_size_ := safe_size_ q + block_size;
                 sum_ := dadd (sum_ q) (double_of_float sum);
                 evicted_ := evicted_ q;
                 elements_ := elements_ q; weights_ := weights_ q |} in
    _ ← assert (check_size q' (head_ q') (safe_tail_ q') (safe_size_ q'));
    Done q'
  else Blocked.

(** [block_append] run by one thread with no other thread in between. *)
Definition block_append (block : list DataType) (weights : Tensor) (q : t) : outcome t :=
  let block_size := Z.of_nat (length block) in
  '(q1, (start, end_)) ← append_reserve block_size q;
  '(q2, sum) ← append_fill start block weights q1;
  append_commit start end_ block_size sum q2.

(** *** [block_pop] *)

(** The loop of [block_pop]: [n] iterations from [head]. *)
Fixpoint pop_loop (n : nat) (cap : Z) (weights : list float)
    (evicted : list bool) (head : Z) (diff : double) : list bool * Z * double :=
  match n with
  | O => (evicted, head, diff)
  | S n' =>
      pop_loop n' cap weights (vset evicted head true) (Z.rem (head + 1) cap)
        (dsub diff (double_of_float (vget fzero weights head)))
  end.

Definition block_pop (block_size : Z) (q : t) : outcome t :=
  let '(evicted, head, diff) :=
    pop_loop (Z.to_nat block_size) (capacity q) (weights_ q) (evicted_ q) (head_ q) dzero in
  let q' := {| capacity := capacity q; head_ := head; tail_ := tail_ q;
               size_ := size_ q - block_size;
               safe_tail_ := safe_tail_ q; safe_size_ := safe_size_ q - block_size;
               sum_ := dadd (sum_ q) diff;
               evicted_ := evicted;
               elements_ := elements_ q; weights_ := weights_ q |} in
  _ ← assert (0 <=? safe_size_ q');
  _ ← assert (check_size q' (head_ q') (safe_tail_ q') (safe_size_ q'));
  Done q'.

(** *** [update] *)

Definition with_weights (q : t) (ws : list float) : t :=
  {| capacity := capacity q; head_ := head_ q; tail_ := tail_ q;
     size_ := size_ q; safe_tail_ := safe_tail_ q; safe_size_ := safe_size_ q;
     sum_ := sum_ q; evicted_ := evicted_ q;
     elements_ := elements_ q; weights_ := ws |}.

Definition set_weight (q : t) (id : Z) (w : float) : t :=
  {| capacity := capacity q; head_ := head_ q; tail_ := tail_ q;
     size_ := size_ q; safe_tail_ := safe_tail_ q; safe_size_ := safe_size_ q;
     sum_ := sum_ q; evicted_ := evicted_ q;
     elements_ := elements_ q; weights_ := vset (weights_ q) id w |}.

(** The loop of [update]: iteration [i] handles [ids[i]]. *)
Fixpoint update_loop (i : Z) (ids : list Z) (weight_acc : list float)
    (q : t) (diff : double) : t * double :=
  match ids with
  | [] => (q, diff)
  | id :: ids' =>
      if vget false (evicted_ q) id then
        update_loop (i + 1) ids' weight_acc q diff
      else
        let w := vget fzero weight_acc i in
        let old := vget fzero (weights_ q) id in
        update_loop (i + 1) ids' weight_acc (set_weight q id w)
          (dadd diff (double_of_float (fsub w old)))
  end.

Definition add_to_sum (q : t) (diff : double) : t :=
  {| capacity := capacity q; head_ := head_ q; tail_ := tail_ q;
     size_ := size_ q; safe_tail_ := safe_tail_ q; safe_size_ := safe_size_ q;
     sum_ := dadd (sum_ q) diff; evicted_ := evicted_ q;
     elements_ := elements_ q; weights_ := weights_ q |}.

(** The body of [update] once the accessor is taken: the loop, then
    [sum_ += diff] under the lock. *)
Definition update_weights (ids : list Z) (weight_acc : list float) (q : t) : t :=
  let '(q', diff) := update_loop 0 ids weight_acc q dzero in
  add_to_sum q' diff.

(** [update(ids, weights)]; [weights.accessor<float, 1>()] raises on a
    tensor of another rank. *)
Definition update (ids : list Z) (weights : Tensor) (q : t) : outcome t :=
  _ ← assert (dim weights =? 1);
  Done (update_weights ids (values weights) q).

(** *** Unlocked element access *)

Definition get_element_and_mark (idx : Z) (q : t) : DataType * t :=
  let id := Z.rem (head_ q + idx) (capacity q) in
  (vget default_data (elements_ q) id,
   {| capacity := capacity q; head_ := head_ q; tail_ := tail_ q;
      size_ := size_ q; safe_tail_ := safe_tail_ q; safe_size_ := safe_size_ q;
      sum_ := sum_ q; evicted_ := vset (evicted_ q) id false;
      elements_ := elements_ q; weights_ := weights_ q |}).

(** [get_weight(idx, &id)] returns the weight and, through the pointer,
    the physical index. *)
Definition get_weight (idx : Z) (q : t) : float * Z :=
  let id := Z.rem (head_ q + idx) (capacity q) in
  (vget fzero (weights_ q) id, id).

End Defs.
End ConcurrentQueue.

(** ** The replay layer: class [PrioritizedReplay] *)

Module PrioritizedReplay.
Section Defs.
Context `{E : External}.

(** [SampleWeightIds]: the batch, the weight tensor and the ids. *)
Definition SampleWeightIds : Type := DataType * Tensor * list Z.

(** A [std::future<SampleWeightIds>] started by [std::async] on
    [sample_]: either the task has not taken the sampler mutex yet, or
    it has run and holds its result. *)
Inductive Future : Type :=
| Pending (batchsize : Z) (device : string)
| Ready (res : SampleWeightIds).

Record t : Type := mk {
  alpha_ : float;
  beta_ : float;
  prefetch_ : Z;
  capacity_ : Z;
  storage_ : ConcurrentQueue.t;
  num_add_ : Z;
  sampled_ids_ : list Z;
  futures_ : list Future;
  rng_ : Rng;
  last_query_ : Z;
}.

Definition set_storage (r : t) (q : ConcurrentQueue.t) : t :=
  {| alpha_ := alpha_ r; beta_ := beta_ r; prefetch_ := prefetch_ r;
     capacity_ := capacity_ r; storage_ := q; num_add_ := num_add_ r;
     sampled_ids_ := sampled_ids_ r; futures_ := futures_ r;
     rng_ := rng_ r; last_query_ := last_query_ r |}.

Definition set_num_add (r : t) (n : Z) : t :=
  {| alpha_ := alpha_ r; beta_ := beta_ r; prefetch_ := prefetch_ r;
     capacity_ := capacity_ r; storage_ := storage_ r; num_add_ := n;
     sampled_ids_ := sampled_ids_ r; futures_ := futures_ r;
     rng_ := rng_ r; last_query_ := last_query_ r |}.

Definition set_sampled_ids (r : t) (ids : list Z) : t :=
  {| alpha_ := alpha_ r; beta_ := beta_ r; prefetch_ := prefetch_ r;
     capacity_ := capacity_ r; storage_ := storage_ r; num_add_ := num_add_ r;
     sampled_ids_ := ids; futures_ := futures_ r;
     rng_ := rng_ r; last_query_ := last_query_ r |}.

Definition set_futures (r : t) (fs : list Future) : t :=
  {| alpha_ := alpha_ r; beta_ := beta_ r; prefetch_ := prefetch_ r;
     capacity_ := capacity_ r; storage_ := storage_ r; num_add_ := num_add_ r;
     sampled_ids_ := sampled_ids_ r; futures_ := fs;
     rng_ := rng_ r; last_query_ := last_query_ r |}.

Definition set_rng (r : t) (g : Rng) : t :=
  {| alpha_ := alpha_ r; beta_ := beta_ r; prefetch_ := prefetch_ r;
     capacity_ := capacity_ r; storage_ := storage_ r; num_add_ := num_add_ r;
     sampled_ids_ := sampled_ids_ r; futures_ := futures_ r;
     rng_ := g; last_query_ := last_query_ r |}.

Definition set_last_query (r : t) (n : Z) : t :=
  {| alpha_ := alpha_ r; beta_ := beta_ r; prefetch_ := prefetch_ r;
     capacity_ := capacity_ r; storage_ := storage_ r; num_add_ := num_add_ r;
     sampled_ids_ := sampled_ids_ r; futures_ := futures_ r;
     rng_ := rng_ r; last_query_ := n |}.

(** [int(1.25 * capacity)], the size the constructor gives the store. *)
Definition storage_capacity (capacity : Z) : Z :=
  int_of_double (dmul d1_25 (double_of_int capacity)).

(** The constructor. *)
Definition new (capacity seed : Z) (alpha beta : float) (prefetch : Z) : t :=
  {| alpha_ := alpha; beta_ := beta; prefetch_ := prefetch;
     capacity_ := capacity;
     storage_ := ConcurrentQueue.new (storage_capacity capacity);
     num_add_ := 0; sampled_ids_ := []; futures_ := [];
     rng_ := seed_rng seed; last_query_ := 0 |}.

(** [torch::pow(tensor, exponent)], element by element. *)
Definition pow (t : Tensor) (e : float) : Tensor :=
  {| dim := dim t; values := (fun x => torch_pow x e) <$> values t |}.

(** *** [add] and its variants *)

(** [num_add_] is a [std::atomic<int>]: its [+=] is that of the
    integers while the count stays below [2 ^ 31], which is how [add]
    counts here. *)
Definition add (sample : list DataType) (priority : Tensor) (r : t) : outcome t :=
  _ ← assert (dim priority =? 1);
  _ ← assert (size0 priority =? Z.of_nat (length sample));
  let weights := pow priority (alpha_ r) in
  q ← ConcurrentQueue.block_append sample weights (storage_ r);
  Done (set_num_add (set_storage r q) (num_add_ r + size0 priority)).

Definition add_one (sample : DataType) (priority : float) (r : t) : outcome t :=
  add [sample] (tensor1 [priority]) r.

Fixpoint add_batch_loop (i : Z) (vecs : list DataType) (priority : Tensor) (r : t) : outcome t :=
  match vecs with
  | [] => Done r
  | x :: vecs' =>
      _ ← assert (dim priority =? 1);
      r' ← add_one x (vget fzero (values priority) i) r;
      add_batch_loop (i + 1) vecs' priority r'
  end.

Definition add_batch (batch : DataType) (priority : Tensor) (r : t) : outcome t :=
  add_batch_loop 0 (get_vector batch) priority r.

(** *** [get_new_content] *)

(** The [while (cur < sample_size)] loop; [n] is [sample_size - cur]. *)
Fixpoint drain_loop (n : nat) (cur : Z) (q : ConcurrentQueue.t)
    (samples : list DataType) (weight_acc : list float) (last_query : Z)
    : ConcurrentQueue.t * list DataType * list float * Z :=
  match n with
  | O => (q, samples, weight_acc, last_query)
  | S n' =>
      let '(element, q') := ConcurrentQueue.get_element_and_mark cur q in
      let '(w, _) := ConcurrentQueue.get_weight cur q' in
      drain_loop n' (cur + 1) q' (samples ++ [element]) (vset weight_acc cur w)
        (last_query + 1)
  end.

Definition get_new_content (r : t) : outcome (t * (Z * DataType * Tensor)) :=
  let sample_size := num_add_ r - last_query_ r in
  weights ← ones sample_size;
  if sample_size =? 0 then
    Done (r, (0, default_data, tensor1 weights))
  else
    let '(q, samples, weight_acc, last_query) :=
      drain_loop (Z.to_nat sample_size) 0 (storage_ r) [] weights (last_query_ r) in
    q' ← ConcurrentQueue.block_pop sample_size q;
    Done (set_last_query (set_storage r q') last_query,
          (sample_size, pack samples, tensor1 weight_acc)).

(** *** [sample_] *)

(** The variables of [sample_] that its loops change. *)
Record scan : Type := mkScan {
  acc_sum : double;
  next_idx : Z;
  w : float;
  id : Z;
  samples : list DataType;
  weight_acc : list float;
  ids : list Z;
  store : ConcurrentQueue.t;
}.

(** The test [acc_sum > 0 && acc_sum >= rand]. *)
Definition crossed (acc : double) (rand : float) : bool :=
  dltb dzero acc && dleb (double_of_float rand) acc.

(** The body of the [if] that ends the inner loop for draw [i]. *)
Definition take (i : Z) (s : scan) : outcome scan :=
  _ ← assert (1 <=? next_idx s);
  let '(element, q') := ConcurrentQueue.get_element_and_mark (next_idx s - 1) (store s) in
  Done {| acc_sum := acc_sum s; next_idx := next_idx s; w := w s; id := id s;
          samples := samples s ++ [element];
          weight_acc := vset (weight_acc s) i (w s);
          ids := vset (ids s) i (id s);
          store := q' |}.

(** The last three statements of the inner loop. *)
Definition advance (s : scan) : scan :=
  let '(w', id') := ConcurrentQueue.get_weight (next_idx s) (store s) in
  {| acc_sum := dadd (acc_sum s) (double_of_float w'); next_idx := next_idx s + 1;
     w := w'; id := id';
     samples := samples s; weight_acc := weight_acc s; ids := ids s;
     store := store s |}.

(** The loop [while (next_idx <= size)] for draw [i].  It runs with
    [next_idx <= size]; [rem] is [size - next_idx], so the test
    [next_idx == size] of the source is [rem = 0].  Every iteration
    breaks, aborts or moves the cursor, so the loop condition never
    fails once the loop is entered. *)
Fixpoint scan_while (rem : nat) (rand : float) (i : Z) (s : scan) : outcome scan :=
  if crossed (acc_sum s) rand then take i s
  else
    match rem with
    | O => Fatal
    | S rem' => scan_while rem' rand i (advance s)
    end.

(** The draw of iteration [i]: [dist(rng_) + i * segment], clamped. *)
Definition draw (sum segment : float) (i : Z) (g : Rng) : float * Rng :=
  let '(u, g') := uniform_real fzero segment g in
  let rand := fadd u (fmul (float_of_int i) segment) in
  (std_min (fsub sum f0_2) rand, g').

(** The loop [for (int i = 0; i < batchsize; i++)]; [n] is
    [batchsize - i]. *)
Fixpoint scan_for (n : nat) (size : Z) (sum segment : float) (i : Z)
    (g : Rng) (s : scan) : outcome (scan * Rng) :=
  match n with
  | O => Done (s, g)
  | S n' =>
      let '(rand, g') := draw sum segment i g in
      s' ← (if next_idx s <=? size
            then scan_while (Z.to_nat (size - next_idx s)) rand i s
            else Done s);
      scan_for n' size sum segment (i + 1) g' s'
  end.

(** The importance weights computed after the lock is released:
    [weights / sum], [pow(size * weights, -beta_)], [weights /= max]. *)
Definition importance (size : Z) (sum beta : float) (weights : list float)
    : outcome (list float) :=
  let w1 := (fun x => fdiv x sum) <$> weights in
  let w2 := (fun x => torch_pow (fmul (float_of_int size) x) (fneg beta)) <$> w1 in
  m ← tensor_max w2;
  Done ((fun x => fdiv x m) <$> w2).

Definition sample_ (batchsize : Z) (device : string) (r : t)
    : outcome (t * SampleWeightIds) :=
  let '(size, sum) := ConcurrentQueue.safe_size (storage_ r) in
  let segment := fdiv sum (float_of_int batchsize) in
  weights ← zeros batchsize;
  let s0 := {| acc_sum := dzero; next_idx := 0; w := fzero; id := 0;
               samples := []; weight_acc := weights;
               ids := replicate (Z.to_nat batchsize) 0;
               store := storage_ r |} in
  '(s, g) ← scan_for (Z.to_nat batchsize) size sum segment 0 (rng_ r) s0;
  _ ← assert (Z.of_nat (length (samples s)) =? batchsize);
  (* pop storage if full *)
  let size := ConcurrentQueue.size (store s) in
  q ← (if size >? capacity_ r
       then ConcurrentQueue.block_pop (size - capacity_ r) (store s)
       else Done (store s));
  weights ← importance size sum (beta_ r) (weight_acc s);
  Done (set_rng (set_storage r q) g, (pack (samples s), tensor1 weights, ids s)).

(** *** [sample], [update_priority], [keep_priority], observers *)

(** [futures_.front().get()]: a task that has not run yet runs now. *)
Definition get (f : Future) (r : t) : outcome (t * SampleWeightIds) :=
  match f with
  | Ready res => Done (r, res)
  | Pending batchsize device => sample_ batchsize device r
  end.

(** The loop that fills [futures_] up to [prefetch_] tasks. *)
Definition top_up (batchsize : Z) (device : string) (r : t) : t :=
  set_futures r
    (futures_ r ++
     replicate (Z.to_nat (prefetch_ r - Z.of_nat (length (futures_ r))))
       (Pending batchsize device)).

Definition sample (batchsize : Z) (device : string) (r : t)
    : outcome (t * (DataType * Tensor)) :=
  match sampled_ids_ r with
  | _ :: _ => Fatal
  | [] =>
      if prefetch_ r =? 0 then
        '(r', (batch, priority, ids)) ← sample_ batchsize device r;
        Done (set_sampled_ids r' ids, (batch, priority))
      else
        '(r', (batch, priority, ids)) ←
          match futures_ r with
          | [] => sample_ batchsize device r
          | f :: rest => get f (set_futures r rest)
          end;
        Done (top_up batchsize device (set_sampled_ids r' ids), (batch, priority))
  end.

Definition update_priority (priority : Tensor) (r : t) : outcome t :=
  _ ← assert (dim priority =? 1);
  _ ← assert (Z.of_nat (length (sampled_ids_ r)) =? size0 priority);
  let weights := pow priority (alpha_ r) in
  q ← ConcurrentQueue.update (sampled_ids_ r) weights (storage_ r);
  Done (set_sampled_ids (set_storage r q) []).

Definition keep_priority (r : t) : t := set_sampled_ids r [].

Definition size (r : t) : Z := fst (ConcurrentQueue.safe_size (storage_ r)).

Definition num_add (r : t) : Z := num_add_ r.

End Defs.
End PrioritizedReplay.

(** ** Interleavings

    Threads meet the store only inside its critical sections and in the
    unlocked copy loop of [block_append], so an execution is a sequence of
    the steps below.  A producer between two steps of its [block_append]
    is recorded with its local variables. *)

Module Interleaving.
Section Defs.
Context `{E : External}.

Import ConcurrentQueue.

(** Where a producer stands inside [block_append]. *)
Inductive stage : Type :=
| Reserved                 (* left the first critical section *)
| Filled (sum : float).    (* finished the copy loop *)

Record producer : Type := mkProducer {
  p_start : Z;
  p_end : Z;
  p_block : list DataType;
  p_weights : Tensor;
  p_stage : stage;
}.

Definition set_stage (p : producer) (s : stage) : producer :=
  {| p_start := p_start p; p_end := p_end p; p_block := p_block p;
     p_weights := p_weights p; p_stage := s |}.

Definition block_size (p : producer) : Z := Z.of_nat (length (p_block p)).

(** One step of the store with its producers.  Block sizes are counts:
    [block_pop] is stepped with [0 <= n] only. *)
Inductive step : ConcurrentQueue.t * list producer ->
                 ConcurrentQueue.t * list producer -> Prop :=
| step_reserve q ps block weights q' start end_ :
    append_reserve (Z.of_nat (length block)) q = Done (q', (start, end_)) ->
    step (q, ps) (q', ps ++ [mkProducer start end_ block weights Reserved])
| step_fill q l1 p l2 q' sum :
    p_stage p = Reserved ->
    append_fill (p_start p) (p_block p) (p_weights p) q = Done (q', sum) ->
    step (q, l1 ++ p :: l2) (q', l1 ++ set_stage p (Filled sum) :: l2)
| step_commit q l1 p l2 q' sum :
    p_stage p = Filled sum ->
    append_commit (p_start p) (p_end p) (block_size p) sum q = Done q' ->
    step (q, l1 ++ p :: l2) (q', l1 ++ l2)
| step_pop q ps n q' :
    0 <= n ->
    block_pop n q = Done q' ->
    step (q, ps) (q', ps)
| step_update q ps ids weights q' :
    update ids weights q = Done q' ->
    step (q, ps) (q', ps)
| step_mark q ps idx :
    step (q, ps) (snd (get_element_and_mark idx q), ps).

(** The states a store of capacity [cap] can be in. *)
Definition reachable (cap : Z) (s : ConcurrentQueue.t * list producer) : Prop :=
  rtc step (ConcurrentQueue.new cap, []) s.

(** The same for a replay: its public calls, with [add] split where
    [block_append] is, and a prefetch task taking the sampler mutex. *)
Inductive rstage : Type :=
| InAppend (p : producer)   (* inside [block_append] *)
| Appended (n : Z).         (* [block_append] returned, [num_add_] not yet bumped *)

Definition producers (l : list rstage) : list producer :=
  omap (fun x => match x with InAppend p => Some p | Appended _ => None end) l.

Import PrioritizedReplay.

Inductive rstep : PrioritizedReplay.t * list rstage ->
                  PrioritizedReplay.t * list rstage -> Prop :=
| rstep_add_reserve r l sample priority q' start end_ :
    dim priority = 1 ->
    size0 priority = Z.of_nat (length sample) ->
    append_reserve (Z.of_nat (length sample)) (storage_ r) = Done (q', (start, end_)) ->
    rstep (r, l)
          (set_storage r q',
           l ++ [InAppend (mkProducer start end_ sample (pow priority (alpha_ r)) Reserved)])
| rstep_add_fill r l1 p l2 q' sum :
    p_stage p = Reserved ->
    append_fill (p_start p) (p_block p) (p_weights p) (storage_ r) = Done (q', sum) ->
    rstep (r, l1 ++ InAppend p :: l2)
          (set_storage r q', l1 ++ InAppend (set_stage p (Filled sum)) :: l2)
| rstep_add_commit r l1 p l2 q' sum :
    p_stage p = Filled sum ->
    append_commit (p_start p) (p_end p) (block_size p) sum (storage_ r) = Done q' ->
    rstep (r, l1 ++ InAppend p :: l2)
          (set_storage r q', l1 ++ Appended (size0 (p_weights p)) :: l2)
| rstep_add_count r l1 n l2 :
    rstep (r, l1 ++ Appended n :: l2) (set_num_add r (num_add_ r + n), l1 ++ l2)
| rstep_sample r l batchsize device r' out :
    sample batchsize device r = Done (r', out) ->
    rstep (r, l) (r', l)
| rstep_prefetch r l f1 batchsize device f2 r' res :
    futures_ r = f1 ++ Pending batchsize device :: f2 ->
    sample_ batchsize device r = Done (r', res) ->
    rstep (r, l) (set_futures r' (f1 ++ Ready res :: f2), l)
| rstep_update_priority r l priority r' :
    update_priority priority r = Done r' ->
    rstep (r, l) (r', l)
| rstep_keep_priority r l :
    rstep (r, l) (keep_priority r, l)
| rstep_get_new_content r l r' out :
    get_new_content r = Done (r', out) ->
    rstep (r, l) (r', l).

Definition rreachable (capacity seed : Z) (alpha beta : float) (prefetch : Z)
    (s : PrioritizedReplay.t * list rstage) : Prop :=
  rtc rstep (PrioritizedReplay.new capacity seed alpha beta prefetch, []) s.

End Defs.
End Interleaving.

(** ** The accounting invariant of the store *)

Module Accounting.
Section Defs.
Context `{E : External}.
Import ConcurrentQueue Interleaving.

(** The producers that hold a non-empty reservation follow each other
    from [s] on, in the order of their reservations. *)
Fixpoint chain (cap s : Z) (ps : list producer) : Prop :=
  match ps with
  | [] => True
  | p :: ps' =>
      if 0 <? block_size p
      then p_start p = s /\ chain cap ((s + block_size p) mod cap) ps'
      else chain cap s ps'
  end.

Fixpoint total (ps : list producer) : Z :=
  match ps with
  | [] => 0
  | p :: ps' => block_size p + total ps'
  end.

Definition well_formed (cap : Z) (p : producer) : Prop :=
  0 <= p_start p < cap /\ p_end p = (p_start p + block_size p) mod cap.

Record inv (q : ConcurrentQueue.t) (ps : list producer) : Prop := mkInv {
  inv_capacity : 0 < capacity q;
  inv_head : 0 <= head_ q < capacity q;
  inv_safe_size : 0 <= safe_size_ q <= size_ q;
  inv_size : size_ q <= capacity q;
  inv_tail : tail_ q = (head_ q + size_ q) mod capacity q;
  inv_safe_tail : safe_tail_ q = (head_ q + safe_size_ q) mod capacity q;
  inv_evicted : length (evicted_ q) = Z.to_nat (capacity q);
  inv_elements : length (elements_ q) = Z.to_nat (capacity q);
  inv_weights : length (weights_ q) = Z.to_nat (capacity q);
  inv_producers : Forall (well_formed (capacity q)) ps;
  inv_chain : chain (capacity q) (safe_tail_ q) ps;
  inv_total : total ps = size_ q - safe_size_ q;
}.

(** Two stores that differ in the contents of their slots, in their
    flags and in the running sum only. *)
Definition same_counters (q q' : ConcurrentQueue.t) : Prop :=
  capacity q' = capacity q /\ head_ q' = head_ q /\ tail_ q' = tail_ q /\
  size_ q' = size_ q /\ safe_tail_ q' = safe_tail_ q /\ safe_size_ q' = safe_size_ q /\
  length (evicted_ q') = length (evicted_ q) /\
  length (elements_ q') = length (elements_ q) /\
  length (weights_ q') = length (weights_ q).

End Defs.
End Accounting.

(** ** What the description says, as definitions

    Each definition follows the words of the description of the buffer;
    the theorems compare them with the code above. *)

Module Described.
Section Defs.
Context `{E : External}.
Import ConcurrentQueue.

(** *** Priority updates *)

(** The ids of an update whose slot is not flagged evicted, each with
    its new weight, in the order of the call. *)
Definition live_updates (q : ConcurrentQueue.t) (ids : list Z) (ws : list float)
    : list (Z * float) :=
  filter (fun p => vget false (evicted_ q) p.1 = false) (zip ids ws).

(** The weights after the live updates. *)
Definition apply_updates (weights : list float) (ups : list (Z * float)) : list float :=
  foldl (fun ws p => vset ws p.1 p.2) weights ups.

(** The total of [new_weight - old_weight] over the live updates, added
    up in the order of the call; [old_weight] is what the slot holds when
    its update is applied. *)
Fixpoint total_diff (weights : list float) (ups : list (Z * float)) (diff : double)
    : double :=
  match ups with
  | [] => diff
  | (id, w) :: ups' =>
      total_diff (vset weights id w) ups'
        (dadd diff (double_of_float (fsub w (vget fzero weights id))))
  end.

(** The same total with every [old_weight] read before the call. *)
Definition total_diff_before (weights : list float) (ups : list (Z * float)) : double :=
  foldl (fun diff p => dadd diff (double_of_float (fsub p.2 (vget fzero weights p.1))))
    dzero ups.

(** *** Sampling *)

(** The slot at offset [k] from the head: its physical index, its
    weight and its element. *)
Definition slot_id (q : ConcurrentQueue.t) (k : nat) : Z :=
  Z.rem (head_ q + Z.of_nat k) (capacity q).
Definition slot_weight (q : ConcurrentQueue.t) (k : nat) : float :=
  vget fzero (weights_ q) (slot_id q k).
Definition slot_element (q : ConcurrentQueue.t) (k : nat) : DataType :=
  vget default_data (elements_ q) (slot_id q k).

(** The running prefix sum of the weights of the first [k] slots. *)
Fixpoint prefix (q : ConcurrentQueue.t) (k : nat) : double :=
  match k with
  | O => dzero
  | S k' => dadd (prefix q k') (double_of_float (slot_weight q k'))
  end.

(** The first cursor position from [k] on, at most [rem] slots further,
    where the prefix sum has crossed [rand]. *)
Fixpoint first_crossing (q : ConcurrentQueue.t) (rand : float) (rem k : nat)
    : option nat :=
  if PrioritizedReplay.crossed (prefix q k) rand then Some k
  else
    match rem with
    | O => None
    | S rem' => first_crossing q rand rem' (S k)
    end.

(** The engine after [j] draws of [uniform(0, segment)], and the [j]-th
    draw, counted from 0. *)
Fixpoint rng_after (segment : float) (j : nat) (g : Rng) : Rng :=
  match j with
  | O => g
  | S j' => rng_after segment j' (uniform_real fzero segment g).2
  end.
Definition uniform_draw (segment : float) (g : Rng) (j : nat) : float :=
  (uniform_real fzero segment (rng_after segment j g)).1.

(** The [i]-th stratified draw [i * segment + U(0, segment)], clamped
    above by [sum - 0.2]. *)
Definition stratified_draw (sum segment : float) (g : Rng) (i : nat) : float :=
  std_min (fsub sum f0_2)
    (fadd (uniform_draw segment g i) (fmul (float_of_int (Z.of_nat i)) segment)).

(** The cursor positions of draws [i], [i+1], ... ([n] of them), the
    cursor standing at [k]: each draw moves the cursor to the first
    crossing of its own draw. *)
Fixpoint cursors (q : ConcurrentQueue.t) (size : nat) (sum segment : float)
    (g : Rng) (n i k : nat) : option (list nat) :=
  match n with
  | O => Some []
  | S n' =>
      k' ← first_crossing q (stratified_draw sum segment g i) (size - k) k;
      ks ← cursors q size sum segment g n' (S i) k';
      Some (k' :: ks)
  end.

(** *** Importance weights and the size of the store *)

(** The importance weights of the selected slots as the description
    has them: [w / sum], then [(safe_size * w)^(-beta)] with the
    safe size read when the scan starts, then division by the maximum. *)
Definition described_importance (safe_size : Z) (sum beta : float) (raw : list float)
    : outcome (list float) :=
  let scaled :=
    (fun w => torch_pow (fmul (float_of_int safe_size) (fdiv w sum)) (fneg beta)) <$> raw in
  m ← tensor_max scaled;
  Done ((fun x => fdiv x m) <$> scaled).

(** The physical capacity as the description has it: the ceiling of
    [1.25 * capacity]. *)
Definition described_storage_capacity (capacity : Z) : Z := (5 * capacity + 3) / 4.

(** The head-tail arithmetic as the description has it. *)
Definition described_head_tail (q : ConcurrentQueue.t) (tail size : Z) : Prop :=
  if decide (size = 0) then tail = head_ q
  else (tail - head_ q) mod capacity q = size.

Definition described_invariant (q : ConcurrentQueue.t) : Prop :=
  0 <= safe_size_ q <= size_ q /\ size_ q <= capacity q /\
  described_head_tail q (tail_ q) (size_ q) /\
  described_head_tail q (safe_tail_ q) (safe_size_ q).

End Defs.
End Described.

(** ** The state of a scan, related to the store it started from *)

Module Scanning.
Section Defs.
Context `{E : External}.
Import ConcurrentQueue PrioritizedReplay Described Accounting.

(** The scan of store [q] stands at cursor [k]: the store of the scan
    differs from [q] in evicted flags only, [acc_sum] is the prefix sum
    of [k] slots, and [w], [id] are those of the slot read last. *)
Definition scan_inv (q : ConcurrentQueue.t) (s : scan) (k : nat) : Prop :=
  same_counters q (store s) /\
  weights_ (store s) = weights_ q /\
  elements_ (store s) = elements_ q /\
  next_idx s = Z.of_nat k /\
  acc_sum s = prefix q k /\
  (forall k', k = S k' -> w s = slot_weight q k' /\ id s = slot_id q k').

(** The variables of [sample_] when its outer loop starts. *)
Definition scan_start (batchsize : Z) (weights : list float) (r : PrioritizedReplay.t)
    : scan :=
  {| acc_sum := dzero; next_idx := 0; w := fzero; id := 0;
     samples := []; weight_acc := weights;
     ids := replicate (Z.to_nat batchsize) 0;
     store := storage_ r |}.

(** [l[i] = x0; l[i+1] = x1; ...] *)
Fixpoint writes {A : Type} (l : list A) (i : Z) (xs : list A) : list A :=
  match xs with
  | [] => l
  | x :: xs' => writes (vset l i x) (i + 1) xs'
  end.

(** The cursor after the draws [ks], having started at [k]. *)
Definition last_cursor (k : nat) (ks : list nat) : nat := default k (last ks).

End Defs.
End Scanning.

(** ** A consumer that drains with [get_new_content] *)

Module Draining.
Section Defs.
Context `{E : External}.
Import ConcurrentQueue PrioritizedReplay Described.

(** The calls of a user that only adds and drains, one after the other. *)
Inductive call : Type :=
| Add (sample : list DataType) (priority : Tensor)
| GetNewContent.

Definition output : Type := Z * DataType * Tensor.

(** Runs the calls in order and collects what the drains return. *)
Fixpoint run (calls : list call) (r : PrioritizedReplay.t)
    : outcome (PrioritizedReplay.t * list output) :=
  match calls with
  | [] => Done (r, [])
  | Add sample priority :: calls' =>
      r' ← add sample priority r;
      run calls' r'
  | GetNewContent :: calls' =>
      '(r', out) ← get_new_content r;
      '(r'', outs) ← run calls' r';
      Done (r'', out :: outs)
  end.

(** The committed records of the store with their weights, oldest first. *)
Definition region (q : ConcurrentQueue.t) : list (DataType * float) :=
  (fun k => (slot_element q k, slot_weight q k)) <$> seq 0 (Z.to_nat (safe_size_ q)).

(** What a drain returns for the records added since the drain before
    it: their number, the records packed, and their weights. *)
Definition drained (backlog : list (DataType * float)) : output :=
  match backlog with
  | [] => (0, default_data, tensor1 [])
  | _ => (Z.of_nat (length backlog), pack backlog.*1, tensor1 backlog.*2)
  end.

(** What the drains of a sequence of calls are to return, [backlog]
    being the records added and not drained yet; a record is stored
    with its priority raised to [alpha]. *)
Fixpoint expected (alpha : float) (calls : list call)
    (backlog : list (DataType * float)) : list output :=
  match calls with
  | [] => []
  | Add sample priority :: calls' =>
      expected alpha calls'
        (backlog ++ zip sample ((fun p => torch_pow p alpha) <$> values priority))
  | GetNewContent :: calls' => drained backlog :: expected alpha calls' []
  end.

(** The replay holds exactly [backlog], committed and not drained. *)
Definition holds (r : PrioritizedReplay.t) (backlog : list (DataType * float)) : Prop :=
  Accounting.inv (storage_ r) [] /\
  size_ (storage_ r) = safe_size_ (storage_ r) /\
  safe_size_ (storage_ r) = num_add_ r - last_query_ r /\
  region (storage_ r) = backlog.

End Defs.
End Draining.

(** ** A concrete payload, [pow] and random engine

    Used to run the code on concrete inputs.  A payload is a list of
    labels, a record being a list of one label and packing being
    concatenation; the engine replays a script of numbers of
    [[0, 1)], scaled to the requested interval as the standard library
    does; [pow] covers the exponents 1, 0 and -1, where its value is that
    of IEEE arithmetic ([x], [1] and [1 / x]). *)

Module Example.

Definition Nest : Type := list Z.
Definition Item (label : Z) : Nest := [label].

Definition pow_unit_exponents (x e : float) : float :=
  match SFcompare e fone, SFcompare e (fneg fone), SFcompare e fzero with
  | Some Eq, _, _ => x
  | _, Some Eq, _ => fdiv fone x
  | _, _, Some Eq => fone
  | _, _, _ => S754_nan
  end.

Definition scripted_uniform (a b : float) (g : list float) : float * list float :=
  match g with
  | [] => (a, [])
  | u :: g' => (fadd (fmul u (fsub b a)) a, g')
  end.

#[export] Instance Scripted : External := {|
  DataType := Nest;
  default_data := [];
  pack := fun l => List.concat l;
  get_vector := fmap Item;
  torch_pow := pow_unit_exponents;
  Rng := list float;
  seed_rng := fun _ => [];
  uniform_real := scripted_uniform;
|}.

(** A replay of nominal capacity 4 (physical 5) with alpha = beta = 1,
    no prefetch and an empty script, around a given store. *)
Definition fresh : PrioritizedReplay.t := PrioritizedReplay.new 4 0 fone fone 0.

Definition replay_of (q : ConcurrentQueue.t) (num_add : Z) : PrioritizedReplay.t :=
  {| PrioritizedReplay.alpha_ := fone; PrioritizedReplay.beta_ := fone;
     PrioritizedReplay.prefetch_ := 0; PrioritizedReplay.capacity_ := 4;
     PrioritizedReplay.storage_ := q;
     PrioritizedReplay.num_add_ := num_add; PrioritizedReplay.sampled_ids_ := [];
     PrioritizedReplay.futures_ := []; PrioritizedReplay.rng_ := [];
     PrioritizedReplay.last_query_ := 0 |}.

(** [fresh] after two records of priorities 1 and 3 are added, and what
    [sample_(2, "cpu")] returns then. *)
Definition two_records : PrioritizedReplay.t :=
  replay_of
    {| ConcurrentQueue.capacity := 5; ConcurrentQueue.head_ := 0;
       ConcurrentQueue.tail_ := 2; ConcurrentQueue.size_ := 2;
       ConcurrentQueue.safe_tail_ := 2; ConcurrentQueue.safe_size_ := 2;
       ConcurrentQueue.sum_ := double_of_int 4;
       ConcurrentQueue.evicted_ := [false; false; false; false; false];
       ConcurrentQueue.elements_ := [Item 1; Item 2; []; []; []];
       ConcurrentQueue.weights_ :=
         [float_of_int 1; float_of_int 3; fzero; fzero; fzero] |}
    2.

Definition two_sampled : PrioritizedReplay.t * PrioritizedReplay.SampleWeightIds :=
  (two_records, ([1; 2], tensor1 [fone; S754_finite false 11184811 (-25)], [0; 1])).

(** [two_records] while another producer holds a reservation of one
    slot that it has not committed, and what [sample_(2, "cpu")]
    returns then. *)
Definition one_reserved : PrioritizedReplay.t :=
  replay_of
    {| ConcurrentQueue.capacity := 5; ConcurrentQueue.head_ := 0;
       ConcurrentQueue.tail_ := 3; ConcurrentQueue.size_ := 3;
       ConcurrentQueue.safe_tail_ := 2; ConcurrentQueue.safe_size_ := 2;
       ConcurrentQueue.sum_ := double_of_int 4;
       ConcurrentQueue.evicted_ := [false; false; false; false; false];
       ConcurrentQueue.elements_ := [Item 1; Item 2; []; []; []];
       ConcurrentQueue.weights_ :=
         [float_of_int 1; float_of_int 3; fzero; fzero; fzero] |}
    2.

Definition reservation : Interleaving.producer :=
  Interleaving.mkProducer 2 3 [Item 3] (tensor1 [fone]) Interleaving.Reserved.

Definition reserved_sampled : PrioritizedReplay.t * PrioritizedReplay.SampleWeightIds :=
  (one_reserved, ([1; 2], tensor1 [fone; S754_finite false 11184810 (-25)], [0; 1])).





(** [fresh] after five records of priority 1 are added, which fills its
    store, and what [sample_(1, "cpu")] returns then. *)
Definition five_records : PrioritizedReplay.t :=
  replay_of
    {| ConcurrentQueue.capacity := 5; ConcurrentQueue.head_ := 0;
       ConcurrentQueue.tail_ := 0; ConcurrentQueue.size_ := 5;
       ConcurrentQueue.safe_tail_ := 0; ConcurrentQueue.safe_size_ := 5;
       ConcurrentQueue.sum_ := double_of_int 5;
       ConcurrentQueue.evicted_ := [false; false; false; false; false];
       ConcurrentQueue.elements_ := [Item 1; Item 2; Item 3; Item 4; Item 5];
       ConcurrentQueue.weights_ := [fone; fone; fone; fone; fone] |}
    5.

Definition five_sampled : PrioritizedReplay.t * PrioritizedReplay.SampleWeightIds :=
  (replay_of
     {| ConcurrentQueue.capacity := 5; ConcurrentQueue.head_ := 1;
        ConcurrentQueue.tail_ := 0; ConcurrentQueue.size_ := 4;
        ConcurrentQueue.safe_tail_ := 0; ConcurrentQueue.safe_size_ := 4;
        ConcurrentQueue.sum_ := double_of_int 4;
        ConcurrentQueue.evicted_ := [true; false; false; false; false];
        ConcurrentQueue.elements_ := [Item 1; Item 2; Item 3; Item 4; Item 5];
        ConcurrentQueue.weights_ := [fone; fone; fone; fone; fone] |}
     5,
   ([1], tensor1 [fone], [0])).

(** [fresh] after two records of priority 1/16 are added (their sum is
    0.125), and what [sample_(3, "cpu")] returns then. *)
Definition sixteenth : float := S754_finite false 8388608 (-27).

Definition small_sum : PrioritizedReplay.t :=
  replay_of
    {| ConcurrentQueue.capacity := 5; ConcurrentQueue.head_ := 0;
       ConcurrentQueue.tail_ := 2; ConcurrentQueue.size_ := 2;
       ConcurrentQueue.safe_tail_ := 2; ConcurrentQueue.safe_size_ := 2;
       ConcurrentQueue.sum_ := S754_finite false 4503599627370496 (-55);
       ConcurrentQueue.evicted_ := [false; false; false; false; false];
       ConcurrentQueue.elements_ := [Item 1; Item 2; []; []; []];
       ConcurrentQueue.weights_ := [sixteenth; sixteenth; fzero; fzero; fzero] |}
    2.

Definition small_sampled : PrioritizedReplay.t * PrioritizedReplay.SampleWeightIds :=
  (small_sum, ([1; 1; 1], tensor1 [fone; fone; fone], [0; 0; 0])).

(** A store of capacity 2 after [block_append] of two records. *)
Definition full_store : ConcurrentQueue.t :=
  {| ConcurrentQueue.capacity := 2; ConcurrentQueue.head_ := 0;
     ConcurrentQueue.tail_ := 0; ConcurrentQueue.size_ := 2;
     ConcurrentQueue.safe_tail_ := 0; ConcurrentQueue.safe_size_ := 2;
     ConcurrentQueue.sum_ := double_of_int 2;
     ConcurrentQueue.evicted_ := [false; false];
     ConcurrentQueue.elements_ := [Item 1; Item 2];
     ConcurrentQueue.weights_ := [fone; fone] |}.

(** Two calls of a user that adds and drains. *)
Definition add_then_drain : list Draining.call :=
  [Draining.Add [Item 1; Item 2] (tensor1 [float_of_int 1; float_of_int 3]);
   Draining.GetNewContent].

(** [two_records] after [get_new_content()] has drained it. *)
Definition two_drained : PrioritizedReplay.t :=
  PrioritizedReplay.set_last_query
    (replay_of
       {| ConcurrentQueue.capacity := 5; ConcurrentQueue.head_ := 2;
          ConcurrentQueue.tail_ := 2; ConcurrentQueue.size_ := 0;
          ConcurrentQueue.safe_tail_ := 2; ConcurrentQueue.safe_size_ := 0;
          ConcurrentQueue.sum_ := dzero;
          ConcurrentQueue.evicted_ := [true; true; false; false; false];
          ConcurrentQueue.elements_ := [Item 1; Item 2; []; []; []];
          ConcurrentQueue.weights_ :=
            [float_of_int 1; float_of_int 3; fzero; fzero; fzero] |}
       2)
    2.

(** The store of [one_reserved] after the producer of [reservation] has
    run its copy loop. *)
Definition one_filled : ConcurrentQueue.t :=
  {| ConcurrentQueue.capacity := 5; ConcurrentQueue.head_ := 0;
     ConcurrentQueue.tail_ := 3; ConcurrentQueue.size_ := 3;
     ConcurrentQueue.safe_tail_ := 2; ConcurrentQueue.safe_size_ := 2;
     ConcurrentQueue.sum_ := double_of_int 4;
     ConcurrentQueue.evicted_ := [false; false; false; false; false];
     ConcurrentQueue.elements_ := [Item 1; Item 2; Item 3; []; []];
     ConcurrentQueue.weights_ :=
       [float_of_int 1; float_of_int 3; fone; fzero; fzero] |}.

(** [two_records] in a replay that prefetches one sample. *)
Definition prefetching : PrioritizedReplay.t :=
  {| PrioritizedReplay.alpha_ := fone; PrioritizedReplay.beta_ := fone;
     PrioritizedReplay.prefetch_ := 1; PrioritizedReplay.capacity_ := 4;
     PrioritizedReplay.storage_ := PrioritizedReplay.storage_ two_records;
     PrioritizedReplay.num_add_ := 2; PrioritizedReplay.sampled_ids_ := [];
     PrioritizedReplay.futures_ := []; PrioritizedReplay.rng_ := [];
     PrioritizedReplay.last_query_ := 0 |}.

End Example.

(** * Proofs *)

(** ** IEEE arithmetic: exact cases of rounding *)

Section Rounding_exact.
Variables prec emax : Z.

Lemma digits2_log2 (p : positive) : Zpos (digits2_pos p) = Z.log2 (Zpos p) + 1.
Proof.
  assert (forall q, digits2_pos q = Pos.size q) as Hsize
    by (induction q; simpl; congruence).
  destruct p; simpl; rewrite ?Hsize; lia.
Qed.

Lemma Zdigits2_log2 (z : Z) : 0 < z -> Zdigits2 z = Z.log2 z + 1.
Proof. destruct z; try lia. intros _. apply digits2_log2. Qed.

Lemma iter_xO_pow2 (p k : positive) : Zpos (Pos.iter xO p k) = Zpos p * 2 ^ Zpos k.
Proof.
  induction k as [| k IH] using Pos.peano_ind.
  - simpl. lia.
  - rewrite Pos.iter_succ, Pos2Z.inj_succ, Z.pow_succ_r by lia.
    rewrite Pos2Z.inj_xO, IH. lia.
Qed.

(** Shifting out [t] zero bits loses nothing. *)
Lemma iter_shr_1_exact (t : positive) (q : Z) :
  0 < q ->
  SpecFloat.iter_pos shr_1 t {| shr_m := q * 2 ^ Zpos t; shr_r := false; shr_s := false |}
  = {| shr_m := q; shr_r := false; shr_s := false |}.
Proof.
  assert (forall q, 0 < q ->
            shr_1 {| shr_m := q * 2; shr_r := false; shr_s := false |}
            = {| shr_m := q; shr_r := false; shr_s := false |}) as Hone.
  { intros [| p | p] Hp; try lia. by rewrite Z.mul_comm. }
  revert q. induction t as [t IH | t IH |]; intros q Hq.
  - cbn [SpecFloat.iter_pos].
    assert (2 ^ Zpos t~1 = 2 ^ Zpos t * 2 ^ Zpos t * 2) as ->.
    { replace (Zpos t~1) with (Zpos t + Zpos t + 1) by lia.
      rewrite !Z.pow_add_r by lia. lia. }
    assert (0 < 2 ^ Zpos t) by (apply Z.pow_pos_nonneg; lia).
    rewrite !Z.mul_assoc, Hone by nia. rewrite !IH; [done | lia | nia].
  - cbn [SpecFloat.iter_pos].
    assert (2 ^ Zpos t~0 = 2 ^ Zpos t * 2 ^ Zpos t) as ->.
    { replace (Zpos t~0) with (Zpos t + Zpos t) by lia.
      rewrite !Z.pow_add_r by lia. lia. }
    assert (0 < 2 ^ Zpos t) by (apply Z.pow_pos_nonneg; lia).
    rewrite !Z.mul_assoc. rewrite !IH; [done | lia | nia].
  - cbn [SpecFloat.iter_pos]. rewrite Z.pow_1_r. by apply Hone.
Qed.

(** A mantissa of [prec] digits followed by [t] zero bits rounds to
    itself. *)
Lemma binary_round_aux_exact (s : bool) (q : positive) (t e : Z) :
  Zpos (digits2_pos q) = prec ->
  0 <= t ->
  emin prec emax <= e + t <= emax - prec ->
  binary_round_aux prec emax s (Zpos q * 2 ^ t) e loc_Exact = S754_finite s q (e + t).
Proof.
  intros Hd Ht He.
  assert (0 < 2 ^ t) by (apply Z.pow_pos_nonneg; lia).
  assert (Zdigits2 (Zpos q * 2 ^ t) = prec + t) as Hdig.
  { rewrite Zdigits2_log2 by lia. rewrite Z.log2_mul_pow2 by lia.
    rewrite digits2_log2 in Hd. lia. }
  unfold binary_round_aux, shr_fexp. rewrite Hdig.
  assert (fexp prec emax (prec + t + e) - e = t) as ->
    by (unfold fexp; lia).
  assert (shr (shr_record_of_loc (Zpos q * 2 ^ t) loc_Exact) e t
          = ({| shr_m := Zpos q; shr_r := false; shr_s := false |}, e + t)) as ->.
  { unfold shr. simpl shr_record_of_loc. destruct t as [| t | t]; [| | lia].
    - rewrite Z.pow_0_r, Z.mul_1_r, Z.add_0_r. done.
    - rewrite iter_shr_1_exact by lia. done. }
  simpl loc_of_shr_record. simpl round_nearest_even. simpl shr_m.
  simpl Zdigits2. rewrite Hd.
  assert (fexp prec emax (prec + (e + t)) - (e + t) = 0) as ->
    by (unfold fexp; lia).
  simpl. destruct (e + t <=? emax - prec) eqn:Hle; [done | lia].
Qed.

End Rounding_exact.

(** [(double)c] for a positive [int]. *)
Lemma double_of_int_pos (c : Z) :
  0 < c < 2 ^ 53 ->
  exists m : positive,
    Zpos m = c * 2 ^ (53 - Zdigits2 c) /\
    double_of_int c = S754_finite false m (Zdigits2 c - 53).
Proof.
  intros Hc. destruct c as [| p | p]; try lia.
  assert (1 <= Zpos (digits2_pos p) <= 53) as Hd.
  { rewrite digits2_log2. pose proof (Z.log2_nonneg (Zpos p)).
    assert (Z.log2 (Zpos p) < 53) by (apply Z.log2_lt_pow2; lia). lia. }
  unfold double_of_int, binary_normalize, binary_round.
  rewrite Z.add_0_r. simpl Zdigits2.
  assert (fexp 53 1024 (Zpos (digits2_pos p)) = Zpos (digits2_pos p) - 53) as ->
    by (unfold fexp, emin; lia).
  unfold shl_align. rewrite Z.sub_0_r.
  destruct (Zpos (digits2_pos p) - 53) as [| k | k] eqn:Hk; [| lia |].
  - exists p. assert (Zpos (digits2_pos p) = 53) as Hd53 by lia.
    rewrite Hd53. simpl. split; [lia |].
    pose proof (binary_round_aux_exact 53 1024 false p 0 0 Hd53) as Hr.
    rewrite Z.pow_0_r, Z.mul_1_r in Hr. rewrite Hr; [done | lia | unfold emin; lia].
  - exists (Pos.iter xO p k).
    assert (53 - Zpos (digits2_pos p) = Zpos k) as -> by lia.
    split; [apply iter_xO_pow2 |].
    pose proof (binary_round_aux_exact 53 1024 false (Pos.iter xO p k) 0 (Zneg k)) as Hr.
    rewrite Z.pow_0_r, Z.mul_1_r, Z.add_0_r in Hr. apply Hr; [| lia | unfold emin; lia].
    rewrite digits2_log2, iter_xO_pow2, Z.log2_mul_pow2 by lia.
    rewrite digits2_log2 in Hk. lia.
Qed.

(** [int(1.25 * capacity)] is the floor of 5c/4: the product is exact in
    binary64 and the conversion truncates. *)
Lemma storage_capacity_floor (c : Z) :
  0 < c < 2 ^ 31 -> PrioritizedReplay.storage_capacity c = 5 * c / 4.
Proof.
  intros Hc.
  destruct (double_of_int_pos c) as (m & Hm & Hdc); [lia |].
  unfold PrioritizedReplay.storage_capacity. rewrite Hdc.
  unfold dmul, d1_25, SFmul. simpl xorb.
  set (d := Zdigits2 c) in *.
  assert (1 <= d <= 31) as Hd.
  { unfold d. rewrite Zdigits2_log2 by lia. pose proof (Z.log2_nonneg c).
    assert (Z.log2 c < 31) by (apply Z.log2_lt_pow2; lia). lia. }
  set (D5 := Zdigits2 (5 * c)).
  assert (1 <= D5 <= 34) as HD5.
  { unfold D5. rewrite Zdigits2_log2 by lia. pose proof (Z.log2_nonneg (5 * c)).
    assert (Z.log2 (5 * c) < 34) by (apply Z.log2_lt_pow2; lia). lia. }
  set (j := 53 - D5). set (t := 50 - d + D5).
  assert (0 < 2 ^ j) by (apply Z.pow_pos_nonneg; lia).
  assert (0 < 5 * c * 2 ^ j) as Hq by nia.
  set (q := Z.to_pos (5 * c * 2 ^ j)).
  assert (Zpos q = 5 * c * 2 ^ j) as Hqz by (unfold q; rewrite Z2Pos.id; lia).
  assert (Zpos (5629499534213120 * m) = Zpos q * 2 ^ t) as ->.
  { rewrite Pos2Z.inj_mul, Hm, Hqz.
    change (Zpos 5629499534213120) with (5 * 2 ^ 50).
    assert (2 ^ 50 * 2 ^ (53 - d) = 2 ^ j * 2 ^ t) as Hpow.
    { rewrite <- !Z.pow_add_r by lia. f_equal. lia. }
    transitivity (5 * c * (2 ^ 50 * 2 ^ (53 - d))); [ring |].
    rewrite Hpow. ring. }
  rewrite binary_round_aux_exact.
  - unfold int_of_double.
    assert (-52 + (d - 53) + t = - (2 + j)) as -> by lia.
    destruct (- (2 + j)) as [| p | p] eqn:He; try lia.
    rewrite Z.shiftr_div_pow2 by lia.
    assert (Zpos p = 2 + j) as -> by lia.
    rewrite Hqz, Z.pow_add_r by lia.
    change (2 ^ 2) with 4. rewrite Z.div_mul_cancel_r by lia. done.
  - rewrite digits2_log2, Hqz, Z.log2_mul_pow2 by lia.
    unfold j, D5. rewrite Zdigits2_log2 by lia. lia.
  - lia.
  - unfold emin. lia.
Qed.

(** ** IEEE arithmetic: signs *)

Section Rounding_sign.
Variables prec emax : Z.

Lemma iter_pos_invariant {A : Type} (P : A -> Prop) (f : A -> A) :
  (forall x, P x -> P (f x)) -> forall n x, P x -> P (SpecFloat.iter_pos f n x).
Proof.
  intros Hf. induction n as [n IH | n IH |]; intros x Hx; simpl; auto.
Qed.

Lemma shr_1_nonneg mrs : 0 <= shr_m mrs -> 0 <= shr_m (shr_1 mrs).
Proof. destruct mrs as [[| [p | p |] | p] r s]; simpl; lia. Qed.

Lemma shr_nonneg mrs e n : 0 <= shr_m mrs -> 0 <= shr_m (shr mrs e n).1.
Proof.
  intros H. unfold shr. destruct n; simpl; try done.
  by apply iter_pos_invariant; [apply shr_1_nonneg |].
Qed.

Lemma shr_fexp_nonneg m e l : 0 <= m -> 0 <= shr_m (shr_fexp prec emax m e l).1.
Proof.
  intros H. unfold shr_fexp. apply shr_nonneg.
  by destruct l as [| []].
Qed.

Lemma round_nearest_even_nonneg m l : 0 <= m -> 0 <= round_nearest_even m l.
Proof. intros H. destruct l as [| []]; simpl; try lia. destruct (Z.even m); lia. Qed.

Lemma binary_round_aux_signed s m e l :
  0 <= m -> signed s (binary_round_aux prec emax s m e l).
Proof.
  intros Hm. unfold binary_round_aux.
  pose proof (shr_fexp_nonneg m e l Hm) as H1.
  destruct (shr_fexp prec emax m e l) as [mrs' e']. simpl in H1.
  pose proof (shr_fexp_nonneg _ e' loc_Exact
                (round_nearest_even_nonneg _ (loc_of_shr_record mrs') H1)) as H2.
  destruct (shr_fexp prec emax _ e' loc_Exact) as [mrs'' e'']. simpl in H2.
  destruct (shr_m mrs''); [done | | lia].
  by destruct (e'' <=? emax - prec).
Qed.

Lemma binary_round_signed s m e : signed s (binary_round prec emax s m e).
Proof.
  unfold binary_round. destruct (shl_align m e _) as [mz ez].
  apply binary_round_aux_signed. lia.
Qed.

Lemma binary_normalize_nonpos m e :
  m <= 0 -> SFleb (binary_normalize prec emax m e false) (S754_zero false) = true.
Proof.
  intros Hm. unfold binary_normalize. destruct m as [| p | p]; [done | lia |].
  pose proof (binary_round_signed true p e) as Hs.
  by destruct (binary_round prec emax true p e) as [[] | [] | | [] ? ?].
Qed.

End Rounding_sign.

Lemma double_of_float_nonpos (x : float) :
  SFleb x fzero = true -> dleb (double_of_float x) dzero = true.
Proof.
  destruct x as [s | s | | s m e]; try done. destruct s; [| done]. intros _.
  unfold double_of_float.
  pose proof (binary_round_signed 53 1024 true m e) as Hs.
  by destruct (binary_round 53 1024 true m e) as [[] | [] | | [] ? ?].
Qed.

Lemma std_min_nonpos (a r : float) :
  SFleb a fzero = true -> SFleb (std_min a r) fzero = true.
Proof.
  intros Ha. unfold std_min, fltb, SFltb.
  destruct (SFcompare r a) as [[] |] eqn:Hc; try done.
  destruct a as [sa | sa | | sa ma ea], r as [sr | sr | | sr mr er];
    try done; destruct sa, sr; try done.
Qed.

(** A draw that is not positive is crossed as soon as the prefix sum is
    positive. *)
Lemma crossed_nonpos (acc : double) (rand : float) :
  dleb (double_of_float rand) dzero = true ->
  PrioritizedReplay.crossed acc rand = dltb dzero acc.
Proof.
  intros Hr. unfold PrioritizedReplay.crossed.
  destruct (dltb dzero acc) eqn:Hacc; [| done]. simpl.
  destruct (double_of_float rand) as [sr | sr | | sr mr er],
           acc as [sa | sa | | sa ma ea]; try done; destruct sr, sa; try done.
Qed.

(** A binary32 value has at most 24 digits. *)
Lemma valid_digits (s : bool) (m : positive) (e : Z) :
  valid_binary 24 128 (S754_finite s m e) = true -> Zpos m < 2 ^ 24.
Proof.
  unfold valid_binary, bounded, canonical_mantissa, fexp, emin.
  intros H. apply andb_true_iff in H as [H _]. apply Z.eqb_eq in H.
  rewrite digits2_log2 in H.
  apply Z.log2_lt_pow2; lia.
Qed.

Lemma shl_align_fst (m : positive) (e e' : Z) :
  Zpos (shl_align m e e').1 = if e' <? e then Zpos m * 2 ^ (e - e') else Zpos m.
Proof.
  unfold shl_align.
  destruct (Z.ltb_spec e' e) as [Hlt | Hge].
  - destruct (e' - e) as [| d | d] eqn:Hd; try lia. simpl.
    rewrite iter_xO_pow2. do 2 f_equal. lia.
  - destruct (e' - e) as [| d | d] eqn:Hd; try lia; done.
Qed.

(** [sum - 0.2f] is not positive when [sum <= 0.2f]. *)
Lemma fsub_f0_2_nonpos (sum : float) :
  valid_binary 24 128 sum = true ->
  SFleb sum f0_2 = true -> SFleb (fsub sum f0_2) fzero = true.
Proof.
  intros Hvalid Hle.
  destruct sum as [s | s | | s m e]; try done.
  apply valid_digits in Hvalid.
  unfold fsub, SFsub, f0_2. apply binary_normalize_nonpos.
  rewrite !shl_align_fst.
  destruct s; simpl cond_Zopp.
  - assert (0 < 2 ^ (e - Z.min e (-26))) by (apply Z.pow_pos_nonneg; lia).
    assert (0 < 2 ^ (-26 - Z.min e (-26))) by (apply Z.pow_pos_nonneg; lia).
    destruct (Z.min e (-26) <? e), (Z.min e (-26) <? -26); nia.
  - unfold SFleb, SFcompare, f0_2 in Hle.
    destruct (Z.compare_spec e (-26)) as [-> | Hlt | Hgt]; try done.
    + rewrite Z.min_id, Z.ltb_irrefl.
      destruct (Pos.compare_cont Eq m 13421773) eqn:Hm; try done.
      * apply Pos.compare_eq in Hm. lia.
      * change (Pos.compare_cont Eq m 13421773) with (m ?= 13421773)%positive in Hm.
        assert (m < 13421773)%positive as Hlt by exact Hm. lia.
    + rewrite Z.min_l by lia. rewrite Z.ltb_irrefl.
      destruct (Z.ltb_spec e (-26)) as [_ | Hge]; [| lia].
      assert (2 ^ 1 <= 2 ^ (-26 - e)) by (apply Z.pow_le_mono_r; lia).
      change (2 ^ 1) with 2 in *. change (2 ^ 24) with 16777216 in *. nia.
Qed.

(** ** IEEE arithmetic: rounding gives a value of the format *)

Section Rounding_valid.
Variables prec emax : Z.
Hypothesis Hprec : 0 < prec.

Lemma fexp_mono (a b : Z) : a <= b -> fexp prec emax a <= fexp prec emax b.
Proof. unfold fexp. lia. Qed.

Lemma Zdigits2_nonneg (m : Z) : 0 <= m -> 0 <= Zdigits2 m.
Proof. destruct m; simpl; lia. Qed.

Lemma Zdigits2_mono (a b : Z) : 0 <= a <= b -> Zdigits2 a <= Zdigits2 b.
Proof.
  intros [Ha Hab]. destruct (decide (a = 0)) as [-> | Hne].
  - apply Zdigits2_nonneg. lia.
  - rewrite !Zdigits2_log2 by lia. pose proof (Z.log2_le_mono a b Hab). lia.
Qed.

Lemma shr_1_half (mrs : shr_record) :
  0 <= shr_m mrs -> shr_m (shr_1 mrs) = shr_m mrs / 2.
Proof.
  intros H. rewrite <- Z.div2_div.
  by destruct mrs as [[| [p | p |] | p] r s]; simpl in *; try lia.
Qed.

Lemma iter_shr_1_div (t : positive) (mrs : shr_record) :
  0 <= shr_m mrs ->
  shr_m (SpecFloat.iter_pos shr_1 t mrs) = shr_m mrs / 2 ^ Zpos t.
Proof.
  revert mrs. induction t as [t IH | t IH |]; intros mrs Hm; cbn [SpecFloat.iter_pos].
  - assert (0 < 2 ^ Zpos t) by (apply Z.pow_pos_nonneg; lia).
    rewrite IH, IH, shr_1_half; try done.
    + rewrite !Z.div_div by lia. f_equal.
      replace (Zpos t~1) with (1 + Zpos t + Zpos t) by lia.
      rewrite !Z.pow_add_r by lia. lia.
    + by apply shr_1_nonneg.
    + rewrite IH by (by apply shr_1_nonneg).
      apply Z.div_pos; [| lia]. by apply shr_1_nonneg.
  - assert (0 < 2 ^ Zpos t) by (apply Z.pow_pos_nonneg; lia).
    rewrite IH, IH; try done.
    + rewrite !Z.div_div by lia. f_equal.
      replace (Zpos t~0) with (Zpos t + Zpos t) by lia.
      rewrite !Z.pow_add_r by lia. lia.
    + rewrite IH by done. apply Z.div_pos; lia.
  - rewrite Z.pow_1_r. by apply shr_1_half.
Qed.

(** [shr_fexp] leaves a mantissa in canonical position, provided the
    exponent is not above the canonical one to start with. *)
Lemma shr_fexp_canonical (m e : Z) (l : location) :
  0 <= m -> e <= fexp prec emax (Zdigits2 m + e) ->
  let res := shr_fexp prec emax m e l in
  0 <= shr_m res.1 /\ fexp prec emax (Zdigits2 (shr_m res.1) + res.2) = res.2.
Proof.
  intros Hm He res. split; [by apply shr_fexp_nonneg |].
  unfold res, shr_fexp, shr.
  assert (shr_m (shr_record_of_loc m l) = m) as Hrec by (by destruct l as [| []]).
  destruct (fexp prec emax (Zdigits2 m + e) - e) as [| n | n] eqn:Hn; simpl.
  - rewrite Hrec. lia.
  - rewrite iter_shr_1_div by (rewrite Hrec; lia). rewrite Hrec.
    assert (0 < 2 ^ Zpos n) by (apply Z.pow_pos_nonneg; lia).
    destruct (decide (m < 2 ^ Zpos n)) as [Hsmall | Hbig].
    + rewrite Z.div_small by lia. simpl.
      assert (Zdigits2 m <= Zpos n) as Hd.
      { destruct (decide (m = 0)) as [-> | Hne]; [simpl; lia |].
        rewrite Zdigits2_log2 by lia.
        assert (Z.log2 m < Zpos n) by (apply Z.log2_lt_pow2; lia). lia. }
      unfold fexp in *. lia.
    + assert (Zdigits2 (m / 2 ^ Zpos n) = Zdigits2 m - Zpos n) as ->.
      { assert (0 < m / 2 ^ Zpos n) by (apply Z.div_str_pos; lia).
        rewrite !Zdigits2_log2 by lia.
        rewrite <- Z.shiftr_div_pow2, Z.log2_shiftr by lia.
        assert (Zpos n <= Z.log2 m) by (apply Z.log2_le_pow2; lia). lia. }
      replace (Zdigits2 m - Zpos n + (e + Zpos n)) with (Zdigits2 m + e) by lia.
      lia.
  - lia.
Qed.

Lemma round_nearest_even_ge (m : Z) (l : location) : m <= round_nearest_even m l.
Proof. destruct l as [| []]; simpl; try lia. destruct (Z.even m); lia. Qed.

Lemma binary_round_aux_valid (s : bool) (m e : Z) (l : location) :
  0 <= m -> e <= fexp prec emax (Zdigits2 m + e) ->
  valid_binary prec emax (binary_round_aux prec emax s m e l) = true.
Proof.
  intros Hm He. unfold binary_round_aux.
  pose proof (shr_fexp_canonical m e l Hm He) as [H1 Hc1]. simpl in H1, Hc1.
  destruct (shr_fexp prec emax m e l) as [mrs' e']. simpl in H1, Hc1.
  set (mr := round_nearest_even (shr_m mrs') (loc_of_shr_record mrs')).
  pose proof (round_nearest_even_ge (shr_m mrs') (loc_of_shr_record mrs')) as Hge.
  fold mr in Hge.
  assert (e' <= fexp prec emax (Zdigits2 mr + e')) as He'.
  { rewrite <- Hc1 at 1. apply fexp_mono.
    pose proof (Zdigits2_mono (shr_m mrs') mr). lia. }
  pose proof (shr_fexp_canonical mr e' loc_Exact ltac:(lia) He') as [H2 Hc2].
  simpl in H2, Hc2.
  destruct (shr_fexp prec emax mr e' loc_Exact) as [mrs'' e'']. simpl in H2, Hc2.
  destruct (shr_m mrs'') as [| p | p] eqn:Hp; [done | | done].
  destruct (Z.leb_spec e'' (emax - prec)) as [Hle | Hgt]; [| done].
  simpl. unfold bounded, canonical_mantissa.
  apply andb_true_iff. split; [by apply Z.eqb_eq | by apply Z.leb_le].
Qed.

Lemma binary_round_valid (s : bool) (m : positive) (e : Z) :
  valid_binary prec emax (binary_round prec emax s m e) = true.
Proof.
  unfold binary_round.
  pose proof (shl_align_fst m e (fexp prec emax (Zpos (digits2_pos m) + e))) as Hm.
  assert ((shl_align m e (fexp prec emax (Zpos (digits2_pos m) + e))).2
          = Z.min e (fexp prec emax (Zpos (digits2_pos m) + e))) as He.
  { unfold shl_align.
    destruct (fexp prec emax (Zpos (digits2_pos m) + e) - e) eqn:Hd; simpl; lia. }
  destruct (shl_align m e _) as [mz ez]. simpl in Hm, He.
  apply binary_round_aux_valid; [lia |].
  set (f := fexp prec emax (Zpos (digits2_pos m) + e)) in *.
  change (Zdigits2 (Zpos mz)) with (Zpos (digits2_pos mz)).
  destruct (Z.ltb_spec f e) as [Hlt | Hge].
  - rewrite Z.min_r in He by lia.
    assert (Zpos (digits2_pos mz) = Zpos (digits2_pos m) + (e - f)) as ->.
    { rewrite !digits2_log2, Hm, Z.log2_mul_pow2 by lia. lia. }
    replace (Zpos (digits2_pos m) + (e - f) + ez) with (Zpos (digits2_pos m) + e) by lia.
    fold f. lia.
  - rewrite Z.min_l in He by lia. injection Hm as ->. subst ez. by fold f.
Qed.

End Rounding_valid.

(** Every [(float)d] is a binary32 value. *)
Lemma float_of_double_valid (d : double) : valid_binary 24 128 (float_of_double d) = true.
Proof. destruct d; try done. by apply binary_round_valid. Qed.

(** ** Outcomes and vectors *)

Lemma bind_Done {A B : Type} (x : outcome A) (k : A -> outcome B) (b : B) :
  x ≫= k = Done b -> exists a, x = Done a /\ k a = Done b.
Proof. destruct x; simpl; intros H; try discriminate. eauto. Qed.

Lemma assert_Done (b : bool) (k : outcome unit) :
  assert b = Done tt <-> b = true.
Proof. destruct b; simpl; split; intros; congruence. Qed.

Lemma assert_bind_Done {B : Type} (b : bool) (k : unit -> outcome B) (y : B) :
  assert b ≫= k = Done y -> b = true /\ k tt = Done y.
Proof. destruct b; simpl; intros H; [auto | discriminate]. Qed.

Lemma rem_mod (a b : Z) : 0 <= a -> 0 < b -> Z.rem a b = a mod b.
Proof. intros. apply Z.rem_mod_nonneg; lia. Qed.

Lemma vset_length {A : Type} (l : list A) (i : Z) (x : A) :
  length (vset l i x) = length l.
Proof. unfold vset. destruct (i <? 0); [done | apply length_insert]. Qed.

Lemma vget_vset_eq {A : Type} (d : A) (l : list A) (i : Z) (x : A) :
  0 <= i < Z.of_nat (length l) -> vget d (vset l i x) i = x.
Proof.
  intros Hi. unfold vget, vset.
  destruct (i <? 0) eqn:Hneg; [lia |].
  rewrite list_lookup_insert_eq; [done | lia].
Qed.

Lemma vget_vset_ne {A : Type} (d : A) (l : list A) (i j : Z) (x : A) :
  i <> j -> vget d (vset l i x) j = vget d l j.
Proof.
  intros Hne. unfold vget, vset.
  destruct (j <? 0) eqn:Hj; [done |].
  destruct (i <? 0) eqn:Hi; [done |].
  rewrite list_lookup_insert_ne; [done | lia].
Qed.

(** ** The accounting invariant is kept by every step *)

Section Accounting_proofs.
Context `{E : External}.
Import ConcurrentQueue Interleaving Accounting.

Lemma mod_shift (cap a b : Z) : 0 < cap -> (a mod cap + b) mod cap = (a + b) mod cap.
Proof. intros. apply Zplus_mod_idemp_l. Qed.

Lemma total_nonneg (ps : list producer) : 0 <= total ps.
Proof. induction ps as [| p ps IH]; simpl; unfold block_size in *; lia. Qed.

Lemma total_app (a b : list producer) : total (a ++ b) = total a + total b.
Proof. induction a as [| p a IH]; simpl; lia. Qed.

Lemma chain_app (cap s : Z) (a b : list producer) :
  0 < cap -> 0 <= s < cap ->
  chain cap s (a ++ b) <-> chain cap s a /\ chain cap ((s + total a) mod cap) b.
Proof.
  intros Hcap. revert s. induction a as [| p a IH]; intros s Hs; simpl.
  - rewrite Z.add_0_r, Z.mod_small by lia. tauto.
  - destruct (0 <? block_size p) eqn:Hp.
    + rewrite IH by (apply Z.mod_pos_bound; lia).
      rewrite mod_shift by lia. rewrite Z.add_assoc. tauto.
    + assert (block_size p = 0) as -> by (unfold block_size in *; lia).
      rewrite IH by lia. simpl. tauto.
Qed.

Lemma chain_zero (cap s : Z) (a : list producer) :
  total a = 0 -> chain cap s a.
Proof.
  revert s. induction a as [| p a IH]; intros s Ht; simpl; [done |].
  simpl in Ht. pose proof (total_nonneg a).
  assert (block_size p = 0) as Hp by (unfold block_size in *; lia).
  rewrite Hp. simpl. apply IH. lia.
Qed.

Lemma inv_new (cap : Z) : 0 < cap -> inv (new cap) [].
Proof.
  intros Hcap. constructor; simpl; try lia; try done; apply length_replicate.
Qed.

Lemma inv_reserve q ps block weights q' start end_ :
  inv q ps ->
  append_reserve (Z.of_nat (length block)) q = Done (q', (start, end_)) ->
  inv q' (ps ++ [mkProducer start end_ block weights Reserved]).
Proof.
  intros [Hcap Hhead Hsafe Hsize Htail Hstail Hev Hel Hwt Hps Hchain Htotal] Hr.
  unfold append_reserve in Hr.
  destruct (size_ q + Z.of_nat (length block) <=? capacity q) eqn:Hroom; [| discriminate].
  apply assert_bind_Done in Hr as [_ Hr]. injection Hr as <- <- <-.
  assert (0 <= tail_ q < capacity q) as Htl
    by (rewrite Htail; apply Z.mod_pos_bound; lia).
  constructor; simpl; try lia.
  - rewrite rem_mod by lia. rewrite Htail, mod_shift by lia. f_equal. lia.
  - apply Forall_app. split; [done |]. constructor; [| done].
    unfold well_formed, block_size. simpl. split; [lia |]. apply rem_mod; lia.
  - apply chain_app; [lia | rewrite Hstail; apply Z.mod_pos_bound; lia |].
    split; [done |]. simpl. unfold block_size. simpl.
    destruct (0 <? Z.of_nat (length block)); [| done]. split; [| done].
    rewrite Htotal, Hstail, mod_shift, Htail by lia. f_equal. lia.
  - rewrite total_app. simpl. unfold block_size. simpl. lia.
Qed.

Lemma same_counters_refl q : same_counters q q.
Proof. by repeat split. Qed.

Lemma same_counters_trans q1 q2 q3 :
  same_counters q1 q2 -> same_counters q2 q3 -> same_counters q1 q3.
Proof.
  unfold same_counters. intros (?&?&?&?&?&?&?&?&?) (?&?&?&?&?&?&?&?&?).
  repeat split; congruence.
Qed.

Lemma inv_same_counters q q' ps : same_counters q q' -> inv q ps -> inv q' ps.
Proof.
  intros (Hc & Hh & Ht & Hs & Hst & Hss & He & Hel & Hw) [].
  constructor; rewrite ?Hc, ?Hh, ?Ht, ?Hs, ?Hst, ?Hss, ?He, ?Hel, ?Hw; done.
Qed.

Lemma fill_loop_counters start i block weight_acc q sum :
  same_counters q (fill_loop start i block weight_acc q sum).1.
Proof.
  revert i q sum. induction block as [| x block IH]; intros i q sum; simpl.
  - apply same_counters_refl.
  - eapply same_counters_trans; [| apply IH].
    repeat split; simpl; by rewrite ?vset_length.
Qed.

Lemma append_fill_counters start block weights q q' sum :
  append_fill start block weights q = Done (q', sum) -> same_counters q q'.
Proof.
  unfold append_fill. intros H.
  apply assert_bind_Done in H as [_ H]. apply assert_bind_Done in H as [_ H].
  injection H as H. pose proof (fill_loop_counters start 0 block (values weights) q fzero) as Hc.
  rewrite H in Hc. done.
Qed.

Lemma update_loop_counters i ids weight_acc q diff :
  same_counters q (update_loop i ids weight_acc q diff).1.
Proof.
  revert i q diff. induction ids as [| id ids IH]; intros i q diff; simpl.
  - apply same_counters_refl.
  - destruct (vget false (evicted_ q) id); [apply IH |].
    eapply same_counters_trans; [| apply IH].
    repeat split; simpl; by rewrite ?vset_length.
Qed.

Lemma update_counters ids ws q : same_counters q (update_weights ids ws q).
Proof.
  unfold update_weights.
  pose proof (update_loop_counters 0 ids ws q dzero) as Hc.
  destruct (update_loop 0 ids ws q dzero) as [q' diff].
  eapply same_counters_trans; [apply Hc |]. by repeat split.
Qed.

(** [update] returns on a tensor of rank 1 and on no other. *)
Lemma update_Done ids weights q q' :
  update ids weights q = Done q' <->
  dim weights = 1 /\ q' = update_weights ids (values weights) q.
Proof.
  unfold update. destruct (Z.eqb_spec (dim weights) 1) as [Hdim | Hdim]; simpl.
  - split; [by intros [= <-] | by intros [_ ->]].
  - split; [done | by intros [? _]].
Qed.

Lemma mark_counters idx q : same_counters q (get_element_and_mark idx q).2.
Proof. repeat split; simpl; by rewrite ?vset_length. Qed.

Lemma well_formed_stage cap p s : well_formed cap p -> well_formed cap (set_stage p s).
Proof. done. Qed.

Lemma chain_set_stage cap s l1 p l2 st :
  chain cap s (l1 ++ set_stage p st :: l2) <-> chain cap s (l1 ++ p :: l2).
Proof. revert s. induction l1 as [| x l1 IH]; intros s; simpl; [done |].
  destruct (0 <? block_size x); [| apply IH]. by rewrite IH. Qed.

Lemma total_set_stage l1 p l2 st :
  total (l1 ++ set_stage p st :: l2) = total (l1 ++ p :: l2).
Proof. by rewrite !total_app. Qed.

Lemma inv_set_stage q l1 p l2 st :
  inv q (l1 ++ p :: l2) -> inv q (l1 ++ set_stage p st :: l2).
Proof.
  intros []. constructor; try done.
  - apply Forall_app in inv_producers0 as [H1 H2]. apply Forall_cons in H2 as [Hp H2].
    apply Forall_app. split; [done |]. by constructor.
  - by apply chain_set_stage.
  - by rewrite total_set_stage.
Qed.

Lemma inv_commit q l1 p l2 sum q' :
  inv q (l1 ++ p :: l2) ->
  append_commit (p_start p) (p_end p) (block_size p) sum q = Done q' ->
  inv q' (l1 ++ l2).
Proof.
  intros [Hcap Hhead Hsafe Hsize Htail Hstail Hev Hel Hwt Hps Hchain Htotal] Hc.
  unfold append_commit in Hc.
  destruct (safe_tail_ q =? p_start p) eqn:Hst; [| discriminate].
  apply assert_bind_Done in Hc as [_ Hc]. injection Hc as <-.
  apply Z.eqb_eq in Hst.
  apply Forall_app in Hps as [Hps1 Hps2]. apply Forall_cons in Hps2 as [[Hp1 Hp2] Hps2].
  rewrite total_app in Htotal. simpl in Htotal.
  pose proof (total_nonneg l1). pose proof (total_nonneg l2).
  assert (0 <= block_size p) by (unfold block_size; lia).
  assert (0 <= safe_tail_ q < capacity q) as Hstl
    by (rewrite Hstail; apply Z.mod_pos_bound; lia).
  apply chain_app in Hchain as [Hch1 Hch2]; [| lia | lia].
  simpl in Hch2.
  destruct (0 <? block_size p) eqn:Hpos.
  - destruct Hch2 as [Hstart Hch2].
    assert (total l1 = 0) as Hl1.
    { destruct (decide (total l1 = 0)) as [| Hne]; [done | exfalso].
      assert ((safe_tail_ q + total l1) mod capacity q = safe_tail_ q) as Hm by congruence.
      apply Z.ltb_lt in Hpos.
      assert (total l1 < capacity q) by lia.
      pose proof (Z.div_mod (safe_tail_ q + total l1) (capacity q) ltac:(lia)) as Hdm.
      rewrite Hm in Hdm.
      assert ((safe_tail_ q + total l1) / capacity q = 0 \/
              1 <= (safe_tail_ q + total l1) / capacity q) as [Hq | Hq].
      { pose proof (Z.div_pos (safe_tail_ q + total l1) (capacity q)); lia. }
      - rewrite Hq in Hdm. lia.
      - nia. }
    constructor; simpl; try lia; try done.
    + rewrite Hp2, <- Hst, Hstail, mod_shift by lia. f_equal. lia.
    + apply Forall_app. done.
    + apply chain_app; [lia | rewrite Hp2; apply Z.mod_pos_bound; lia |].
      split; [by apply chain_zero |].
      rewrite Hl1, Z.add_0_r, Z.mod_small by (rewrite Hp2; apply Z.mod_pos_bound; lia).
      rewrite Hp2, <- Hst.
      rewrite Hl1, Z.add_0_r, (Z.mod_small (safe_tail_ q)) in Hch2 by lia. done.
    + rewrite total_app. lia.
  - assert (block_size p = 0) as Hz by (apply Z.ltb_ge in Hpos; lia).
    assert (p_end p = safe_tail_ q) as Hend.
    { rewrite Hp2, Hz, Z.add_0_r, Z.mod_small by lia. done. }
    constructor; simpl; try lia; try done.
    + rewrite Hend, Hz, Z.add_0_r. done.
    + apply Forall_app. done.
    + rewrite Hend. apply chain_app; [lia | lia |]. done.
    + rewrite total_app. lia.
Qed.

Lemma pop_loop_head n cap weights evicted head diff :
  0 < cap -> 0 <= head < cap ->
  (pop_loop n cap weights evicted head diff).1.2 = (head + Z.of_nat n) mod cap.
Proof.
  intros Hcap. revert evicted head diff.
  induction n as [| n IH]; intros evicted head diff Hh.
  - simpl. rewrite Z.add_0_r, Z.mod_small; lia.
  - cbn [pop_loop]. rewrite rem_mod by lia.
    rewrite IH by (apply Z.mod_pos_bound; lia).
    rewrite mod_shift by lia. f_equal. lia.
Qed.

Lemma pop_loop_length n cap weights : forall evicted head diff,
  length (pop_loop n cap weights evicted head diff).1.1 = length evicted.
Proof.
  induction n as [| n IH]; intros evicted head diff; [done |].
  cbn [pop_loop]. by rewrite IH, vset_length.
Qed.

Lemma inv_pop q ps n q' :
  0 <= n -> inv q ps -> block_pop n q = Done q' -> inv q' ps.
Proof.
  intros Hn [Hcap Hhead Hsafe Hsize Htail Hstail Hev Hel Hwt Hps Hchain Htotal] Hp.
  unfold block_pop in Hp.
  pose proof (pop_loop_head (Z.to_nat n) (capacity q) (weights_ q) (evicted_ q)
                (head_ q) dzero Hcap Hhead) as Hh.
  pose proof (pop_loop_length (Z.to_nat n) (capacity q) (weights_ q) (evicted_ q)
                (head_ q) dzero) as Hlen.
  destruct (pop_loop _ _ _ _ _ _) as [[evicted head] diff]. simpl in Hh, Hlen.
  apply assert_bind_Done in Hp as [Hge Hp]. apply assert_bind_Done in Hp as [_ Hp].
  injection Hp as <-. simpl in Hge. apply Z.leb_le in Hge.
  rewrite Z2Nat.id in Hh by lia.
  constructor; simpl; try lia; try done.
  - rewrite Hh. apply Z.mod_pos_bound; lia.
  - rewrite Hh, mod_shift, Htail by lia. f_equal. lia.
  - rewrite Hh, mod_shift, Hstail by lia. f_equal. lia.
Qed.

(** Under the invariant the assertions of [check_size] hold. *)
Lemma check_size_mod q h n :
  0 < capacity q -> 0 <= h < capacity q -> 0 <= n <= capacity q ->
  check_size q h ((h + n) mod capacity q) n = true.
Proof.
  intros Hcap Hh Hn. unfold check_size.
  destruct (Z.eqb_spec n 0) as [-> | Hne].
  - rewrite Z.add_0_r, Z.mod_small by lia. apply Z.eqb_refl.
  - destruct (decide (h + n < capacity q)) as [Hlt | Hge].
    + rewrite Z.mod_small by lia.
      destruct (Z.gtb_spec (h + n) h) as [_ | Hle]; [| lia]. apply Z.eqb_eq. lia.
    + assert ((h + n) mod capacity q = h + n - capacity q) as ->.
      { symmetry. apply (Z.mod_unique_pos _ _ 1); lia. }
      destruct (Z.gtb_spec (h + n - capacity q) h) as [Hgt | _]; [lia |].
      apply Z.eqb_eq. lia.
Qed.

Lemma inv_check_size q ps :
  inv q ps ->
  check_size q (head_ q) (tail_ q) (size_ q) = true /\
  check_size q (head_ q) (safe_tail_ q) (safe_size_ q) = true.
Proof.
  intros []. rewrite inv_tail0, inv_safe_tail0.
  split; apply check_size_mod; lia.
Qed.

(** [block_pop] returns whenever it is asked for no more than the
    committed slots. *)
Lemma block_pop_Done q ps n :
  inv q ps -> 0 <= n <= safe_size_ q -> exists q', block_pop n q = Done q'.
Proof.
  intros Hinv Hn. pose proof Hinv as [Hcap Hhead Hsafe Hsize Htail Hstail _ _ _ _ _ _].
  unfold block_pop.
  pose proof (pop_loop_head (Z.to_nat n) (capacity q) (weights_ q) (evicted_ q)
                (head_ q) dzero Hcap Hhead) as Hh.
  destruct (pop_loop _ _ _ _ _ _) as [[evicted head] diff]. simpl in Hh.
  rewrite Z2Nat.id in Hh by lia. simpl.
  destruct (Z.leb_spec 0 (safe_size_ q - n)) as [_ | Hneg]; [| lia]. simpl.
  assert (safe_tail_ q = (head + (safe_size_ q - n)) mod capacity q) as ->.
  { rewrite Hh, mod_shift, Hstail by lia. f_equal. lia. }
  unfold check_size at 1. simpl capacity.
  pose proof (check_size_mod q head (safe_size_ q - n) Hcap) as Hcs.
  unfold check_size in Hcs. rewrite Hcs.
  - by eexists.
  - rewrite Hh. apply Z.mod_pos_bound. lia.
  - lia.
Qed.

(** Every step keeps the invariant. *)
Lemma step_inv s s' : step s s' -> inv s.1 s.2 -> inv s'.1 s'.2.
Proof.
  intros Hstep. destruct Hstep; simpl; intros Hinv.
  - eapply inv_reserve; eauto.
  - apply inv_set_stage. eapply inv_same_counters; [| done].
    eapply append_fill_counters; eauto.
  - eapply inv_commit; eauto.
  - eapply inv_pop; eauto.
  - apply update_Done in H as [_ ->].
    eapply inv_same_counters; [apply update_counters | done].
  - eapply inv_same_counters; [apply mark_counters | done].
Qed.

Lemma reachable_inv cap s : 0 < cap -> reachable cap s -> inv s.1 s.2.
Proof.
  intros Hcap Hr. unfold reachable in Hr.
  revert s Hr. apply (rtc_ind_r (fun s => inv s.1 s.2)).
  - simpl. by apply inv_new.
  - intros y z _ Hstep IH. eapply step_inv; eauto.
Qed.

End Accounting_proofs.

(** ** The replay keeps the invariant of its store *)

Section Replay_accounting.
Context `{E : External}.
Import ConcurrentQueue PrioritizedReplay Interleaving Accounting.

Lemma take_counters i s s' : take i s = Done s' -> same_counters (store s) (store s').
Proof.
  unfold take. intros H. apply assert_bind_Done in H as [_ H].
  injection H as <-. repeat split; simpl; by rewrite ?vset_length.
Qed.

Lemma advance_store s : store (advance s) = store s.
Proof. done. Qed.

Lemma scan_while_counters rem rand i s s' :
  scan_while rem rand i s = Done s' -> same_counters (store s) (store s').
Proof.
  revert s. induction rem as [| rem IH]; intros s; simpl.
  - destruct (crossed (acc_sum s) rand); [apply take_counters | discriminate].
  - destruct (crossed (acc_sum s) rand); [apply take_counters |].
    intros H. apply IH in H. by rewrite advance_store in H.
Qed.

Lemma scan_for_counters n size sum segment i g s s' g' :
  scan_for n size sum segment i g s = Done (s', g') ->
  same_counters (store s) (store s').
Proof.
  revert i g s. induction n as [| n IH]; intros i g s; simpl.
  - intros [= <- <-]. apply same_counters_refl.
  - destruct (draw sum segment i g) as [rand g1].
    intros H. apply bind_Done in H as (s1 & H1 & H2).
    eapply same_counters_trans; [| eapply IH; eauto].
    destruct (next_idx s <=? size).
    + eapply scan_while_counters; eauto.
    + injection H1 as <-. apply same_counters_refl.
Qed.

Lemma sample__storage batchsize device r r' res ps :
  inv (storage_ r) ps -> sample_ batchsize device r = Done (r', res) ->
  inv (storage_ r') ps.
Proof.
  intros Hinv. unfold sample_. simpl.
  intros H. apply bind_Done in H as (weights & _ & H).
  apply bind_Done in H as ([s g] & Hscan & H).
  apply assert_bind_Done in H as [_ H].
  apply bind_Done in H as (q & Hq & H).
  apply bind_Done in H as (ws & _ & H). injection H as <- _.
  simpl. apply scan_for_counters in Hscan. simpl in Hscan.
  pose proof (inv_same_counters _ _ _ Hscan Hinv) as Hinv'.
  destruct (ConcurrentQueue.size (store s) >? capacity_ r) eqn:Hfull.
  - eapply inv_pop; [| apply Hinv' | apply Hq]. lia.
  - by injection Hq as <-.
Qed.

Lemma sample__fields batchsize device r r' res :
  sample_ batchsize device r = Done (r', res) ->
  alpha_ r' = alpha_ r /\ beta_ r' = beta_ r /\ prefetch_ r' = prefetch_ r /\
  capacity_ r' = capacity_ r /\ num_add_ r' = num_add_ r /\
  sampled_ids_ r' = sampled_ids_ r /\ futures_ r' = futures_ r /\
  last_query_ r' = last_query_ r.
Proof.
  unfold sample_. simpl. intros H.
  apply bind_Done in H as (weights & _ & H).
  apply bind_Done in H as ([s g] & _ & H).
  apply assert_bind_Done in H as [_ H].
  apply bind_Done in H as (q & _ & H).
  apply bind_Done in H as (ws & _ & H). injection H as <- _. done.
Qed.

Lemma get_storage f r r' res ps :
  inv (storage_ r) ps -> get f r = Done (r', res) -> inv (storage_ r') ps.
Proof.
  destruct f as [b d | res0]; simpl.
  - apply sample__storage.
  - intros Hinv [= <- _]. done.
Qed.

Lemma sample_storage batchsize device r r' out ps :
  inv (storage_ r) ps -> sample batchsize device r = Done (r', out) ->
  inv (storage_ r') ps.
Proof.
  intros Hinv. unfold sample.
  destruct (sampled_ids_ r); [| discriminate].
  destruct (prefetch_ r =? 0).
  - intros H. apply bind_Done in H as ([r1 [[batch priority] ids]] & H1 & H).
    injection H as <- _. simpl. eapply sample__storage; eauto.
  - intros H. apply bind_Done in H as ([r1 [[batch priority] ids]] & H1 & H).
    injection H as <- _. simpl.
    destruct (futures_ r) as [| f rest].
    + eapply sample__storage; eauto.
    + eapply get_storage; [| apply H1]. done.
Qed.

Lemma drain_loop_counters n cur q samples weight_acc last_query :
  same_counters q (drain_loop n cur q samples weight_acc last_query).1.1.1.
Proof.
  revert cur q samples weight_acc last_query.
  induction n as [| n IH]; intros cur q samples weight_acc last_query; simpl.
  - apply same_counters_refl.
  - eapply same_counters_trans; [| apply IH].
    repeat split; simpl; by rewrite ?vset_length.
Qed.

Lemma get_new_content_storage r r' out ps :
  inv (storage_ r) ps -> get_new_content r = Done (r', out) -> inv (storage_ r') ps.
Proof.
  intros Hinv. unfold get_new_content. intros H.
  apply bind_Done in H as (weights & Hones & H).
  unfold ones in Hones. destruct (num_add_ r - last_query_ r <? 0) eqn:Hneg; [discriminate |].
  destruct (num_add_ r - last_query_ r =? 0).
  - by injection H as <- _.
  - pose proof (drain_loop_counters (Z.to_nat (num_add_ r - last_query_ r)) 0
                  (storage_ r) [] weights (last_query_ r)) as Hc.
    destruct (drain_loop _ _ _ _ _ _) as [[[q samples] weight_acc] last_query].
    simpl in Hc.
    apply bind_Done in H as (q' & Hpop & H). injection H as <- _. simpl.
    eapply inv_pop; [| | apply Hpop]; [lia |].
    eapply inv_same_counters; eauto.
Qed.

Lemma producers_app (a b : list rstage) : producers (a ++ b) = producers a ++ producers b.
Proof. apply omap_app. Qed.

(** What a call of [update_priority] that returns has done. *)
Lemma update_priority_Done priority r r' :
  update_priority priority r = Done r' ->
  dim priority = 1 /\ size0 priority = Z.of_nat (length (sampled_ids_ r)) /\
  r' = set_sampled_ids
         (set_storage r
            (update_weights (sampled_ids_ r)
               ((fun p => torch_pow p (alpha_ r)) <$> values priority) (storage_ r)))
         [].
Proof.
  unfold update_priority. intros H.
  apply assert_bind_Done in H as [Hdim H]. apply assert_bind_Done in H as [Hlen H].
  apply bind_Done in H as (q' & Hup & [= <-]).
  apply update_Done in Hup as [_ ->].
  apply Z.eqb_eq in Hdim, Hlen. done.
Qed.

Lemma rstep_inv s s' :
  rstep s s' -> inv (storage_ s.1) (producers s.2) -> inv (storage_ s'.1) (producers s'.2).
Proof.
  intros Hstep. destruct Hstep; simpl; intros Hinv.
  - rewrite producers_app. simpl. eapply inv_reserve; eauto.
  - rewrite producers_app in *. simpl in *.
    apply inv_set_stage. eapply inv_same_counters; [| done].
    eapply append_fill_counters; eauto.
  - rewrite producers_app in *. simpl in *. eapply inv_commit; eauto.
  - rewrite producers_app in *. simpl in *. done.
  - eapply sample_storage; eauto.
  - eapply sample__storage; eauto.
  - apply update_priority_Done in H as (_ & _ & ->). simpl.
    eapply inv_same_counters; [apply update_counters | done].
  - done.
  - eapply get_new_content_storage; eauto.
Qed.

End Replay_accounting.

(** ** [update] *)

Section Update_proofs.
Context `{E : External}.
Import ConcurrentQueue Described.

Lemma with_weights_id q : with_weights q (weights_ q) = q.
Proof. by destruct q. Qed.

Lemma vget_app_r {A : Type} (d : A) (pre l : list A) (k : nat) :
  vget d (pre ++ l) (Z.of_nat (length pre + k)) = default d (l !! k).
Proof.
  unfold vget. destruct (Z.ltb_spec (Z.of_nat (length pre + k)) 0) as [Hneg |_]; [lia |].
  rewrite Nat2Z.id, lookup_app_r by lia. do 2 f_equal. lia.
Qed.

Lemma update_loop_spec ids : forall pre ws q diff,
  length ws = length ids ->
  update_loop (Z.of_nat (length pre)) ids (pre ++ ws) q diff
  = (with_weights q (apply_updates (weights_ q) (live_updates q ids ws)),
     total_diff (weights_ q) (live_updates q ids ws) diff).
Proof.
  induction ids as [| id ids IH]; intros pre ws q diff Hlen.
  - destruct ws; [| done]. simpl. by rewrite with_weights_id.
  - destruct ws as [| w ws]; [done |]. injection Hlen as Hlen.
    cbn [update_loop].
    pose proof (vget_app_r fzero pre (w :: ws) 0) as Hw.
    rewrite Nat.add_0_r in Hw. simpl in Hw. rewrite Hw. clear Hw.
    replace (Z.of_nat (length pre) + 1) with (Z.of_nat (length (pre ++ [w])))
      by (rewrite length_app; simpl; lia).
    replace (pre ++ w :: ws) with ((pre ++ [w]) ++ ws) by (by rewrite <- app_assoc).
    unfold live_updates. simpl zip. rewrite filter_cons. simpl.
    destruct (vget false (evicted_ q) id) eqn:Hev.
    + rewrite decide_False by done. rewrite IH by done. done.
    + rewrite decide_True by done. rewrite IH by done. done.
Qed.

Lemma apply_updates_length ups : forall ws, length (apply_updates ws ups) = length ws.
Proof.
  induction ups as [| p ups IH]; intros ws; [done |].
  unfold apply_updates in *. simpl. by rewrite IH, vset_length.
Qed.

Lemma apply_updates_other ups j : forall ws,
  Forall (fun p => p.1 <> j) ups ->
  vget fzero (apply_updates ws ups) j = vget fzero ws j.
Proof.
  induction ups as [| p ups IH]; intros ws Hall; [done |].
  apply Forall_cons in Hall as [Hp Hall].
  unfold apply_updates in *. simpl. rewrite IH by done. by apply vget_vset_ne.
Qed.

Lemma apply_updates_last u1 j w u2 ws :
  0 <= j < Z.of_nat (length ws) ->
  Forall (fun p => p.1 <> j) u2 ->
  vget fzero (apply_updates ws (u1 ++ (j, w) :: u2)) j = w.
Proof.
  intros Hj Hu2. unfold apply_updates. rewrite foldl_app. simpl.
  fold (apply_updates ws u1).
  fold (apply_updates (vset (apply_updates ws u1) j w) u2).
  rewrite apply_updates_other by done.
  apply vget_vset_eq. by rewrite apply_updates_length.
Qed.

Lemma total_diff_ext ups : forall ws1 ws2 diff,
  Forall (fun p => vget fzero ws1 p.1 = vget fzero ws2 p.1) ups ->
  length ws1 = length ws2 ->
  total_diff ws1 ups diff = total_diff ws2 ups diff.
Proof.
  induction ups as [| [id w] ups IH]; intros ws1 ws2 diff Hall Hlen; [done |].
  apply Forall_cons in Hall as [Hp Hall]. simpl in *. rewrite Hp.
  apply IH; [| by rewrite !vset_length].
  eapply Forall_impl; [apply Hall |]. intros [id' w'] Heq. simpl in *.
  destruct (decide (id = id')) as [<- | Hne].
  - destruct (decide (0 <= id < Z.of_nat (length ws1))) as [Hin | Hout].
    + rewrite !vget_vset_eq; [done | lia | lia].
    + unfold vget, vset in *. destruct (id <? 0) eqn:Hneg; [done |].
      rewrite !list_insert_ge by lia. done.
  - by rewrite !vget_vset_ne.
Qed.

Lemma total_diff_nodup ups : forall ws diff,
  NoDup ups.*1 ->
  total_diff ws ups diff
  = foldl (fun d p => dadd d (double_of_float (fsub p.2 (vget fzero ws p.1)))) diff ups.
Proof.
  induction ups as [| [id w] ups IH]; intros ws diff Hnd; [done |].
  simpl in *. apply NoDup_cons in Hnd as [Hnotin Hnd].
  rewrite <- IH by done. apply total_diff_ext; [| apply vset_length].
  apply Forall_forall. intros [id' w'] Hin. simpl.
  apply vget_vset_ne. intros ->. apply Hnotin.
  apply list_elem_of_fmap. by exists (id', w').
Qed.

Lemma live_updates_ids q ids ws : (live_updates q ids ws).*1 `sublist_of` ids.
Proof.
  unfold live_updates.
  revert ws. induction ids as [| id ids IH]; intros [| w ws]; simpl;
    try done; try apply sublist_nil_l.
  rewrite filter_cons. destruct (decide _); simpl.
  - by apply sublist_skip.
  - by apply sublist_cons.
Qed.

Lemma live_updates_not_evicted q ids ws :
  Forall (fun p => vget false (evicted_ q) p.1 = false) (live_updates q ids ws).
Proof. apply Forall_forall. intros p Hp. by apply list_elem_of_filter in Hp as [? _]. Qed.

Lemma live_updates_all_evicted q ids ws :
  Forall (fun j => vget false (evicted_ q) j = true) ids -> live_updates q ids ws = [].
Proof.
  intros Hall. unfold live_updates.
  revert ws. induction ids as [| id ids IH]; intros [| w ws]; simpl; try done.
  apply Forall_cons in Hall as [Hid Hall].
  rewrite filter_cons. simpl. rewrite decide_False by congruence. by apply IH.
Qed.

Lemma dadd_zero_r (x : double) : x <> S754_zero true -> dadd x dzero = x.
Proof. destruct x as [[] | | |]; simpl; try done. Qed.

End Update_proofs.

(** ** The scan of [sample_] *)

Section Scan_proofs.
Context `{E : External}.
Import ConcurrentQueue PrioritizedReplay Described Accounting Scanning.

Lemma crossed_zero rand : crossed dzero rand = false.
Proof. done. Qed.

Lemma first_crossing_Some q rand rem : forall k k',
  first_crossing q rand rem k = Some k' ->
  (k <= k' <= k + rem)%nat /\
  crossed (prefix q k') rand = true /\
  (forall k'', (k <= k'' < k')%nat -> crossed (prefix q k'') rand = false).
Proof.
  induction rem as [| rem IH]; intros k k'; simpl.
  - destruct (crossed (prefix q k) rand) eqn:Hc; [| done].
    intros [= <-]. repeat split; [lia | lia | done | intros; lia].
  - destruct (crossed (prefix q k) rand) eqn:Hc.
    + intros [= <-]. repeat split; [lia | lia | done | intros; lia].
    + intros H. apply IH in H as (Hk & Hcross & Hfirst).
      repeat split; [lia | lia | done |].
      intros k'' Hk''. destruct (decide (k'' = k)) as [-> | Hne]; [done |].
      apply Hfirst. lia.
Qed.

Lemma first_crossing_None q rand rem : forall k,
  first_crossing q rand rem k = None ->
  forall k', (k <= k' <= k + rem)%nat -> crossed (prefix q k') rand = false.
Proof.
  induction rem as [| rem IH]; intros k; simpl.
  - destruct (crossed (prefix q k) rand) eqn:Hc; [done |].
    intros _ k' Hk'. by replace k' with k by lia.
  - destruct (crossed (prefix q k) rand) eqn:Hc; [done |].
    intros H k' Hk'. destruct (decide (k' = k)) as [-> | Hne]; [done |].
    apply (IH _ H). lia.
Qed.

Lemma first_crossing_positive q rand rem k k' :
  first_crossing q rand rem k = Some k' -> (1 <= k')%nat.
Proof.
  intros H. apply first_crossing_Some in H as (_ & Hc & _).
  destruct k'; [| lia]. by rewrite crossed_zero in Hc.
Qed.

Lemma slot_id_store q s k :
  same_counters q (store s) ->
  Z.rem (head_ (store s) + Z.of_nat k) (capacity (store s)) = slot_id q k.
Proof. intros (Hc & Hh & _). unfold slot_id. by rewrite Hc, Hh. Qed.

Lemma advance_inv q s k : scan_inv q s k -> scan_inv q (advance s) (S k).
Proof.
  intros (Hc & Hw & He & Hn & Ha & Hlast).
  unfold advance, get_weight. rewrite Hn, (slot_id_store q s k Hc), Hw.
  unfold scan_inv. simpl. split_and!; try done.
  - lia.
  - by rewrite Ha.
  - by intros k0 [= <-].
Qed.

Lemma advance_fields s :
  samples (advance s) = samples s /\ weight_acc (advance s) = weight_acc s /\
  ids (advance s) = ids s /\ store (advance s) = store s.
Proof. done. Qed.

(** The inner loop stops at the first crossing, or aborts when there is
    none up to [size]. *)
Lemma scan_while_spec q rand i rem : forall s k,
  scan_inv q s k ->
  match first_crossing q rand rem k with
  | Some k' =>
      exists s1, scan_inv q s1 k' /\ samples s1 = samples s /\
                 weight_acc s1 = weight_acc s /\ ids s1 = ids s /\
                 store s1 = store s /\
                 scan_while rem rand i s = take i s1
  | None => scan_while rem rand i s = Fatal
  end.
Proof.
  induction rem as [| rem IH]; intros s k Hinv; simpl.
  - destruct Hinv as (Hc & Hw & He & Hn & Ha & Hlast). rewrite Ha.
    destruct (crossed (prefix q k) rand) eqn:Hcr; [| done].
    exists s. by split_and!.
  - pose proof Hinv as (Hc & Hw & He & Hn & Ha & Hlast). rewrite Ha.
    destruct (crossed (prefix q k) rand) eqn:Hcr.
    + exists s. by split_and!.
    + specialize (IH (advance s) (S k) (advance_inv q s k Hinv)).
      destruct (first_crossing q rand rem (S k)) as [k' |]; [| done].
      destruct IH as (s1 & H1 & H2 & H3 & H4 & H5 & H6).
      exists s1. by split_and!.
Qed.

(** Taking the slot under the cursor. *)
Lemma take_spec q i s k :
  scan_inv q s (S k) ->
  exists s', take i s = Done s' /\ scan_inv q s' (S k) /\
             samples s' = samples s ++ [slot_element q k] /\
             weight_acc s' = vset (weight_acc s) i (slot_weight q k) /\
             ids s' = vset (ids s) i (slot_id q k).
Proof.
  intros (Hc & Hw & He & Hn & Ha & Hlast).
  destruct (Hlast k eq_refl) as [Hws Hids].
  unfold take. rewrite Hn.
  destruct (Z.leb_spec 1 (Z.of_nat (S k))) as [_ | Hlt]; [| lia]. simpl.
  unfold get_element_and_mark.
  replace (Z.of_nat (S k) - 1) with (Z.of_nat k) by lia.
  rewrite (slot_id_store q s k Hc), He.
  eexists. split; [done |]. simpl.
  rewrite Hws, Hids. unfold scan_inv. simpl. split_and!; try done.
  - destruct Hc as (?&?&?&?&?&?&?&?&?).
    repeat split; simpl; by rewrite ?vset_length.
  - intros k0 [= <-]. done.
Qed.

Lemma rng_after_S segment j : forall g,
  rng_after segment (S j) g = (uniform_real fzero segment (rng_after segment j g)).2.
Proof. induction j as [| j IH]; intros g; [done |]. simpl in *. by rewrite IH. Qed.

Lemma draw_spec sum segment g0 (i : nat) :
  draw sum segment (Z.of_nat i) (rng_after segment i g0)
  = (stratified_draw sum segment g0 i, rng_after segment (S i) g0).
Proof.
  unfold draw, stratified_draw, uniform_draw. rewrite rng_after_S.
  by destruct (uniform_real fzero segment (rng_after segment i g0)).
Qed.

Lemma last_cursor_cons k k' ks : last_cursor k (k' :: ks) = last_cursor k' ks.
Proof. unfold last_cursor. rewrite last_cons. by destruct (last ks). Qed.

(** The outer loop follows [cursors], or aborts where [cursors] finds no
    crossing. *)
Lemma scan_for_spec q size sum segment g0 n : forall (i : nat) s k,
  scan_inv q s k -> (k <= size)%nat ->
  match cursors q size sum segment g0 n i k with
  | Some ks =>
      exists s',
        scan_for n (Z.of_nat size) sum segment (Z.of_nat i) (rng_after segment i g0) s
        = Done (s', rng_after segment (i + n) g0) /\
        scan_inv q s' (last_cursor k ks) /\
        samples s' = samples s ++ ((fun k => slot_element q (pred k)) <$> ks) /\
        weight_acc s'
        = writes (weight_acc s) (Z.of_nat i) ((fun k => slot_weight q (pred k)) <$> ks) /\
        ids s' = writes (ids s) (Z.of_nat i) ((fun k => slot_id q (pred k)) <$> ks)
  | None =>
      scan_for n (Z.of_nat size) sum segment (Z.of_nat i) (rng_after segment i g0) s
      = Fatal
  end.
Proof.
  induction n as [| n IH]; intros i s k Hinv Hk.
  - simpl. exists s. rewrite Nat.add_0_r, app_nil_r. by split_and!.
  - cbn [cursors scan_for]. rewrite draw_spec.
    pose proof Hinv as (_ & _ & _ & Hn & _).
    rewrite Hn. destruct (Z.leb_spec (Z.of_nat k) (Z.of_nat size)) as [_ | Hlt]; [| lia].
    replace (Z.to_nat (Z.of_nat size - Z.of_nat k)) with (size - k)%nat by lia.
    pose proof (scan_while_spec q (stratified_draw sum segment g0 i) (Z.of_nat i)
                  (size - k) s k Hinv) as Hwhile.
    destruct (first_crossing q (stratified_draw sum segment g0 i) (size - k) k)
      as [k' |] eqn:Hfc; simpl; [| by rewrite Hwhile].
    destruct Hwhile as (s1 & Hinv1 & Hs1 & Hw1 & Hi1 & _ & ->).
    pose proof (first_crossing_positive _ _ _ _ _ Hfc) as Hpos.
    apply first_crossing_Some in Hfc as (Hrange & _).
    destruct k' as [| k0]; [lia |].
    destruct (take_spec q (Z.of_nat i) s1 k0 Hinv1) as (s2 & -> & Hinv2 & Hs2 & Hw2 & Hi2).
    simpl. replace (Z.of_nat i + 1) with (Z.of_nat (S i)) by lia.
    specialize (IH (S i) s2 (S k0) Hinv2 ltac:(lia)).
    destruct (cursors q size sum segment g0 n (S i) (S k0)) as [ks |]; simpl; [| done].
    destruct IH as (s' & Hrun & Hinv' & Hs' & Hw' & Hi').
    exists s'. rewrite last_cursor_cons.
    replace (i + S n)%nat with (S i + n)%nat by lia.
    split_and!; try done.
    + rewrite Hs', Hs2, Hs1, <- app_assoc. done.
    + rewrite Hw', Hw2, Hw1. simpl. by replace (Z.of_nat i + 1) with (Z.of_nat (S i)) by lia.
    + rewrite Hi', Hi2, Hi1. simpl. by replace (Z.of_nat i + 1) with (Z.of_nat (S i)) by lia.
Qed.

(** What [cursors] returns: one cursor per draw, each the first crossing
    of its draw at or after the cursor of the draw before. *)
Lemma cursors_spec q size sum segment g0 n : forall (i k : nat) ks,
  (k <= size)%nat ->
  cursors q size sum segment g0 n i k = Some ks ->
  length ks = n /\
  forall (j : nat) kj, ks !! j = Some kj ->
    let prev := match j with O => k | S j' => default k (ks !! j') end in
    let rand := stratified_draw sum segment g0 (i + j) in
    (prev <= kj <= size)%nat /\ (1 <= kj)%nat /\
    crossed (prefix q kj) rand = true /\
    (forall k', (prev <= k' < kj)%nat -> crossed (prefix q k') rand = false).
Proof.
  induction n as [| n IH]; intros i k ks Hk; simpl.
  - intros [= <-]. split; [done |]. intros j kj Hj. done.
  - intros H. apply bind_Some in H as (k' & Hfc & H).
    apply bind_Some in H as (ks' & Hrest & [= <-]).
    pose proof (first_crossing_positive _ _ _ _ _ Hfc) as Hpos.
    apply first_crossing_Some in Hfc as (Hrange & Hcross & Hfirst).
    apply IH in Hrest as [Hlen Hks']; [| lia].
    split; [simpl; lia |].
    intros [| j] kj Hj; simpl in Hj.
    + injection Hj as <-. rewrite Nat.add_0_r. split_and!; [lia | lia | lia | done | done].
    + replace (i + S j)%nat with (S i + j)%nat by lia.
      specialize (Hks' j kj Hj). destruct j as [| j]; simpl in *; [done |].
      destruct (ks' !! j) eqn:Hprev; [done |].
      apply lookup_lt_Some in Hj. apply lookup_ge_None in Hprev. lia.
Qed.

Lemma cursors_None q size sum segment g0 n : forall (i k : nat),
  (k <= size)%nat ->
  cursors q size sum segment g0 n i k = None ->
  exists (j prev : nat), (j < n)%nat /\ (k <= prev <= size)%nat /\
    forall k', (prev <= k' <= size)%nat ->
      crossed (prefix q k') (stratified_draw sum segment g0 (i + j)) = false.
Proof.
  induction n as [| n IH]; intros i k Hk; simpl; [done |].
  destruct (first_crossing q (stratified_draw sum segment g0 i) (size - k) k)
    as [k' |] eqn:Hfc; simpl.
  - destruct (cursors q size sum segment g0 n (S i) k') as [ks |] eqn:Hrest; [done |].
    intros _. apply first_crossing_Some in Hfc as (Hrange & _).
    apply IH in Hrest as (j & prev & Hj & Hprev & Hnone); [| lia].
    exists (S j), prev. split_and!; [lia | lia | lia |].
    by replace (i + S j)%nat with (S i + j)%nat by lia.
  - intros _. exists 0%nat, k. rewrite Nat.add_0_r. split_and!; [lia | lia | lia |].
    intros k' Hk'. apply (first_crossing_None _ _ _ _ Hfc). lia.
Qed.

End Scan_proofs.

(** ** [sample_] as a whole *)

Section Sample_proofs.
Context `{E : External}.
Import ConcurrentQueue PrioritizedReplay Described Accounting Scanning.

Lemma writes_replicate {A : Type} (d : A) (xs : list A) : forall pre,
  writes (pre ++ replicate (length xs) d) (Z.of_nat (length pre)) xs = pre ++ xs.
Proof.
  induction xs as [| x xs IH]; intros pre; simpl.
  - done.
  - unfold vset. destruct (Z.ltb_spec (Z.of_nat (length pre)) 0) as [Hneg | _]; [lia |].
    rewrite Nat2Z.id, insert_app_r_alt, Nat.sub_diag by lia. simpl.
    replace (Z.of_nat (length pre) + 1) with (Z.of_nat (length (pre ++ [x])))
      by (rewrite length_app; simpl; lia).
    replace (pre ++ x :: replicate (length xs) d)
      with ((pre ++ [x]) ++ replicate (length xs) d) by (by rewrite <- app_assoc).
    rewrite IH, <- app_assoc. done.
Qed.

Lemma scan_for_skipped n size sum segment : forall i g s,
  size < next_idx s ->
  exists g', scan_for n size sum segment i g s = Done (s, g').
Proof.
  induction n as [| n IH]; intros i g s Hlt; simpl.
  - by eexists.
  - destruct (draw sum segment i g) as [rand g1].
    destruct (Z.leb_spec (next_idx s) size) as [Hle | _]; [lia |]. simpl.
    by apply IH.
Qed.

Lemma scan_start_inv batchsize weights r :
  scan_inv (storage_ r) (scan_start batchsize weights r) 0.
Proof. unfold scan_inv. simpl. by split_and!. Qed.

(** What a call of [sample_] that returns has done. *)
Lemma sample__spec batchsize device r r' batch weights ids :
  sample_ batchsize device r = Done (r', (batch, weights, ids)) ->
  let q := storage_ r in
  let sum := float_of_double (sum_ q) in
  let segment := fdiv sum (float_of_int batchsize) in
  0 < batchsize /\ 0 <= safe_size_ q /\
  exists ks qs,
    cursors q (Z.to_nat (safe_size_ q)) sum segment (rng_ r) (Z.to_nat batchsize) 0 0
    = Some ks /\
    ids = (fun k => slot_id q (pred k)) <$> ks /\
    batch = pack ((fun k => slot_element q (pred k)) <$> ks) /\
    dim weights = 1 /\
    importance (size_ q) sum (beta_ r) ((fun k => slot_weight q (pred k)) <$> ks)
    = Done (values weights) /\
    same_counters q qs /\ weights_ qs = weights_ q /\ elements_ qs = elements_ q /\
    (if size_ q >? capacity_ r
     then block_pop (size_ q - capacity_ r) qs = Done (storage_ r')
     else storage_ r' = qs) /\
    r' = set_rng (set_storage r (storage_ r')) (rng_after segment (Z.to_nat batchsize) (rng_ r)).
Proof.
  intros H q sum segment. unfold sample_ in H. simpl in H.
  fold q in H. fold sum in H. fold segment in H.
  apply bind_Done in H as (zs & Hzeros & H).
  unfold zeros in Hzeros.
  destruct (Z.ltb_spec batchsize 0) as [Hneg | Hb]; [discriminate |].
  injection Hzeros as <-.
  set (s0 := scan_start batchsize (replicate (Z.to_nat batchsize) fzero) r).
  apply bind_Done in H as ([s g] & Hscan & H).
  change (scan_for (Z.to_nat batchsize) (safe_size_ q) sum segment 0 (rng_ r) s0
          = Done (s, g)) in Hscan.
  apply assert_bind_Done in H as [Hlen H].
  apply bind_Done in H as (q' & Hpop & H).
  apply bind_Done in H as (ws & Himp & H).
  injection H as <- <- <- <-.
  destruct (decide (safe_size_ q < 0)) as [Hsize | Hsize].
  { (* an empty scan cannot fill the batch *)
    exfalso.
    destruct (scan_for_skipped (Z.to_nat batchsize) (safe_size_ q) sum segment 0
                (rng_ r) s0 Hsize) as (g' & Hskip).
    rewrite Hskip in Hscan. injection Hscan as <- <-.
    apply Z.eqb_eq in Hlen. simpl in Hlen.
    unfold s0, scan_start in Himp. simpl in Himp. rewrite <- Hlen in Himp.
    discriminate Himp. }
  pose proof (scan_for_spec q (Z.to_nat (safe_size_ q)) sum segment (rng_ r)
                (Z.to_nat batchsize) 0 s0 0 (scan_start_inv _ _ r) ltac:(lia)) as Hspec.
  rewrite Z2Nat.id in Hspec by lia. simpl rng_after in Hspec.
  change (Z.of_nat 0) with 0 in Hspec.
  destruct (cursors q (Z.to_nat (safe_size_ q)) sum segment (rng_ r)
              (Z.to_nat batchsize) 0 0) as [ks |] eqn:Hks;
    [| rewrite Hspec in Hscan; discriminate].
  destruct Hspec as (s' & Hrun & Hinv & Hs & Hw & Hi).
  rewrite Hrun in Hscan. injection Hscan as <- <-.
  apply cursors_spec in Hks as Hcs; [| lia]. destruct Hcs as [Hklen _].
  assert (weight_acc s' = (fun k => slot_weight q (pred k)) <$> ks) as Hwacc.
  { rewrite Hw. simpl.
    pose proof (writes_replicate fzero ((fun k => slot_weight q (pred k)) <$> ks) []) as Hwr.
    rewrite length_fmap, Hklen in Hwr. done. }
  assert (PrioritizedReplay.ids s' = (fun k => slot_id q (pred k)) <$> ks) as Hids.
  { rewrite Hi. simpl.
    pose proof (writes_replicate 0 ((fun k => slot_id q (pred k)) <$> ks) []) as Hwr.
    rewrite length_fmap, Hklen in Hwr. done. }
  destruct Hinv as (Hc & Hws & Hes & _).
  assert (ConcurrentQueue.size (store s') = size_ q) as Hsz by apply Hc.
  rewrite Hsz in Hpop, Himp. rewrite Hwacc in Himp.
  assert (0 < batchsize) as Hbpos.
  { destruct (decide (batchsize = 0)) as [-> | Hne]; [| lia].
    destruct ks; [| done]. discriminate Himp. }
  split; [done |]. split; [lia |].
  exists ks, (store s'). split_and!; try done.
  - by rewrite Hs.
  - destruct (size_ q >? capacity_ r); [done |]. by injection Hpop as <-.
Qed.

End Sample_proofs.

(** ** When [sample_] returns *)

Section Sample_returns.
Context `{E : External}.
Import ConcurrentQueue PrioritizedReplay Described Accounting Scanning.

Lemma first_crossing_found q rand rem k k0 :
  (k <= k0 <= k + rem)%nat ->
  crossed (prefix q k0) rand = true ->
  (forall k', (k <= k' < k0)%nat -> crossed (prefix q k') rand = false) ->
  first_crossing q rand rem k = Some k0.
Proof.
  intros Hk Hc Hfirst.
  destruct (first_crossing q rand rem k) as [k1 |] eqn:Hfc.
  - apply first_crossing_Some in Hfc as (Hk1 & Hc1 & Hfirst1).
    f_equal. destruct (Nat.lt_trichotomy k1 k0) as [Hlt | [-> | Hgt]]; [| done |].
    + rewrite Hfirst in Hc1 by lia. done.
    + rewrite Hfirst1 in Hc by lia. done.
  - rewrite (first_crossing_None _ _ _ _ Hfc k0) in Hc by lia. done.
Qed.

(** When no draw is positive, every draw stops at the first positive
    prefix sum. *)
Lemma cursors_nonpos q size sum segment g0 k0 :
  (forall i, dleb (double_of_float (stratified_draw sum segment g0 i)) dzero = true) ->
  (k0 <= size)%nat ->
  dltb dzero (prefix q k0) = true ->
  (forall k', (k' < k0)%nat -> dltb dzero (prefix q k') = false) ->
  forall n i k, (k <= k0)%nat ->
    cursors q size sum segment g0 n i k = Some (replicate n k0).
Proof.
  intros Hdraw Hsize Hpos Hfirst.
  induction n as [| n IH]; intros i k Hk; simpl; [done |].
  rewrite (first_crossing_found _ _ _ _ k0).
  - simpl. by rewrite IH.
  - lia.
  - by rewrite crossed_nonpos.
  - intros k' Hk'. rewrite crossed_nonpos by done. apply Hfirst. lia.
Qed.

(** In a state of the accounting invariant, [sample_] returns when every
    draw finds its crossing among the committed slots and the overflow
    does not exceed the committed slots. *)
Lemma sample__returns batchsize device r ps ks :
  let q := storage_ r in
  let sum := float_of_double (sum_ q) in
  let segment := fdiv sum (float_of_int batchsize) in
  inv q ps -> 0 < batchsize ->
  cursors q (Z.to_nat (safe_size_ q)) sum segment (rng_ r) (Z.to_nat batchsize) 0 0
  = Some ks ->
  size_ q - capacity_ r <= safe_size_ q ->
  exists r' weights,
    sample_ batchsize device r
    = Done (r', (pack ((fun k => slot_element q (pred k)) <$> ks), weights,
                 (fun k => slot_id q (pred k)) <$> ks)).
Proof.
  intros q sum segment Hinv Hb Hks Hfit.
  pose proof (inv_safe_size _ _ Hinv) as Hsafe. fold q in Hsafe.
  unfold sample_. simpl. fold q. fold sum. fold segment.
  unfold zeros. destruct (Z.ltb_spec batchsize 0) as [Hneg | _]; [lia |]. simpl.
  set (s0 := scan_start batchsize (replicate (Z.to_nat batchsize) fzero) r).
  change (mkScan dzero 0 fzero 0 [] (replicate (Z.to_nat batchsize) fzero)
            (replicate (Z.to_nat batchsize) 0) q) with s0.
  pose proof (scan_for_spec q (Z.to_nat (safe_size_ q)) sum segment (rng_ r)
                (Z.to_nat batchsize) 0 s0 0 (scan_start_inv _ _ r) ltac:(lia)) as Hspec.
  rewrite Z2Nat.id in Hspec by lia. simpl rng_after in Hspec.
  change (Z.of_nat 0) with 0 in Hspec. fold q in Hspec. rewrite Hks in Hspec.
  destruct Hspec as (s' & Hrun & Hsinv & Hs & Hw & Hi).
  rewrite Hrun. simpl.
  apply cursors_spec in Hks as [Hlen _]; [| lia].
  assert ((Z.of_nat (length (samples s')) =? batchsize) = true) as ->.
  { apply Z.eqb_eq. rewrite Hs. simpl. rewrite length_fmap, Hlen. lia. }
  simpl.
  destruct Hsinv as (Hc & _).
  pose proof Hc as (_ & _ & _ & Hsz & _ & Hss & _).
  pose proof (inv_same_counters _ _ _ Hc Hinv) as Hinv'.
  unfold ConcurrentQueue.size. rewrite Hsz.
  assert (exists q', (if size_ q >? capacity_ r
                      then block_pop (size_ q - capacity_ r) (store s')
                      else Done (store s')) = Done q') as [q' ->].
  { destruct (Z.gtb_spec (size_ q) (capacity_ r)) as [Hgt | Hle]; [| by eexists].
    apply (block_pop_Done _ ps); [done | lia]. }
  simpl.
  assert (weight_acc s' = (fun k => slot_weight q (pred k)) <$> ks) as ->.
  { rewrite Hw. simpl.
    pose proof (writes_replicate fzero ((fun k => slot_weight q (pred k)) <$> ks) []) as Hwr.
    rewrite length_fmap, Hlen in Hwr. done. }
  assert (PrioritizedReplay.ids s' = (fun k => slot_id q (pred k)) <$> ks) as ->.
  { rewrite Hi. simpl.
    pose proof (writes_replicate 0 ((fun k => slot_id q (pred k)) <$> ks) []) as Hwr.
    rewrite length_fmap, Hlen in Hwr. done. }
  rewrite Hs. simpl.
  destruct ks as [| k0 ks]; [simpl in Hlen; lia |].
  unfold importance. simpl. by eexists _, _.
Qed.

(** [sample_] aborts when some draw finds no crossing among the committed
    slots. *)
Lemma sample__aborts batchsize device r :
  let q := storage_ r in
  let sum := float_of_double (sum_ q) in
  let segment := fdiv sum (float_of_int batchsize) in
  0 <= batchsize -> 0 <= safe_size_ q ->
  cursors q (Z.to_nat (safe_size_ q)) sum segment (rng_ r) (Z.to_nat batchsize) 0 0
  = None ->
  sample_ batchsize device r = Fatal.
Proof.
  intros q sum segment Hb Hsafe Hks.
  unfold sample_. simpl. fold q. fold sum. fold segment.
  unfold zeros. destruct (Z.ltb_spec batchsize 0) as [Hneg | _]; [lia |]. simpl.
  set (s0 := scan_start batchsize (replicate (Z.to_nat batchsize) fzero) r).
  change (mkScan dzero 0 fzero 0 [] (replicate (Z.to_nat batchsize) fzero)
            (replicate (Z.to_nat batchsize) 0) q) with s0.
  pose proof (scan_for_spec q (Z.to_nat (safe_size_ q)) sum segment (rng_ r)
                (Z.to_nat batchsize) 0 s0 0 (scan_start_inv _ _ r) ltac:(lia)) as Hspec.
  rewrite Z2Nat.id in Hspec by lia. simpl rng_after in Hspec.
  change (Z.of_nat 0) with 0 in Hspec. fold q in Hspec. rewrite Hks in Hspec.
  by rewrite Hspec.
Qed.

(** The first index at which a test holds, below one at which it holds. *)
Lemma first_true (P : nat -> bool) (n : nat) :
  P n = true ->
  exists k0, (k0 <= n)%nat /\ P k0 = true /\ forall k', (k' < k0)%nat -> P k' = false.
Proof.
  assert (forall m,
            (forall k', (k' < m)%nat -> P k' = false) \/
            exists k0, (k0 < m)%nat /\ P k0 = true /\
                       forall k', (k' < k0)%nat -> P k' = false) as Hsearch.
  { induction m as [| m [Hnone | (k0 & Hk0 & HP0 & Hfirst)]].
    - left. intros k' Hk'. lia.
    - destruct (P m) eqn:HP.
      + right. exists m. split_and!; [lia | done | done].
      + left. intros k' Hk'. destruct (decide (k' = m)) as [-> | Hne]; [done |].
        apply Hnone. lia.
    - right. exists k0. split_and!; [lia | done | done]. }
  intros Hn. destruct (Hsearch n) as [Hnone | (k0 & Hk0 & HP0 & Hfirst)].
  - exists n. split_and!; [lia | done | done].
  - exists k0. split_and!; [lia | done | done].
Qed.

End Sample_returns.

(** ** Whole calls as paths of steps *)

Section Paths.
Context `{E : External}.
Import ConcurrentQueue PrioritizedReplay Interleaving Accounting.

Lemma block_append_path block weights q q' ps :
  block_append block weights q = Done q' -> rtc step (q, ps) (q', ps).
Proof.
  unfold block_append. intros H.
  apply bind_Done in H as ([q1 [start end_]] & Hreserve & H).
  apply bind_Done in H as ([q2 sum] & Hfill & Hcommit).
  eapply rtc_l; [eapply (step_reserve _ ps block weights); apply Hreserve |].
  eapply rtc_l.
  { eapply (step_fill _ ps _ []); [done | apply Hfill]. }
  eapply rtc_l; [| apply rtc_refl].
  pose proof (step_commit q2 ps
                (set_stage (mkProducer start end_ block weights Reserved) (Filled sum))
                [] q' sum eq_refl Hcommit) as Hstep.
  by rewrite app_nil_r in Hstep.
Qed.

Lemma add_path sample priority r r' l :
  add sample priority r = Done r' -> rtc rstep (r, l) (r', l).
Proof.
  unfold add. intros H.
  apply assert_bind_Done in H as [Hdim H]. apply assert_bind_Done in H as [Hlen H].
  apply Z.eqb_eq in Hdim, Hlen.
  apply bind_Done in H as (q' & Happend & [= <-]).
  unfold block_append in Happend.
  apply bind_Done in Happend as ([q1 [start end_]] & Hreserve & H).
  apply bind_Done in H as ([q2 sum] & Hfill & Hcommit).
  eapply rtc_l; [eapply (rstep_add_reserve r l sample priority); eauto |].
  eapply rtc_l.
  { eapply (rstep_add_fill _ l _ []); [done | apply Hfill]. }
  eapply rtc_l.
  { eapply (rstep_add_commit _ l _ []); [done | apply Hcommit]. }
  eapply rtc_l; [apply rstep_add_count |].
  rewrite app_nil_r. simpl. unfold size0. simpl. rewrite length_fmap.
  apply rtc_refl.
Qed.

Lemma rreachable_inv capacity seed alpha beta prefetch s :
  0 < capacity < 2 ^ 31 ->
  rreachable capacity seed alpha beta prefetch s ->
  inv (storage_ s.1) (producers s.2).
Proof.
  intros Hcap Hr. unfold rreachable in Hr. revert s Hr.
  apply (rtc_ind_r (fun s => inv (storage_ s.1) (producers s.2))).
  - simpl. apply inv_new. rewrite storage_capacity_floor by done.
    apply Z.div_str_pos. lia.
  - intros y z _ Hstep IH. eapply rstep_inv; eauto.
Qed.

End Paths.

(** ** What [block_pop] does to the store *)

Section Pop_proofs.
Context `{E : External}.
Import ConcurrentQueue Interleaving Accounting Described.

Lemma pop_loop_evicted n cap weights : forall evicted head diff,
  0 < cap -> 0 <= head < cap -> length evicted = Z.to_nat cap ->
  let evicted' := (pop_loop n cap weights evicted head diff).1.1 in
  (forall k : nat, (k < n)%nat -> vget false evicted' ((head + Z.of_nat k) mod cap) = true) /\
  (forall j, vget false evicted j = true -> vget false evicted' j = true) /\
  (forall j, (forall k : nat, (k < n)%nat -> j <> (head + Z.of_nat k) mod cap) ->
             vget false evicted' j = vget false evicted j).
Proof.
  induction n as [| n IH]; intros evicted head diff Hcap Hhead Hlen; simpl.
  - split_and!; [intros; lia | done | done].
  - rewrite rem_mod by lia.
    assert (0 <= (head + 1) mod cap < cap) as Hh1 by (apply Z.mod_pos_bound; lia).
    specialize (IH (vset evicted head true) ((head + 1) mod cap)
                  (dsub diff (double_of_float (vget fzero weights head))) Hcap Hh1).
    rewrite vset_length in IH. specialize (IH Hlen).
    destruct IH as (Hmarked & Hmono & Hother).
    assert (vget false (vset evicted head true) head = true) as Hnow
      by (apply vget_vset_eq; lia).
    split_and!.
    + intros [| k] Hk.
      * change (Z.of_nat 0) with 0.
        rewrite Z.add_0_r, (Z.mod_small head) by lia. by apply Hmono.
      * replace ((head + Z.of_nat (S k)) mod cap)
          with (((head + 1) mod cap + Z.of_nat k) mod cap)
          by (rewrite Zplus_mod_idemp_l; f_equal; lia).
        apply Hmarked. lia.
    + intros j Hj. apply Hmono.
      destruct (decide (j = head)) as [-> | Hne]; [done |].
      by rewrite vget_vset_ne.
    + intros j Hj. rewrite Hother.
      * apply vget_vset_ne. specialize (Hj 0%nat ltac:(lia)).
        change (Z.of_nat 0) with 0 in Hj.
        rewrite Z.add_0_r, (Z.mod_small head) in Hj by lia. done.
      * intros k Hk. specialize (Hj (S k) ltac:(lia)).
        replace (((head + 1) mod cap + Z.of_nat k) mod cap)
          with ((head + Z.of_nat (S k)) mod cap)
          by (rewrite Zplus_mod_idemp_l; f_equal; lia).
        done.
Qed.

(** [block_pop(n)] takes [n] slots from the head: the head moves on by
    [n], both sizes go down by [n], and these [n] slots are flagged. *)
Lemma block_pop_spec q ps n q' :
  inv q ps -> 0 <= n -> block_pop n q = Done q' ->
  size_ q' = size_ q - n /\ safe_size_ q' = safe_size_ q - n /\
  head_ q' = (head_ q + n) mod capacity q /\
  tail_ q' = tail_ q /\ safe_tail_ q' = safe_tail_ q /\ capacity q' = capacity q /\
  elements_ q' = elements_ q /\ weights_ q' = weights_ q /\
  (forall k : nat, Z.of_nat k < n -> vget false (evicted_ q') (slot_id q k) = true) /\
  (forall j, (forall k : nat, Z.of_nat k < n -> j <> slot_id q k) ->
             vget false (evicted_ q') j = vget false (evicted_ q) j).
Proof.
  intros Hinv Hn Hp.
  pose proof Hinv as [Hcap Hhead _ _ _ _ Hev _ _ _ _ _].
  unfold block_pop in Hp.
  pose proof (pop_loop_head (Z.to_nat n) (capacity q) (weights_ q) (evicted_ q)
                (head_ q) dzero Hcap Hhead) as Hh.
  pose proof (pop_loop_evicted (Z.to_nat n) (capacity q) (weights_ q) (evicted_ q)
                (head_ q) dzero Hcap Hhead Hev) as (Hmarked & _ & Hother).
  destruct (pop_loop _ _ _ _ _ _) as [[evicted head] diff]. simpl in Hh, Hmarked, Hother.
  apply assert_bind_Done in Hp as [_ Hp]. apply assert_bind_Done in Hp as [_ Hp].
  injection Hp as <-. simpl. rewrite Z2Nat.id in Hh by lia.
  assert (forall k : nat, slot_id q k = (head_ q + Z.of_nat k) mod capacity q) as Hslot
    by (intros k; unfold slot_id; apply rem_mod; lia).
  split_and!; try done.
  - intros k Hk. rewrite Hslot. apply Hmarked. lia.
  - intros j Hj. apply Hother. intros k Hk. rewrite <- Hslot. apply Hj. lia.
Qed.

End Pop_proofs.

(** ** The contents of the ring *)

Section Region_proofs.
Context `{E : External}.
Import ConcurrentQueue PrioritizedReplay Interleaving Accounting Described Draining.

Lemma mod_ne (cap a d : Z) : 0 < cap -> 0 < d < cap -> (a + d) mod cap <> a mod cap.
Proof.
  intros Hcap Hd Heq.
  assert (((a + d) mod cap - a mod cap) mod cap = d mod cap) as Hm.
  { rewrite <- Zminus_mod. f_equal. lia. }
  rewrite Heq, Z.sub_diag, Z.mod_0_l, Z.mod_small in Hm by lia. lia.
Qed.

Lemma rtc_step_inv s s' : rtc step s s' -> inv s.1 s.2 -> inv s'.1 s'.2.
Proof. induction 1 as [| s1 s2 s3 Hstep _ IH]; [done |]. intros H. apply IH. by eapply step_inv. Qed.

(** The copy loop writes the block to consecutive slots and leaves the
    other slots as they are. *)
Lemma fill_loop_spec start weight_acc block : forall (i0 : nat) q sum,
  0 < capacity q -> 0 <= start < capacity q ->
  Z.of_nat (i0 + length block) <= capacity q ->
  length (elements_ q) = Z.to_nat (capacity q) ->
  length (weights_ q) = Z.to_nat (capacity q) ->
  let q' := (fill_loop start (Z.of_nat i0) block weight_acc q sum).1 in
  (forall j,
      (forall i : nat, (i < length block)%nat ->
                       j <> (start + Z.of_nat (i0 + i)) mod capacity q) ->
      vget default_data (elements_ q') j = vget default_data (elements_ q) j /\
      vget fzero (weights_ q') j = vget fzero (weights_ q) j) /\
  (forall (i : nat) x, block !! i = Some x ->
      vget default_data (elements_ q') ((start + Z.of_nat (i0 + i)) mod capacity q) = x /\
      vget fzero (weights_ q') ((start + Z.of_nat (i0 + i)) mod capacity q)
      = vget fzero weight_acc (Z.of_nat (i0 + i))).
Proof.
  induction block as [| x block IH]; intros i0 q sum Hcap Hstart Hfit Hel Hwt; simpl.
  - split; [done |]. intros i y Hy. done.
  - simpl in Hfit. rewrite rem_mod by lia.
    set (j0 := (start + Z.of_nat i0) mod capacity q).
    assert (0 <= j0 < capacity q) as Hj0 by (apply Z.mod_pos_bound; lia).
    set (q1 := write_slot q j0 x (vget fzero weight_acc (Z.of_nat i0))).
    replace (Z.of_nat i0 + 1) with (Z.of_nat (S i0)) by lia.
    specialize (IH (S i0) q1 (fadd sum (vget fzero weight_acc (Z.of_nat i0)))).
    simpl capacity in IH.
    destruct IH as [IHother IHwritten]; try done; try lia;
      try (simpl; by rewrite vset_length).
    assert (forall i : nat, (i < length block)%nat ->
              j0 <> (start + Z.of_nat (S i0 + i)) mod capacity q) as Hfresh.
    { intros i Hi.
      replace (start + Z.of_nat (S i0 + i))
        with ((start + Z.of_nat i0) + Z.of_nat (S i)) by lia.
      unfold j0. intros Heq. symmetry in Heq. revert Heq. apply mod_ne; lia. }
    split.
    + intros j Hj. destruct (IHother j) as [He Hw].
      { intros i Hi. replace (S i0 + i)%nat with (i0 + S i)%nat by lia.
        apply Hj. lia. }
      rewrite He, Hw. simpl.
      specialize (Hj 0%nat ltac:(lia)). rewrite Nat.add_0_r in Hj. fold j0 in Hj.
      by rewrite !vget_vset_ne.
    + intros [| i] y Hy; simpl in Hy.
      * injection Hy as <-. rewrite Nat.add_0_r. fold j0.
        destruct (IHother j0 Hfresh) as [He Hw]. rewrite He, Hw. simpl.
        rewrite !vget_vset_eq by lia. done.
      * replace (i0 + S i)%nat with (S i0 + i)%nat by lia. by apply IHwritten.
Qed.

Lemma slot_id_mod q (k : nat) :
  0 < capacity q -> 0 <= head_ q ->
  slot_id q k = (head_ q + Z.of_nat k) mod capacity q.
Proof. intros. unfold slot_id. apply rem_mod; lia. Qed.

(** A whole [block_append] on a store without reservations in flight
    adds the block, with its weights, after the committed records. *)
Lemma block_append_region block weights q q' :
  inv q [] -> size_ q = safe_size_ q ->
  block_append block weights q = Done q' ->
  inv q' [] /\ size_ q' = safe_size_ q' /\
  safe_size_ q' = safe_size_ q + Z.of_nat (length block) /\
  region q' = region q ++ zip block (values weights).
Proof.
  intros Hinv Hquiet Happend.
  assert (inv q' []) as Hinv'.
  { apply (rtc_step_inv (q, []) (q', [])); [| done]. by eapply block_append_path. }
  split; [done |].
  destruct Hinv as [Hcap Hhead Hsafe Hsize Htail Hstail Hev Hel Hwt _ _ _].
  unfold block_append in Happend.
  apply bind_Done in Happend as ([q1 [start end_]] & Hreserve & H).
  apply bind_Done in H as ([q2 sum] & Hfill & Hcommit).
  unfold append_reserve in Hreserve.
  destruct (Z.leb_spec (size_ q + Z.of_nat (length block)) (capacity q)) as [Hroom |];
    [| discriminate].
  apply assert_bind_Done in Hreserve as [_ [= <- <- <-]].
  unfold append_fill in Hfill.
  apply assert_bind_Done in Hfill as [_ Hfill].
  apply assert_bind_Done in Hfill as [Hlen Hfill].
  apply Z.eqb_eq in Hlen. unfold size0 in Hlen. apply Nat2Z.inj in Hlen.
  injection Hfill as Hfill.
  set (q1 := {| capacity := capacity q; head_ := head_ q;
                tail_ := Z.rem (tail_ q + Z.of_nat (length block)) (capacity q);
                size_ := size_ q + Z.of_nat (length block);
                safe_tail_ := safe_tail_ q; safe_size_ := safe_size_ q; sum_ := sum_ q;
                evicted_ := evicted_ q; elements_ := elements_ q;
                weights_ := weights_ q |}) in *.
  assert (0 <= tail_ q < capacity q) as Htl
    by (rewrite Htail; apply Z.mod_pos_bound; lia).
  pose proof (fill_loop_spec (tail_ q) (values weights) block 0 q1 fzero
                Hcap Htl ltac:(simpl; lia) Hel Hwt) as [Hother Hwritten].
  pose proof (fill_loop_counters (tail_ q) 0 block (values weights) q1 fzero)
    as (Hc2 & Hh2 & _ & Hs2 & _ & Hss2 & _).
  change (Z.of_nat 0) with 0 in Hother, Hwritten.
  rewrite Hfill in Hother, Hwritten, Hc2, Hh2, Hs2, Hss2.
  simpl in Hother, Hwritten, Hc2, Hh2, Hs2, Hss2.
  unfold append_commit in Hcommit.
  destruct (safe_tail_ q2 =? tail_ q); [| discriminate].
  apply assert_bind_Done in Hcommit as [_ [= <-]]. simpl.
  split; [lia |]. split; [lia |].
  unfold region. simpl safe_size_.
  replace (Z.to_nat (safe_size_ q2 + Z.of_nat (length block)))
    with (Z.to_nat (safe_size_ q) + length block)%nat by lia.
  rewrite seq_app, fmap_app. f_equal.
  - rewrite Hss2. apply list_fmap_ext. intros i k Hk.
    apply lookup_seq in Hk as [-> Hi]. simpl in Hi.
    unfold slot_element, slot_weight. simpl.
    unfold slot_id. simpl. rewrite Hc2, Hh2. fold (slot_id q i).
    destruct (Hother (slot_id q i)) as [He Hw]; [| by rewrite He, Hw].
    intros i' Hi'. rewrite slot_id_mod by lia.
    rewrite Htail, mod_shift by lia.
    replace (head_ q + size_ q + Z.of_nat i')
      with (head_ q + Z.of_nat i + (size_ q - Z.of_nat i + Z.of_nat i')) by lia.
    intros Heq. symmetry in Heq. revert Heq. apply mod_ne; lia.
  - apply list_eq. intros i.
    rewrite list_lookup_fmap, lookup_zip_with.
    destruct (decide (i < length block)%nat) as [Hi | Hi].
    + rewrite lookup_seq_lt by done. simpl.
      destruct (lookup_lt_is_Some_2 block i Hi) as [x Hx].
      destruct (lookup_lt_is_Some_2 (values weights) i ltac:(lia)) as [w Hw].
      rewrite Hx, Hw. simpl. f_equal.
      destruct (Hwritten i x Hx) as [He Hwe].
      unfold slot_element, slot_weight, slot_id. simpl.
      rewrite Hc2, Hh2, rem_mod by lia.
      assert ((head_ q + Z.of_nat (Z.to_nat (safe_size_ q) + i)) mod capacity q
              = (tail_ q + Z.of_nat i) mod capacity q) as ->.
      { rewrite Htail, mod_shift by lia. f_equal. lia. }
      rewrite He, Hwe. f_equal.
      unfold vget. destruct (Z.ltb_spec (Z.of_nat i) 0) as [Hneg | _]; [lia |].
      by rewrite Nat2Z.id, Hw.
    + rewrite lookup_seq_ge by lia. simpl.
      rewrite (lookup_ge_None_2 block i) by lia. done.
Qed.

End Region_proofs.

(** ** [get_new_content] *)

Section Drain_proofs.
Context `{E : External}.
Import ConcurrentQueue PrioritizedReplay Interleaving Accounting Described Scanning Draining.

(** The loop of [get_new_content] reads the slots from the head on and
    changes evicted flags only. *)
Lemma drain_loop_spec q0 n : forall (c : nat) q samples weight_acc last_query,
  capacity q = capacity q0 -> head_ q = head_ q0 ->
  elements_ q = elements_ q0 -> weights_ q = weights_ q0 ->
  exists q',
    drain_loop n (Z.of_nat c) q samples weight_acc last_query
    = (q', samples ++ (slot_element q0 <$> seq c n),
       writes weight_acc (Z.of_nat c) (slot_weight q0 <$> seq c n),
       last_query + Z.of_nat n) /\
    same_counters q q' /\ elements_ q' = elements_ q0 /\ weights_ q' = weights_ q0.
Proof.
  induction n as [| n IH]; intros c q samples weight_acc last_query Hc Hh He Hw.
  - exists q. simpl. rewrite app_nil_r, Z.add_0_r.
    split_and!; [done | apply same_counters_refl | done | done].
  - cbn [drain_loop]. unfold get_element_and_mark, get_weight. simpl.
    rewrite Hc, Hh, He, Hw. fold (slot_id q0 c).
    fold (slot_element q0 c). fold (slot_weight q0 c).
    replace (Z.of_nat c + 1) with (Z.of_nat (S c)) by lia.
    match goal with
    | |- context [drain_loop n _ ?x _ _ _] => set (q1 := x)
    end.
    destruct (IH (S c) q1 (samples ++ [slot_element q0 c])
                (vset weight_acc (Z.of_nat c) (slot_weight q0 c)) (last_query + 1))
      as (q' & Hrun & Hsame & He' & Hw'); try done.
    exists q'. rewrite Hrun. split_and!; try done.
    + f_equal; [f_equal |]; [by rewrite <- app_assoc | lia].
    + eapply same_counters_trans; [| apply Hsame].
      repeat split; simpl; rewrite ?vset_length; congruence.
Qed.

Lemma region_length q : length (region q) = Z.to_nat (safe_size_ q).
Proof. unfold region. by rewrite length_fmap, length_seq. Qed.

(** A drain of [n > 0] records: what it returns and what it pops. *)
Lemma get_new_content_spec r :
  let q := storage_ r in
  let n := num_add_ r - last_query_ r in
  0 < n ->
  exists qm,
    same_counters q qm /\ elements_ qm = elements_ q /\ weights_ qm = weights_ q /\
    get_new_content r
    = (q' ← block_pop n qm;
       Done (set_last_query (set_storage r q') (num_add_ r),
             (n, pack (slot_element q <$> seq 0 (Z.to_nat n)),
              tensor1 (slot_weight q <$> seq 0 (Z.to_nat n))))).
Proof.
  intros q n Hn. unfold get_new_content. fold n.
  unfold ones. destruct (Z.ltb_spec n 0) as [Hneg | _]; [lia |]. simpl.
  destruct (Z.eqb_spec n 0) as [Hz | _]; [lia |].
  destruct (drain_loop_spec q (Z.to_nat n) 0 q [] (replicate (Z.to_nat n) fone)
              (last_query_ r)) as (qm & Hrun & Hsame & He & Hw); try done.
  change (Z.of_nat 0) with 0 in Hrun. fold q. rewrite Hrun.
  exists qm. split_and!; try done.
  pose proof (writes_replicate fone (slot_weight q <$> seq 0 (Z.to_nat n)) []) as Hwr.
  rewrite length_fmap, length_seq in Hwr. simpl in Hwr.
  change (Z.of_nat 0) with 0 in Hwr. rewrite Hwr.
  replace (last_query_ r + Z.of_nat (Z.to_nat n)) with (num_add_ r) by lia.
  done.
Qed.

Lemma block_pop_too_many n q : safe_size_ q < n -> block_pop n q = Fatal.
Proof.
  intros Hlt. unfold block_pop.
  destruct (pop_loop _ _ _ _ _ _) as [[evicted head] diff]. simpl.
  destruct (Z.leb_spec 0 (safe_size_ q - n)) as [Hge | _]; [lia | done].
Qed.

(** [block_append] on a store without reservations in flight returns
    when the block fits and blocks when it does not. *)
Lemma block_append_outcome block weights q :
  inv q [] -> size_ q = safe_size_ q ->
  dim weights = 1 -> size0 weights = Z.of_nat (length block) ->
  if size_ q + Z.of_nat (length block) <=? capacity q
  then exists q', block_append block weights q = Done q'
  else block_append block weights q = Blocked.
Proof.
  intros Hinv Hquiet Hdim Hlen.
  pose proof Hinv as [Hcap Hhead Hsafe Hsize Htail Hstail _ _ _ _ _ _].
  unfold block_append, append_reserve.
  destruct (Z.leb_spec (size_ q + Z.of_nat (length block)) (capacity q)) as [Hroom | Hfull];
    [| done].
  assert (0 <= tail_ q < capacity q) as Htl
    by (rewrite Htail; apply Z.mod_pos_bound; lia).
  simpl. rewrite rem_mod by lia.
  assert ((tail_ q + Z.of_nat (length block)) mod capacity q
          = (head_ q + (size_ q + Z.of_nat (length block))) mod capacity q) as Hend.
  { rewrite Htail, mod_shift by lia. f_equal. lia. }
  rewrite Hend.
  pose proof (check_size_mod q (head_ q) (size_ q + Z.of_nat (length block))
                Hcap Hhead ltac:(lia)) as Hcheck.
  unfold check_size in *. simpl. rewrite Hcheck. simpl.
  unfold append_fill. rewrite Hdim, Hlen, !Z.eqb_refl. simpl.
  match goal with
  | |- context [fill_loop ?a ?b ?c ?d ?e ?f] =>
      pose proof (fill_loop_counters a b c d e f) as (Hc2 & Hh2 & _ & _ & Hst2 & Hss2 & _);
      destruct (fill_loop a b c d e f) as [q2 sum]
  end.
  simpl in Hc2, Hh2, Hst2, Hss2. simpl.
  unfold append_commit. rewrite Hst2, Hstail, <- Hquiet, <- Htail, Z.eqb_refl.
  simpl. rewrite Hc2, Hh2, Hss2, <- Hquiet.
  pose proof (check_size_mod q (head_ q) (size_ q + Z.of_nat (length block))
                Hcap Hhead ltac:(lia)) as Hcheck2.
  unfold check_size in Hcheck2 |- *. cbn [capacity]. rewrite Hcheck2. simpl. by eexists.
Qed.

End Drain_proofs.

(** * The claims *)

(** ** C1: the importance weights *)

Section Claim_importance.
Context `{E : External}.
Import ConcurrentQueue PrioritizedReplay Described.

(** C1, as the code has it.  The weights that [sample_] returns are
    computed from the stored weights [w_i] of the selected slots and the
    sum read when the scan starts: [w_i / sum], then
    [(size * w_i)^(-beta)], then division by the maximum, where [size]
    is the reserved size of the store read after the scan (not the safe
    size read before it).  When no reservation is in flight the two
    sizes are equal and the weights are those of the description. *)
Theorem importance_weights (batchsize : Z) (device : string) (r r' : PrioritizedReplay.t)
    (batch : DataType) (weights : Tensor) (ids : list Z) :
  sample_ batchsize device r = Done (r', (batch, weights, ids)) ->
  let q := storage_ r in
  let sum := (safe_size q).2 in
  let raw := vget fzero (weights_ q) <$> ids in
  let scaled :=
    (fun w => torch_pow (fmul (float_of_int (ConcurrentQueue.size q)) (fdiv w sum))
                (fneg (beta_ r))) <$> raw in
  (exists m, tensor_max scaled = Done m /\
             values weights = (fun x => fdiv x m) <$> scaled) /\
  dim weights = 1 /\
  Z.of_nat (length (values weights)) = batchsize /\
  (ConcurrentQueue.size q = (safe_size q).1 ->
   described_importance (safe_size q).1 sum (beta_ r) raw = Done (values weights)).
Proof.
  intros H q sum raw scaled.
  apply sample__spec in H
    as (Hb & _ & ks & qs & Hks & Hids & _ & Hdim & Himp & _).
  fold q in Hks, Hids, Himp.
  apply cursors_spec in Hks as [Hlen _]; [| lia].
  assert ((fun k => slot_weight q (pred k)) <$> ks = raw) as Hraw.
  { unfold raw. rewrite Hids, <- list_fmap_compose. done. }
  rewrite Hraw in Himp. unfold importance in Himp.
  rewrite <- list_fmap_compose in Himp.
  change (tensor_max scaled ≫= (fun m => Done ((fun x => fdiv x m) <$> scaled))
          = Done (values weights)) in Himp.
  split_and!.
  - apply bind_Done in Himp as (m & Hm & [= <-]). by exists m.
  - done.
  - apply bind_Done in Himp as (m & Hm & [= <-]).
    unfold scaled, raw. rewrite !length_fmap, Hids, length_fmap, Hlen. lia.
  - intros Heq. unfold described_importance. rewrite <- Heq. exact Himp.
Qed.

End Claim_importance.

(** ** C2: [get_new_content] *)

Section Claim_drain.
Context `{E : External}.
Import ConcurrentQueue PrioritizedReplay Interleaving Accounting Described Draining.

Lemma new_holds capacity0 seed alpha beta prefetch :
  0 < capacity0 < 2 ^ 31 ->
  holds (PrioritizedReplay.new capacity0 seed alpha beta prefetch) [].
Proof.
  intros Hcap. unfold holds. simpl. split_and!; try done.
  apply inv_new. rewrite storage_capacity_floor by done. apply Z.div_str_pos. lia.
Qed.

Lemma add_holds r backlog sample priority r' :
  holds r backlog -> add sample priority r = Done r' ->
  holds r' (backlog ++ zip sample ((fun p => torch_pow p (alpha_ r)) <$> values priority)) /\
  alpha_ r' = alpha_ r.
Proof.
  intros (Hinv & Hquiet & Hcount & Hregion) Hadd. unfold add in Hadd.
  apply assert_bind_Done in Hadd as [_ Hadd]. apply assert_bind_Done in Hadd as [Hlen Hadd].
  apply Z.eqb_eq in Hlen.
  apply bind_Done in Hadd as (q' & Happend & [= <-]).
  apply block_append_region in Happend as (Hinv' & Hquiet' & Hsize' & Hregion'); try done.
  split; [| done]. unfold holds. simpl. split_and!; try done.
  - lia.
  - by rewrite Hregion', Hregion.
Qed.

Lemma add_not_fatal r backlog sample priority :
  holds r backlog -> dim priority = 1 -> size0 priority = Z.of_nat (length sample) ->
  add sample priority r <> Fatal.
Proof.
  intros (Hinv & Hquiet & _) Hdim Hlen. unfold add.
  rewrite Hdim, Hlen, !Z.eqb_refl. simpl.
  pose proof (block_append_outcome sample (pow priority (alpha_ r)) (storage_ r)
                Hinv Hquiet Hdim) as Hout.
  unfold pow at 1, size0 in Hout. simpl in Hout. rewrite length_fmap in Hout.
  specialize (Hout Hlen).
  destruct (size_ (storage_ r) + Z.of_nat (length sample) <=? capacity (storage_ r)).
  - destruct Hout as [q' ->]. done.
  - by rewrite Hout.
Qed.

Lemma drain_holds r backlog :
  holds r backlog ->
  exists r', get_new_content r = Done (r', drained backlog) /\
             holds r' [] /\ alpha_ r' = alpha_ r.
Proof.
  intros (Hinv & Hquiet & Hcount & Hregion).
  pose proof (region_length (storage_ r)) as Hlen. rewrite Hregion in Hlen.
  destruct (decide (num_add_ r - last_query_ r = 0)) as [Hz | Hnz].
  - exists r. rewrite Hcount, Hz in Hlen. destruct backlog; [| done].
    unfold get_new_content. rewrite Hz. simpl.
    split; [done |]. by split_and!.
  - assert (0 < num_add_ r - last_query_ r) as Hpos by (destruct Hinv; lia).
    destruct (get_new_content_spec r Hpos) as (qm & Hsame & He & Hw & ->).
    pose proof (inv_same_counters _ _ _ Hsame Hinv) as Hinvm.
    pose proof Hsame as (_ & _ & _ & Hs & _ & Hss & _).
    destruct (block_pop_Done qm [] (num_add_ r - last_query_ r) Hinvm) as [q' Hpop];
      [lia |].
    rewrite Hpop. simpl.
    assert (inv q' []) as Hinv'
      by (eapply inv_pop; [| apply Hinvm | apply Hpop]; lia).
    apply (block_pop_spec _ _ _ _ Hinvm) in Hpop as (Hs' & Hss' & _); [| lia].
    exists (set_last_query (set_storage r q') (num_add_ r)).
    split; [| split; [| done]].
    + assert (drained backlog
              = (Z.of_nat (length backlog), pack backlog.*1, tensor1 backlog.*2)) as ->
        by (destruct backlog; [simpl in Hlen; lia | done]).
      rewrite Hlen, <- Hregion. unfold region.
      rewrite <- !list_fmap_compose, <- Hcount, Z2Nat.id by lia. done.
    + unfold holds. simpl. split_and!; try done; try lia.
      unfold region. by replace (safe_size_ q') with 0 by lia.
Qed.

Lemma run_spec calls : forall r backlog,
  holds r backlog ->
  (forall sample priority, Add sample priority ∈ calls ->
     dim priority = 1 /\ size0 priority = Z.of_nat (length sample)) ->
  match run calls r with
  | Done (r', outs) => outs = expected (alpha_ r) calls backlog
  | Fatal => False
  | Blocked => True
  end.
Proof.
  induction calls as [| [sample priority |] calls IH]; intros r backlog Hholds Hshape;
    simpl.
  - done.
  - destruct (Hshape sample priority ltac:(left)) as [Hdim Hlen].
    pose proof (add_not_fatal r backlog sample priority Hholds Hdim Hlen) as Hnf.
    destruct (add sample priority r) as [r' | |] eqn:Hadd; simpl; [| done | done].
    destruct (add_holds _ _ _ _ _ Hholds Hadd) as [Hholds' Halpha].
    rewrite <- Halpha in Hholds' |- *. apply IH; [done |].
    intros s p Hin. apply Hshape. by right.
  - destruct (drain_holds r backlog Hholds) as (r' & -> & Hholds' & Halpha). simpl.
    specialize (IH r' [] Hholds').
    rewrite Halpha in IH.
    destruct (run calls r') as [[r'' outs] | |]; simpl.
    + f_equal. apply IH. intros s p Hin. apply Hshape. by right.
    + apply IH. intros s p Hin. apply Hshape. by right.
    + done.
Qed.

(** C2, as the code has it.  [get_new_content()] reads the first
    [num_add - last_query] records from the head of the store, returns
    their number, the records packed and their stored weights (the
    priorities raised to alpha, not 1.0), sets [last_query] to
    [num_add] and pops exactly those records with [block_pop]; it
    aborts when the store holds fewer committed records.  For a user
    that only calls [add] and [get_new_content], these records are
    exactly the ones added since the previous call. *)
Theorem get_new_content_drains :
  (forall r ps,
      inv (storage_ r) ps ->
      let q := storage_ r in
      let n := num_add_ r - last_query_ r in
      (n < 0 -> get_new_content r = Fatal) /\
      (n = 0 -> get_new_content r = Done (r, (0, default_data, tensor1 []))) /\
      (safe_size_ q < n -> get_new_content r = Fatal) /\
      (0 < n <= safe_size_ q ->
       exists r',
         get_new_content r
         = Done (r', (n, pack (slot_element q <$> seq 0 (Z.to_nat n)),
                      tensor1 (slot_weight q <$> seq 0 (Z.to_nat n)))) /\
         last_query_ r' = num_add_ r /\ num_add_ r' = num_add_ r /\
         size_ (storage_ r') = size_ q - n /\
         safe_size_ (storage_ r') = safe_size_ q - n /\
         head_ (storage_ r') = (head_ q + n) mod capacity q /\
         elements_ (storage_ r') = elements_ q /\
         weights_ (storage_ r') = weights_ q /\
         (forall k : nat, Z.of_nat k < n ->
                          vget false (evicted_ (storage_ r')) (slot_id q k) = true))) /\
  (forall capacity0 seed alpha beta prefetch calls,
      0 < capacity0 < 2 ^ 31 ->
      (forall sample priority, Add sample priority ∈ calls ->
         dim priority = 1 /\ size0 priority = Z.of_nat (length sample)) ->
      match run calls (PrioritizedReplay.new capacity0 seed alpha beta prefetch) with
      | Done (r', outs) => outs = expected alpha calls []
      | Fatal => False
      | Blocked => True
      end).
Proof.
  split.
  - intros r ps Hinv q n. split_and!.
    + intros Hneg. unfold get_new_content, ones. fold n.
      destruct (Z.ltb_spec n 0) as [_ | Hge]; [done | lia].
    + intros Hz. unfold get_new_content, ones. fold n. rewrite Hz. done.
    + intros Hmany.
      destruct (decide (0 < n)) as [Hpos | Hneg].
      * destruct (get_new_content_spec r Hpos) as (qm & Hsame & _ & _ & ->).
        rewrite block_pop_too_many; [done |].
        destruct Hsame as (_ & _ & _ & _ & _ & -> & _). done.
      * destruct Hinv. exfalso. unfold n, q in *. lia.
    + intros [Hpos Hfit].
      destruct (get_new_content_spec r Hpos) as (qm & Hsame & He & Hw & ->).
      pose proof (inv_same_counters _ _ _ Hsame Hinv) as Hinvm.
      pose proof Hsame as (Hc & Hh & _ & Hs & _ & Hss & _).
      destruct (block_pop_Done qm ps n Hinvm) as [q' Hpop]; [unfold q in *; lia |].
      fold n. rewrite Hpop. simpl.
      apply (block_pop_spec _ _ _ _ Hinvm) in Hpop
        as (Hs' & Hss' & Hh' & _ & _ & _ & He' & Hw' & Hmark & _); [| lia].
      eexists. split; [done |]. simpl.
      rewrite Hs', Hss', Hh', He', Hw', Hs, Hss, Hh, Hc, He, Hw.
      split_and!; try done.
      intros k Hk.
      assert (slot_id q k = slot_id qm k) as ->
        by (unfold slot_id; by rewrite Hc, Hh).
      by apply Hmark.
  - intros capacity0 seed alpha beta prefetch calls Hcap Hshape.
    apply (run_spec calls _ [] (new_holds capacity0 seed alpha beta prefetch Hcap) Hshape).
Qed.

End Claim_drain.

(** ** C3: the accounting of the ring *)

(** C3, as the code has it.  In every state the store can reach,
    [0 <= safe_size <= size <= capacity]; [tail - head] and [size] agree
    modulo the capacity, so [tail = head] both when the store is empty
    and when it is full, and [(tail - head) mod capacity = size] below
    that; the same holds for [safe_tail] and [safe_size]; and both
    calls of [check_size] pass. *)
Theorem ring_accounting `{E : External} (cap : Z)
    (s : ConcurrentQueue.t * list Interleaving.producer) :
  0 < cap ->
  Interleaving.reachable cap s ->
  let q := s.1 in
  let head := ConcurrentQueue.head_ q in
  let capacity := ConcurrentQueue.capacity q in
  let size := ConcurrentQueue.size_ q in
  let safe_size := ConcurrentQueue.safe_size_ q in
  let tail := ConcurrentQueue.tail_ q in
  let safe_tail := ConcurrentQueue.safe_tail_ q in
  (0 <= safe_size <= size /\ size <= capacity) /\
  ((tail - head) mod capacity = size mod capacity /\
   (safe_tail - head) mod capacity = safe_size mod capacity) /\
  ((size = 0 \/ size = capacity -> tail = head) /\
   (safe_size = 0 \/ safe_size = capacity -> safe_tail = head)) /\
  ((size < capacity -> Described.described_head_tail q tail size) /\
   (safe_size < capacity -> Described.described_head_tail q safe_tail safe_size)) /\
  (ConcurrentQueue.check_size q head tail size = true /\
   ConcurrentQueue.check_size q head safe_tail safe_size = true).
Proof.
  intros Hcap Hreach q head capacity size safe_size tail safe_tail.
  apply reachable_inv in Hreach; [| done].
  pose proof (inv_check_size _ _ Hreach) as Hcheck.
  destruct Hreach as [Hc Hh Hs Hsz Ht Hst _ _ _ _ _ _].
  fold q in Hc, Hh, Hs, Hsz, Ht, Hst, Hcheck.
  fold head capacity size safe_size tail safe_tail in Hc, Hh, Hs, Hsz, Ht, Hst, Hcheck.
  assert (forall n, 0 <= n <= capacity ->
            ((head + n) mod capacity - head) mod capacity = n mod capacity) as Hmod.
  { intros n Hn. rewrite Zminus_mod_idemp_l. f_equal. lia. }
  assert (forall n, (n = 0 \/ n = capacity) -> (head + n) mod capacity = head) as Hends.
  { intros n [-> | ->].
    - rewrite Z.add_0_r. apply Z.mod_small. lia.
    - rewrite <- (Z.mul_1_l capacity) at 1. rewrite Z.mod_add by lia.
      apply Z.mod_small. lia. }
  assert (forall n, 0 <= n < capacity ->
            Described.described_head_tail q ((head + n) mod capacity) n) as Hdesc.
  { intros n Hn. unfold Described.described_head_tail. fold head capacity.
    destruct (decide (n = 0)) as [-> | Hne].
    - apply Hends. by left.
    - rewrite Hmod by lia. apply Z.mod_small. lia. }
  rewrite Ht, Hst. split_and!; try done; try lia.
  - apply Hmod. lia.
  - apply Hmod. lia.
  - apply Hends.
  - apply Hends.
  - intros Hlt. apply Hdesc. lia.
  - intros Hlt. apply Hdesc. lia.
  - rewrite <- Ht. apply Hcheck.
  - rewrite <- Hst. apply Hcheck.
Qed.

(** ** C4: the stratified scan *)

Section Claim_scan.
Context `{E : External}.
Import ConcurrentQueue PrioritizedReplay Described.

(** C4.  In a sample of [batchsize] that returns, draw [i] is
    [U(0, segment) + i * segment] with [segment = sum / batchsize],
    clamped above by [sum - 0.2]; the slot selected for draw [i] is the
    one under the cursor when the running prefix sum first satisfies
    [acc_sum > 0 && acc_sum >= rand_i], the cursor starting where draw
    [i - 1] left it; so the cursor never moves back.  In a state the
    replay can reach, the sample returns when every draw finds such a
    slot among the committed ones (and the overflow to pop is committed),
    and aborts when some draw finds none. *)
Theorem stratified_scan (batchsize : Z) (device : string) (r : PrioritizedReplay.t) :
  let q := storage_ r in
  let size := Z.to_nat (safe_size q).1 in
  let sum := (safe_size q).2 in
  let segment := fdiv sum (float_of_int batchsize) in
  (forall r' batch weights ids,
      sample_ batchsize device r = Done (r', (batch, weights, ids)) ->
      exists cursor : list nat,
        length cursor = Z.to_nat batchsize /\
        ids = (fun k => slot_id q (pred k)) <$> cursor /\
        batch = pack ((fun k => slot_element q (pred k)) <$> cursor) /\
        forall (i k : nat), cursor !! i = Some k ->
          let before := match i with O => O | S i' => default O (cursor !! i') end in
          let rand :=
            std_min (fsub sum f0_2)
              (fadd (uniform_draw segment (rng_ r) i)
                    (fmul (float_of_int (Z.of_nat i)) segment)) in
          (before <= k <= size)%nat /\ (1 <= k)%nat /\
          (dltb dzero (prefix q k) && dleb (double_of_float rand) (prefix q k) = true) /\
          (forall k', (before <= k' < k)%nat ->
             dltb dzero (prefix q k') && dleb (double_of_float rand) (prefix q k') = false)) /\
  (forall capacity0 seed alpha beta prefetch l,
      0 < capacity0 < 2 ^ 31 ->
      Interleaving.rreachable capacity0 seed alpha beta prefetch (r, l) ->
      0 < batchsize ->
      match cursors q size sum segment (rng_ r) (Z.to_nat batchsize) 0 0 with
      | Some cursor =>
          size_ q - capacity_ r <= safe_size_ q ->
          exists r' weights,
            sample_ batchsize device r
            = Done (r', (pack ((fun k => slot_element q (pred k)) <$> cursor), weights,
                         (fun k => slot_id q (pred k)) <$> cursor))
      | None => sample_ batchsize device r = Fatal
      end).
Proof.
  intros q size sum segment. split.
  - intros r' batch weights ids H.
    apply sample__spec in H as (Hb & Hsize & ks & qs & Hks & Hids & Hbatch & _).
    fold q in Hks, Hids, Hbatch.
    apply cursors_spec in Hks as [Hlen Hcur]; [| lia].
    exists ks. split_and!; [done | done | done |].
    intros i k Hk. exact (Hcur i k Hk).
  - intros capacity0 seed alpha beta prefetch l Hcap Hreach Hb.
    apply rreachable_inv in Hreach; [| done]. simpl in Hreach. fold q in Hreach.
    destruct (cursors q size sum segment (rng_ r) (Z.to_nat batchsize) 0 0)
      as [cursor |] eqn:Hks.
    + intros Hfit. by apply (sample__returns batchsize device r _ cursor Hreach).
    + pose proof (Accounting.inv_safe_size _ _ Hreach) as Hsafe. unfold q in Hsafe.
      apply sample__aborts; [lia | lia | exact Hks].
Qed.

End Claim_scan.

(** ** C5: [update] and evicted slots *)

Section Claim_update.
Context `{E : External}.
Import ConcurrentQueue Described Accounting.

(** C5.  [update(ids, weights)], given a tensor of rank 1 with an entry
    for every id, returns; it skips every id whose evicted flag is set
    and leaves its weight as it is, replaces the weight of every other
    id by the new value, and adds to [sum_] exactly the total of
    [new_weight - old_weight] over the ids it did not skip; when every
    id is flagged, the weights and the sum stay as they are and the call
    still returns.  On a tensor of another rank the accessor raises. *)
Theorem update_skips_evicted (ids : list Z) (weights : Tensor) (q : ConcurrentQueue.t) :
  (dim weights <> 1 -> update ids weights q = Fatal) /\
  (dim weights = 1 -> length (values weights) = length ids ->
   exists q',
     update ids weights q = Done q' /\
     let live := live_updates q ids (values weights) in
     (same_counters q q' /\ evicted_ q' = evicted_ q /\ elements_ q' = elements_ q) /\
     (forall j, vget false (evicted_ q) j = true ->
                vget fzero (weights_ q') j = vget fzero (weights_ q) j) /\
     (forall j, j ∉ ids -> vget fzero (weights_ q') j = vget fzero (weights_ q) j) /\
     (forall (i : nat) j w,
         ids !! i = Some j -> values weights !! i = Some w ->
         vget false (evicted_ q) j = false ->
         0 <= j < Z.of_nat (length (weights_ q)) ->
         (forall i' : nat, (i < i')%nat -> ids !! i' <> Some j) ->
         vget fzero (weights_ q') j = w) /\
     sum_ q' = dadd (sum_ q) (total_diff (weights_ q) live dzero) /\
     (NoDup ids -> sum_ q' = dadd (sum_ q) (total_diff_before (weights_ q) live)) /\
     (Forall (fun j => vget false (evicted_ q) j = true) ids ->
        weights_ q' = weights_ q /\ sum_ q' = dadd (sum_ q) dzero /\
        (sum_ q <> S754_zero true -> q' = q) /\
        (sum_ q = S754_zero true -> sum_ q' = S754_zero false))).
Proof.
  split.
  { intros Hdim. unfold update. by rewrite (proj2 (Z.eqb_neq _ _) Hdim). }
  intros Hdim Hlen.
  exists (update_weights ids (values weights) q).
  split; [by apply update_Done |].
  set (q' := update_weights ids (values weights) q). intros live.
  pose proof (update_loop_spec ids [] (values weights) q dzero Hlen) as Hloop.
  change (Z.of_nat (length [])) with 0 in Hloop.
  change ([] ++ values weights) with (values weights) in Hloop. fold live in Hloop.
  assert (q' = add_to_sum (with_weights q (apply_updates (weights_ q) live))
                 (total_diff (weights_ q) live dzero)) as Hq'
    by (unfold q', update_weights; by rewrite Hloop).
  pose proof (live_updates_not_evicted q ids (values weights)) as Hlive.
  fold live in Hlive.
  split; [| split; [| split; [| split; [| split; [| split]]]]].
  - rewrite Hq'. repeat split; simpl; by rewrite ?apply_updates_length.
  - intros j Hj. rewrite Hq'. simpl. apply apply_updates_other.
    eapply Forall_impl; [apply Hlive |]. intros p Hp Heq. simpl in Hp. congruence.
  - intros j Hj. rewrite Hq'. simpl. apply apply_updates_other.
    apply Forall_forall. intros p Hp Heq. apply Hj.
    eapply sublist_subseteq; [apply (live_updates_ids q ids (values weights)) |].
    apply list_elem_of_fmap. by exists p.
  - intros i j w Hi Hw Hev Hj Hlast. rewrite Hq'. simpl.
    assert (zip ids (values weights)
            = zip (take i ids) (take i (values weights)) ++ (j, w)
                :: zip (drop (S i) ids) (drop (S i) (values weights))) as Hzip.
    { rewrite <- (take_drop_middle ids i j Hi) at 1.
      rewrite <- (take_drop_middle (values weights) i w Hw) at 1.
      rewrite zip_with_app; [done |].
      rewrite !length_take. lia. }
    unfold live, live_updates. rewrite Hzip, filter_app, filter_cons.
    simpl. rewrite decide_True by done.
    apply apply_updates_last; [done |].
    apply Forall_forall. intros p Hp Heq.
    apply list_elem_of_filter in Hp as [_ Hp].
    apply (list_elem_of_fmap_2 fst) in Hp. rewrite fst_zip in Hp
      by (rewrite !length_drop; lia).
    apply list_elem_of_lookup in Hp as [k Hk]. rewrite lookup_drop in Hk.
    apply (Hlast (S i + k)%nat); [lia | by rewrite <- Heq].
  - by rewrite Hq'.
  - intros Hnd. rewrite Hq'. simpl. f_equal. apply total_diff_nodup.
    eapply sublist_NoDup; [apply Hnd | apply live_updates_ids].
  - intros Hall.
    assert (live = []) as Hnil by (by apply live_updates_all_evicted).
    rewrite Hq', Hnil. simpl. split_and!; try done.
    + intros Hsum. unfold add_to_sum. simpl. rewrite dadd_zero_r by done.
      by destruct q.
    + by intros ->.
Qed.

End Claim_update.

(** ** C6: the handshake of [sample] and [update_priority] *)

Section Claim_handshake.
Context `{E : External}.
Import ConcurrentQueue PrioritizedReplay.

(** C6.  [sample] aborts while [sampled_ids_] is not empty, and a call
    that returns started with it empty and (without prefetch) leaves the
    [batchsize] ids of the batch in it; [update_priority] aborts unless
    the priority tensor has rank 1 and as many entries as there are
    sampled ids, and otherwise raises the priorities to [alpha_], hands
    them to [update] with exactly the sampled ids and clears
    [sampled_ids_]; [keep_priority] clears [sampled_ids_] and changes
    nothing else. *)
Theorem sample_update_handshake :
  (forall batchsize device r,
      sampled_ids_ r <> [] -> sample batchsize device r = Fatal) /\
  (forall batchsize device r r' out,
      sample batchsize device r = Done (r', out) ->
      sampled_ids_ r = [] /\
      (prefetch_ r = 0 ->
       Z.of_nat (length (sampled_ids_ r')) = batchsize /\ sampled_ids_ r' <> [])) /\
  (forall priority r,
      dim priority <> 1 \/ size0 priority <> Z.of_nat (length (sampled_ids_ r)) ->
      update_priority priority r = Fatal) /\
  (forall priority r,
      dim priority = 1 -> size0 priority = Z.of_nat (length (sampled_ids_ r)) ->
      exists q',
        update (sampled_ids_ r)
          {| dim := 1; values := (fun p => torch_pow p (alpha_ r)) <$> values priority |}
          (storage_ r)
        = Done q' /\
        update_priority priority r = Done (set_sampled_ids (set_storage r q') [])) /\
  (forall r,
      keep_priority r = set_sampled_ids r [] /\
      sampled_ids_ (keep_priority r) = [] /\
      storage_ (keep_priority r) = storage_ r).
Proof.
  split_and!.
  - intros batchsize device r Hne. unfold sample.
    by destruct (sampled_ids_ r).
  - intros batchsize device r r' out H. unfold sample in H.
    destruct (sampled_ids_ r) eqn:Hids; [| discriminate]. split; [done |].
    intros Hpre. rewrite Hpre in H. simpl in H.
    apply bind_Done in H as ([r1 [[batch priority] ids]] & Hs & [= <- _]).
    apply sample__spec in Hs as (Hb & _ & ks & qs & Hks & -> & _).
    apply cursors_spec in Hks as [Hlen _]; [| lia].
    simpl. rewrite length_fmap, Hlen. split; [lia |].
    destruct ks; [simpl in Hlen; lia | done].
  - intros priority r Hbad. unfold update_priority.
    destruct (Z.eqb_spec (dim priority) 1) as [Hdim | Hdim]; [| done]. simpl.
    destruct (Z.eqb_spec (Z.of_nat (length (sampled_ids_ r))) (size0 priority))
      as [Hlen | Hlen]; [| done].
    destruct Hbad as [Hbad | Hbad]; [done | by rewrite Hlen in Hbad].
  - intros priority r Hdim Hlen. eexists. split; [done |].
    unfold update_priority, pow.
    by rewrite Hdim, Hlen, !Z.eqb_refl.
  - done.
Qed.

End Claim_handshake.

(** ** C7: the overflow pop of [sample_] *)

Section Claim_overflow.
Context `{E : External}.
Import ConcurrentQueue PrioritizedReplay Interleaving Accounting Described Scanning.

Lemma fill_loop_evicted start block weight_acc : forall i q sum,
  evicted_ (fill_loop start i block weight_acc q sum).1 = evicted_ q.
Proof.
  induction block as [| x block IH]; intros i q sum; simpl; [done |]. by rewrite IH.
Qed.

Lemma block_append_effect block weights q q' :
  block_append block weights q = Done q' ->
  head_ q' = head_ q /\ size_ q' = size_ q + Z.of_nat (length block) /\
  evicted_ q' = evicted_ q.
Proof.
  unfold block_append. intros H.
  apply bind_Done in H as ([q1 [start end_]] & Hreserve & H).
  apply bind_Done in H as ([q2 sum] & Hfill & Hcommit).
  unfold append_reserve in Hreserve.
  destruct (size_ q + Z.of_nat (length block) <=? capacity q); [| discriminate].
  apply assert_bind_Done in Hreserve as [_ [= <- <- <-]].
  unfold append_fill in Hfill.
  apply assert_bind_Done in Hfill as [_ Hfill]. apply assert_bind_Done in Hfill as [_ Hfill].
  injection Hfill as Hfill.
  pose proof (fill_loop_counters (tail_ q) 0 block (values weights)
     {| capacity := capacity q; head_ := head_ q;
        tail_ := Z.rem (tail_ q + Z.of_nat (length block)) (capacity q);
        size_ := size_ q + Z.of_nat (length block);
        safe_tail_ := safe_tail_ q; safe_size_ := safe_size_ q; sum_ := sum_ q;
        evicted_ := evicted_ q; elements_ := elements_ q; weights_ := weights_ q |}
     fzero) as (_ & Hh & _ & Hs & _).
  pose proof (fill_loop_evicted (tail_ q) block (values weights) 0
     {| capacity := capacity q; head_ := head_ q;
        tail_ := Z.rem (tail_ q + Z.of_nat (length block)) (capacity q);
        size_ := size_ q + Z.of_nat (length block);
        safe_tail_ := safe_tail_ q; safe_size_ := safe_size_ q; sum_ := sum_ q;
        evicted_ := evicted_ q; elements_ := elements_ q; weights_ := weights_ q |}
     fzero) as He.
  rewrite Hfill in Hh, Hs, He. simpl in Hh, Hs, He.
  unfold append_commit in Hcommit.
  destruct (safe_tail_ q2 =? tail_ q); [| discriminate].
  apply assert_bind_Done in Hcommit as [_ [= <-]]. simpl. done.
Qed.





End Claim_overflow.

(** ** C8: the physical capacity *)

(** C8, as the code has it.  For every nominal capacity [c] from 1 to
    1717986918, the largest for which [1.25 * c] still fits an [int],
    the constructor builds the store with physical capacity
    [int(1.25 * c)], the floor of [1.25 * c] (not its ceiling), itself
    an [int]. *)
Theorem storage_capacity_is_floor `{E : External} (c seed : Z) (alpha beta : float)
    (prefetch : Z) :
  0 < c <= 1717986918 ->
  let cap := ConcurrentQueue.capacity
               (PrioritizedReplay.storage_ (PrioritizedReplay.new c seed alpha beta prefetch)) in
  cap = 5 * c / 4 /\ 4 * cap <= 5 * c < 4 * (cap + 1) /\ cap < 2 ^ 31.
Proof.
  intros Hc cap.
  assert (cap = 5 * c / 4) as ->
    by (unfold cap; simpl; apply storage_capacity_floor; lia).
  pose proof (Z.div_mod (5 * c) 4 ltac:(lia)).
  pose proof (Z.mod_pos_bound (5 * c) 4 ltac:(lia)). lia.
Qed.

(** ** C9: [PrioritizedReplay::size] *)

(** C9.  [PrioritizedReplay::size()] returns the committed [safe_size_]
    of the store, and in every state a replay can reach this is at most
    the reserved size that [ConcurrentQueue::size()] returns. *)
Theorem size_is_committed_size `{E : External} (capacity seed : Z) (alpha beta : float)
    (prefetch : Z) (s : PrioritizedReplay.t * list Interleaving.rstage) :
  0 < capacity < 2 ^ 31 ->
  Interleaving.rreachable capacity seed alpha beta prefetch s ->
  PrioritizedReplay.size s.1 = ConcurrentQueue.safe_size_ (PrioritizedReplay.storage_ s.1) /\
  PrioritizedReplay.size s.1 <= ConcurrentQueue.size (PrioritizedReplay.storage_ s.1).
Proof.
  intros Hcap Hreach. split; [done |].
  apply rreachable_inv in Hreach; [| done].
  destruct Hreach. unfold PrioritizedReplay.size, ConcurrentQueue.size. simpl. lia.
Qed.

(** ** C10: a sum of at most 0.2 *)

Section Claim_small_sum.
Context `{E : External}.
Import ConcurrentQueue PrioritizedReplay Described.

(** C10.  When the sum read by a sample satisfies [sum <= 0.2], every
    draw is clamped to [sum - 0.2 <= 0], so every selection stops at the
    first slot where the prefix sum is positive: the batch is
    [batchsize] copies of that slot, and the ids (which [sample] stores
    in [sampled_ids_]) are [batchsize] times its physical index.  In a
    state the replay can reach, with a positive prefix sum among the
    committed slots (and the overflow to pop committed), the sample
    returns. *)
Theorem small_sum_repeats_one_slot (batchsize : Z) (device : string)
    (r : PrioritizedReplay.t) :
  let q := storage_ r in
  let sum := (safe_size q).2 in
  let segment := fdiv sum (float_of_int batchsize) in
  SFleb sum f0_2 = true ->
  (forall i, dleb (double_of_float (stratified_draw sum segment (rng_ r) i)) dzero = true) /\
  (forall r' batch weights ids,
      sample_ batchsize device r = Done (r', (batch, weights, ids)) ->
      exists k : nat,
        (k < Z.to_nat (safe_size q).1)%nat /\
        dltb dzero (prefix q (S k)) = true /\
        (forall k', (k' <= k)%nat -> dltb dzero (prefix q k') = false) /\
        ids = replicate (Z.to_nat batchsize) (slot_id q k) /\
        batch = pack (replicate (Z.to_nat batchsize) (slot_element q k)) /\
        (forall r0 out,
            prefetch_ r = 0 -> sample batchsize device r = Done (r0, out) ->
            sampled_ids_ r0 = replicate (Z.to_nat batchsize) (slot_id q k))) /\
  (forall capacity0 seed alpha beta prefetch l (n : nat),
      0 < capacity0 < 2 ^ 31 ->
      Interleaving.rreachable capacity0 seed alpha beta prefetch (r, l) ->
      0 < batchsize ->
      (n <= Z.to_nat (safe_size q).1)%nat -> dltb dzero (prefix q n) = true ->
      size_ q - capacity_ r <= safe_size_ q ->
      exists r' batch weights ids,
        sample_ batchsize device r = Done (r', (batch, weights, ids))).
Proof.
  intros q sum segment Hle.
  assert (valid_binary 24 128 sum = true) as Hvalid by apply float_of_double_valid.
  assert (forall i, dleb (double_of_float (stratified_draw sum segment (rng_ r) i)) dzero
                    = true) as Hdraw.
  { intros i. apply double_of_float_nonpos. unfold stratified_draw.
    apply std_min_nonpos. by apply fsub_f0_2_nonpos. }
  split; [done |]. split.
  - intros r' batch weights ids H.
    pose proof H as Hspec.
    apply sample__spec in Hspec as (Hb & Hsize & ks & qs & Hks & Hids & Hbatch & _).
    fold q sum segment in Hks, Hids, Hbatch.
    apply cursors_spec in Hks as [Hlen Hcur]; [| lia].
    destruct ks as [| k0 ks]; [simpl in Hlen; lia |].
    pose proof (Hcur 0%nat k0 eq_refl) as (Hr0 & Hp0 & Hc0 & Hf0). simpl in Hr0, Hc0, Hf0.
    rewrite crossed_nonpos in Hc0 by apply Hdraw.
    assert (forall (i k : nat), (k0 :: ks) !! i = Some k -> k = k0) as Hall.
    { induction i as [| i IH]; intros k Hk; [by injection Hk as <- |].
      destruct ((k0 :: ks) !! i) as [kp |] eqn:Hprev.
      - pose proof (IH kp eq_refl) as ->.
        pose proof (Hcur (S i) k Hk) as (Hr & _ & _ & Hf). simpl in Hr, Hf.
        rewrite Hprev in Hr, Hf. simpl in Hr, Hf.
        destruct (decide (k = k0)) as [-> | Hne]; [done | exfalso].
        specialize (Hf k0 ltac:(lia)).
        rewrite crossed_nonpos in Hf by apply Hdraw. congruence.
      - apply lookup_lt_Some in Hk. apply lookup_ge_None in Hprev. simpl in *. lia. }
    assert (k0 :: ks = replicate (Z.to_nat batchsize) k0) as Hks.
    { apply list_eq_same_length with (Z.to_nat batchsize);
        [by rewrite length_replicate | done |].
      intros i x y Hi Hx Hy. apply lookup_replicate in Hy as [-> _]. by apply (Hall i). }
    destruct k0 as [| k]; [lia |].
    exists k. split_and!.
    + simpl. lia.
    + done.
    + intros k' Hk'. specialize (Hf0 k' ltac:(lia)).
      by rewrite crossed_nonpos in Hf0 by apply Hdraw.
    + by rewrite Hids, Hks, fmap_replicate.
    + by rewrite Hbatch, Hks, fmap_replicate.
    + intros r0 out Hpre Hs. unfold sample in Hs.
      destruct (sampled_ids_ r); [| discriminate].
      rewrite Hpre in Hs. simpl in Hs. rewrite H in Hs. simpl in Hs.
      injection Hs as <- _. simpl. by rewrite Hids, Hks, fmap_replicate.
  - intros capacity0 seed alpha beta prefetch l n Hcap Hreach Hb Hn Hpos Hfit.
    apply rreachable_inv in Hreach; [| done]. simpl in Hreach. fold q in Hreach.
    destruct (first_true (fun k => dltb dzero (prefix q k)) n Hpos)
      as (k0 & Hk0 & Hpos0 & Hfirst).
    pose proof (cursors_nonpos q (Z.to_nat (safe_size_ q)) sum segment (rng_ r) k0
                  Hdraw ltac:(simpl in Hn; lia) Hpos0 Hfirst
                  (Z.to_nat batchsize) 0%nat 0%nat ltac:(lia)) as Hks.
    destruct (sample__returns batchsize device r _ _ Hreach Hb Hks Hfit)
      as (r' & weights & Hret).
    by eexists _, _, _, _.
Qed.

End Claim_small_sum.

(** * Further properties of the code *)

(** ** The assertions of the ring store *)

Section Store_assertions.
Context `{E : External}.
Import ConcurrentQueue Interleaving Accounting.

(** X6.  [check_size(head, tail, size)] passes exactly when [tail] is [size]
    slots after [head] around the ring, for arguments within the ring. *)
Theorem check_size_characterised (q : ConcurrentQueue.t) (head tail size : Z) :
  0 < capacity q -> 0 <= head < capacity q -> 0 <= tail < capacity q ->
  0 <= size <= capacity q ->
  check_size q head tail size = true <-> tail = (head + size) mod capacity q.
Proof.
  intros Hcap Hhead Htail Hsize. split.
  - unfold check_size. intros Hc.
    destruct (Z.eqb_spec size 0) as [-> | Hne].
    + apply Z.eqb_eq in Hc. rewrite Z.add_0_r, Z.mod_small by lia. done.
    + destruct (Z.gtb_spec tail head) as [Hgt | Hle]; apply Z.eqb_eq in Hc.
      * rewrite Z.mod_small by lia. lia.
      * apply (Z.mod_unique_pos _ _ 1); lia.
  - intros ->. by apply check_size_mod.
Qed.

(** The start of a reservation is the committed tail moved by the
    sizes of the reservations before it. *)
Lemma chain_start cap s l1 p l2 :
  0 < cap -> 0 <= s < cap -> 0 < block_size p ->
  chain cap s (l1 ++ p :: l2) -> p_start p = (s + total l1) mod cap.
Proof.
  intros Hcap Hs Hp Hchain. apply chain_app in Hchain as [_ Hch]; [| lia | lia].
  simpl in Hch. destruct (Z.ltb_spec 0 (block_size p)) as [_ | Hle]; [| lia].
  by destruct Hch.
Qed.

Lemma total_zero_iff (l : list producer) :
  total l = 0 <-> Forall (fun p => block_size p = 0) l.
Proof.
  induction l as [| p l IH]; simpl; [done |].
  pose proof (total_nonneg l). assert (0 <= block_size p) by (unfold block_size; lia).
  rewrite Forall_cons, <- IH. lia.
Qed.

(** When the second critical section of [block_append] lets a producer
    through. *)
Lemma append_commit_outcome q l1 p l2 sum :
  inv q (l1 ++ p :: l2) ->
  if decide (safe_tail_ q = p_start p)
  then exists q',
      append_commit (p_start p) (p_end p) (block_size p) sum q = Done q' /\
      safe_tail_ q' = p_end p /\ safe_size_ q' = safe_size_ q + block_size p /\
      sum_ q' = dadd (sum_ q) (double_of_float sum)
  else append_commit (p_start p) (p_end p) (block_size p) sum q = Blocked.
Proof.
  intros Hinv. unfold append_commit.
  destruct (decide (safe_tail_ q = p_start p)) as [Heq | Hne].
  - rewrite (proj2 (Z.eqb_eq _ _) Heq).
    pose proof Hinv as [Hcap Hhead Hsafe Hsize Htail Hstail _ _ _ Hps _ Htotal].
    apply Forall_app in Hps as [_ Hps]. apply Forall_cons in Hps as [[Hp1 Hp2] _].
    rewrite total_app in Htotal. simpl in Htotal.
    pose proof (total_nonneg l1). pose proof (total_nonneg l2).
    assert (0 <= block_size p) by (unfold block_size; lia).
    cbn [safe_tail_ safe_size_ head_].
    assert (check_size
              {| capacity := capacity q; head_ := head_ q; tail_ := tail_ q;
                 size_ := size_ q; safe_tail_ := p_end p;
                 safe_size_ := safe_size_ q + block_size p;
                 sum_ := dadd (sum_ q) (double_of_float sum); evicted_ := evicted_ q;
                 elements_ := elements_ q; weights_ := weights_ q |}
              (head_ q) (p_end p) (safe_size_ q + block_size p) = true) as ->.
    { rewrite Hp2, <- Heq, Hstail, mod_shift by lia.
      replace (head_ q + safe_size_ q + block_size p)
        with (head_ q + (safe_size_ q + block_size p)) by lia.
      apply (check_size_mod (mk _ _ _ _ _ _ _ _ _ _)); simpl; lia. }
    simpl. eexists. split; [done |]. by simpl.
  - by rewrite (proj2 (Z.eqb_neq _ _) Hne).
Qed.

(** X3.  Commits follow the order of the reservations: a producer with a
    non-empty block leaves the second wait of [block_append] exactly
    when every reservation older than its own is empty, and then its
    commit passes [check_size]; otherwise it waits. *)
Theorem commit_in_reservation_order (cap : Z) (q : ConcurrentQueue.t)
    (l1 : list producer) (p : producer) (l2 : list producer) (sum : float) :
  0 < cap ->
  reachable cap (q, l1 ++ p :: l2) ->
  0 < block_size p ->
  (Forall (fun p' => block_size p' = 0) l1 ->
   exists q',
     append_commit (p_start p) (p_end p) (block_size p) sum q = Done q' /\
     safe_tail_ q' = p_end p /\ safe_size_ q' = safe_size_ q + block_size p /\
     sum_ q' = dadd (sum_ q) (double_of_float sum)) /\
  (~ Forall (fun p' => block_size p' = 0) l1 ->
   append_commit (p_start p) (p_end p) (block_size p) sum q = Blocked).
Proof.
  intros Hcap Hreach Hp. apply reachable_inv in Hreach; [| done]. simpl in Hreach.
  pose proof (append_commit_outcome q l1 p l2 sum Hreach) as Hout.
  pose proof Hreach as [Hc Hhead Hsafe Hsize _ Hstail _ _ _ _ Hchain Htotal].
  assert (0 <= safe_tail_ q < capacity q) as Hst
    by (rewrite Hstail; apply Z.mod_pos_bound; lia).
  pose proof (chain_start _ _ _ _ _ Hc Hst Hp Hchain) as Hstart.
  rewrite total_app in Htotal. simpl in Htotal.
  pose proof (total_nonneg l1). pose proof (total_nonneg l2).
  rewrite <- !total_zero_iff. split.
  - intros Hz. rewrite Hz, Z.add_0_r, Z.mod_small in Hstart by lia.
    by rewrite decide_True in Hout by done.
  - intros Hnz. rewrite decide_False in Hout; [done |].
    intros Heq. rewrite <- Heq in Hstart.
    assert (total l1 < capacity q) by lia.
    pose proof (Z.div_mod (safe_tail_ q + total l1) (capacity q) ltac:(lia)) as Hdm.
    rewrite <- Hstart in Hdm.
    assert ((safe_tail_ q + total l1) / capacity q = 0 \/
            1 <= (safe_tail_ q + total l1) / capacity q) as [Hq | Hq].
    { pose proof (Z.div_pos (safe_tail_ q + total l1) (capacity q)); lia. }
    + rewrite Hq in Hdm. lia.
    + nia.
Qed.

(** X2.  In a state the store can reach, the size assertions of
    [block_append] never fail: the first critical section reserves when
    the block fits and waits when it does not, and the second one
    commits or waits. *)
Theorem append_never_aborts (cap : Z) (q : ConcurrentQueue.t) (ps : list producer) :
  0 < cap ->
  reachable cap (q, ps) ->
  (forall n : nat,
      if size_ q + Z.of_nat n <=? capacity q
      then exists q',
          append_reserve (Z.of_nat n) q
          = Done (q', (tail_ q, (tail_ q + Z.of_nat n) mod capacity q)) /\
          tail_ q' = (tail_ q + Z.of_nat n) mod capacity q /\
          size_ q' = size_ q + Z.of_nat n /\
          safe_tail_ q' = safe_tail_ q /\ safe_size_ q' = safe_size_ q
      else append_reserve (Z.of_nat n) q = Blocked) /\
  (forall p sum,
      p ∈ ps ->
      append_commit (p_start p) (p_end p) (block_size p) sum q <> Fatal).
Proof.
  intros Hcap Hreach. apply reachable_inv in Hreach; [| done]. simpl in Hreach.
  split.
  - intros n. unfold append_reserve.
    pose proof Hreach as [Hc Hhead Hsafe Hsize Htail _ _ _ _ _ _ _].
    destruct (Z.leb_spec (size_ q + Z.of_nat n) (capacity q)) as [Hfit | Hfull]; [| done].
    assert (0 <= tail_ q < capacity q) as Ht
      by (rewrite Htail; apply Z.mod_pos_bound; lia).
    rewrite rem_mod by lia. cbn [head_ tail_ size_].
    assert (check_size
              {| capacity := capacity q; head_ := head_ q;
                 tail_ := (tail_ q + Z.of_nat n) mod capacity q;
                 size_ := size_ q + Z.of_nat n; safe_tail_ := safe_tail_ q;
                 safe_size_ := safe_size_ q; sum_ := sum_ q; evicted_ := evicted_ q;
                 elements_ := elements_ q; weights_ := weights_ q |}
              (head_ q) ((tail_ q + Z.of_nat n) mod capacity q)
              (size_ q + Z.of_nat n) = true) as ->.
    { rewrite Htail, mod_shift by lia.
      replace (head_ q + size_ q + Z.of_nat n)
        with (head_ q + (size_ q + Z.of_nat n)) by lia.
      apply (check_size_mod (mk _ _ _ _ _ _ _ _ _ _)); simpl; lia. }
    simpl. eexists. split; [done |]. by simpl.
  - intros p sum Hin. apply list_elem_of_split in Hin as (l1 & l2 & ->).
    pose proof (append_commit_outcome q l1 p l2 sum Hreach) as Hout.
    destruct (decide (safe_tail_ q = p_start p)).
    + destruct Hout as (q' & -> & _). done.
    + by rewrite Hout.
Qed.

End Store_assertions.

(** ** The store as a queue *)

Section Store_queue.
Context `{E : External}.
Import ConcurrentQueue Interleaving Accounting Described Draining.

Lemma fill_loop_sum_field start block weight_acc : forall i q sum,
  sum_ (fill_loop start i block weight_acc q sum).1 = sum_ q.
Proof.
  induction block as [| x block IH]; intros i q sum; simpl; [done |].
  by rewrite IH.
Qed.

(** The copy loop adds the weights up in [float], in the order of the
    block. *)
Lemma fill_loop_total start block : forall (pre ws : list float) q sum,
  length block = length ws ->
  (fill_loop start (Z.of_nat (length pre)) block (pre ++ ws) q sum).2
  = foldl fadd sum ws.
Proof.
  induction block as [| x block IH]; intros pre ws q sum Hlen;
    destruct ws as [| w ws]; try done.
  cbn [fill_loop foldl].
  pose proof (vget_app_r fzero pre (w :: ws) 0) as Hw.
  rewrite Nat.add_0_r in Hw. rewrite Hw. simpl.
  replace (Z.of_nat (length pre) + 1) with (Z.of_nat (length (pre ++ [w])))
    by (rewrite length_app; simpl; lia).
  replace (pre ++ w :: ws) with ((pre ++ [w]) ++ ws) by (by rewrite <- app_assoc).
  apply IH. simpl in Hlen. lia.
Qed.

Lemma block_append_sum block weights q q' :
  block_append block weights q = Done q' ->
  sum_ q' = dadd (sum_ q) (double_of_float (foldl fadd fzero (values weights))).
Proof.
  unfold block_append. intros H.
  apply bind_Done in H as ([q1 [start end_]] & Hreserve & H).
  apply bind_Done in H as ([q2 sum] & Hfill & Hcommit).
  unfold append_reserve in Hreserve.
  destruct (size_ q + Z.of_nat (length block) <=? capacity q); [| discriminate].
  apply assert_bind_Done in Hreserve as [_ [= <- <- <-]].
  unfold append_fill in Hfill.
  apply assert_bind_Done in Hfill as [_ Hfill].
  apply assert_bind_Done in Hfill as [Hlen Hfill].
  apply Z.eqb_eq in Hlen. unfold size0 in Hlen. apply Nat2Z.inj in Hlen.
  injection Hfill as Hfill.
  pose proof (fill_loop_total (tail_ q) block [] (values weights)) as Htot.
  simpl in Htot. change (Z.of_nat 0) with 0 in Htot.
  pose proof (fill_loop_sum_field (tail_ q) block (values weights) 0) as Hs.
  match type of Hfill with
  | fill_loop _ _ _ _ ?q1 _ = _ =>
      specialize (Htot q1 fzero (eq_sym Hlen)); specialize (Hs q1 fzero)
  end.
  rewrite Hfill in Htot, Hs. simpl in Htot, Hs.
  unfold append_commit in Hcommit.
  destruct (safe_tail_ q2 =? tail_ q); [| discriminate].
  apply assert_bind_Done in Hcommit as [_ [= <-]]. simpl.
  by rewrite Hs, Htot.
Qed.

(** X1.  [block_append] is the enqueue of the ring.  On a store with no
    reservation in flight and weights that match the block, it returns
    when the block fits and waits when it does not; when it returns, the
    records of the block follow the committed ones in their order, each
    with its weight, the running sum has grown by the [float] total of
    the weights, and neither the head nor any evicted flag has changed. *)
Theorem block_append_enqueues (cap : Z) (q : ConcurrentQueue.t)
    (block : list DataType) (weights : Tensor) :
  0 < cap ->
  reachable cap (q, []) ->
  dim weights = 1 -> size0 weights = Z.of_nat (length block) ->
  if size_ q + Z.of_nat (length block) <=? capacity q
  then exists q',
      block_append block weights q = Done q' /\
      reachable cap (q', []) /\
      region q' = region q ++ zip block (values weights) /\
      safe_size_ q' = safe_size_ q + Z.of_nat (length block) /\
      sum_ q' = dadd (sum_ q) (double_of_float (foldl fadd fzero (values weights))) /\
      head_ q' = head_ q /\ evicted_ q' = evicted_ q
  else block_append block weights q = Blocked.
Proof.
  intros Hcap Hreach Hdim Hlen.
  pose proof (reachable_inv _ _ Hcap Hreach) as Hinv. simpl in Hinv.
  assert (size_ q = safe_size_ q) as Hquiet.
  { pose proof (inv_total _ _ Hinv) as Ht. simpl in Ht. lia. }
  pose proof (block_append_outcome block weights q Hinv Hquiet Hdim Hlen) as Hout.
  destruct (size_ q + Z.of_nat (length block) <=? capacity q); [| done].
  destruct Hout as [q' Happend]. exists q'.
  destruct (block_append_region _ _ _ _ Hinv Hquiet Happend) as (_ & _ & Hsafe & Hregion).
  destruct (block_append_effect _ _ _ _ Happend) as (Hhead & _ & Hev).
  split_and!; try done.
  - eapply rtc_trans; [apply Hreach |]. by eapply block_append_path.
  - by eapply block_append_sum.
Qed.

Lemma pop_loop_diff n cap weights : forall evicted head diff,
  0 < cap -> 0 <= head < cap ->
  (pop_loop n cap weights evicted head diff).2
  = foldl (fun d w => dsub d (double_of_float w)) diff
      ((fun k : nat => vget fzero weights ((head + Z.of_nat k) mod cap)) <$> seq 0 n).
Proof.
  induction n as [| n IH]; intros evicted head diff Hcap Hhead; [done |].
  cbn [pop_loop seq fmap list_fmap foldl].
  rewrite Z.add_0_r, (Z.mod_small head) by lia.
  rewrite rem_mod by lia. rewrite IH by (try apply Z.mod_pos_bound; lia).
  f_equal. rewrite <- fmap_S_seq, <- list_fmap_compose.
  apply list_fmap_ext. intros i k _. simpl.
  rewrite mod_shift by lia. do 2 f_equal. lia.
Qed.

(** X5.  [block_pop] is the dequeue of the ring.  With [0 <= n] and at most
    the committed size, it returns, the committed records lose their [n]
    oldest, these slots are flagged evicted and their weights leave the
    running sum one by one; above the committed size its assertion
    fails. *)
Theorem block_pop_dequeues (cap : Z) (q : ConcurrentQueue.t) (ps : list producer) (n : Z) :
  0 < cap ->
  reachable cap (q, ps) ->
  0 <= n ->
  if n <=? safe_size_ q
  then exists q',
      block_pop n q = Done q' /\
      reachable cap (q', ps) /\
      region q' = drop (Z.to_nat n) (region q) /\
      safe_size_ q' = safe_size_ q - n /\ size_ q' = size_ q - n /\
      sum_ q' = dadd (sum_ q)
                  (foldl (fun d w => dsub d (double_of_float w)) dzero
                     (take (Z.to_nat n) (region q)).*2) /\
      (forall k : nat, Z.of_nat k < n ->
                       vget false (evicted_ q') (slot_id q k) = true)
  else block_pop n q = Fatal.
Proof.
  intros Hcap Hreach Hn.
  pose proof (reachable_inv _ _ Hcap Hreach) as Hinv. simpl in Hinv.
  destruct (Z.leb_spec n (safe_size_ q)) as [Hle | Hgt];
    [| by apply block_pop_too_many].
  destruct (block_pop_Done q ps n Hinv ltac:(lia)) as [q' Hpop].
  exists q'. split; [done |].
  pose proof (block_pop_spec _ _ _ _ Hinv Hn Hpop)
    as (Hs & Hss & Hh & _ & _ & Hc & He & Hw & Hmark & _).
  pose proof Hinv as [Hcapq Hhead Hsafe _ _ _ _ _ _ _ _ _].
  split_and!; try done.
  - eapply rtc_r; [apply Hreach |]. by apply (step_pop q ps n q').
  - assert (forall k : nat, slot_id q' k = slot_id q (Z.to_nat n + k)) as Hslot.
    { intros k. unfold slot_id. rewrite Hc, Hh, !rem_mod, mod_shift; try lia.
      - f_equal. lia.
      - pose proof (Z.mod_pos_bound (head_ q + n) (capacity q)). lia. }
    unfold region. rewrite Hss, <- fmap_drop, drop_seq.
    replace (Z.to_nat (safe_size_ q) - Z.to_nat n)%nat
      with (Z.to_nat (safe_size_ q - n)) by lia.
    replace (0 + Z.to_nat n)%nat with (Z.to_nat n + 0)%nat by lia.
    rewrite <- (fmap_add_seq (Z.to_nat n) 0), <- list_fmap_compose.
    apply list_fmap_ext. intros i k _. simpl.
    unfold slot_element, slot_weight. by rewrite Hslot, He, Hw.
  - unfold block_pop in Hpop.
    pose proof (pop_loop_diff (Z.to_nat n) (capacity q) (weights_ q) (evicted_ q)
                  (head_ q) dzero Hcapq Hhead) as Hdiff.
    destruct (pop_loop _ _ _ _ _ _) as [[evicted head] diff]. simpl in Hdiff.
    apply assert_bind_Done in Hpop as [_ Hpop].
    apply assert_bind_Done in Hpop as [_ [= <-]]. simpl.
    rewrite Hdiff. do 2 f_equal.
    unfold region. rewrite <- fmap_take, take_seq, <- list_fmap_compose.
    replace (Z.to_nat n `min` Z.to_nat (safe_size_ q))%nat with (Z.to_nat n) by lia.
    apply list_fmap_ext. intros i k _. simpl. unfold slot_weight.
    by rewrite slot_id_mod by lia.
Qed.

End Store_queue.

(** ** The configuration of a replay *)

Section Replay_configuration.
Context `{E : External}.
Import ConcurrentQueue PrioritizedReplay Interleaving Accounting Described.

Lemma block_pop_fields n q q' :
  block_pop n q = Done q' ->
  capacity q' = capacity q /\ tail_ q' = tail_ q /\ safe_tail_ q' = safe_tail_ q /\
  elements_ q' = elements_ q /\ weights_ q' = weights_ q.
Proof.
  unfold block_pop. destruct (pop_loop _ _ _ _ _ _) as [[evicted head] diff].
  intros H. apply assert_bind_Done in H as [_ H].
  apply assert_bind_Done in H as [_ [= <-]]. done.
Qed.

(** What [sample_] leaves as it is in the store. *)
Lemma sample__store_fields batchsize device r r' res :
  sample_ batchsize device r = Done (r', res) ->
  capacity (storage_ r') = capacity (storage_ r) /\
  tail_ (storage_ r') = tail_ (storage_ r) /\
  safe_tail_ (storage_ r') = safe_tail_ (storage_ r) /\
  elements_ (storage_ r') = elements_ (storage_ r) /\
  weights_ (storage_ r') = weights_ (storage_ r).
Proof.
  destruct res as [[batch weights] ids]. intros H.
  apply sample__spec in H
    as (_ & _ & ks & qs & _ & _ & _ & _ & _ & Hc & Hw & He & Hpop & _).
  destruct Hc as (Hcap & _ & Ht & _ & Hst & _).
  destruct (size_ (storage_ r) >? capacity_ r).
  - apply block_pop_fields in Hpop as (-> & -> & -> & -> & ->). done.
  - by rewrite Hpop.
Qed.

Lemma get_new_content_fields r r' out :
  get_new_content r = Done (r', out) ->
  capacity (storage_ r') = capacity (storage_ r) /\
  capacity_ r' = capacity_ r /\ alpha_ r' = alpha_ r /\ beta_ r' = beta_ r /\
  prefetch_ r' = prefetch_ r /\ num_add_ r' = num_add_ r /\
  last_query_ r' = num_add_ r.
Proof.
  unfold get_new_content. intros H.
  apply bind_Done in H as (weights & Hones & H).
  unfold ones in Hones. destruct (num_add_ r - last_query_ r <? 0) eqn:Hneg; [discriminate |].
  destruct (Z.eqb_spec (num_add_ r - last_query_ r) 0) as [Hz | Hnz].
  - injection H as <- _. split_and!; try done. lia.
  - apply Z.ltb_ge in Hneg.
    pose proof (drain_loop_spec (storage_ r) (Z.to_nat (num_add_ r - last_query_ r)) 0
                  (storage_ r) [] weights (last_query_ r) eq_refl eq_refl eq_refl eq_refl)
      as (qm & Hloop & Hc & _).
    change (Z.of_nat 0) with 0 in Hloop. rewrite Hloop in H.
    apply bind_Done in H as (q' & Hpop & H). injection H as <- _. simpl.
    apply block_pop_fields in Hpop as (-> & _).
    destruct Hc as (-> & _). split_and!; try done. lia.
Qed.

(** No step changes the exponents, the prefetch depth or either
    capacity. *)
Lemma rstep_configuration s s' :
  rstep s s' ->
  capacity_ s'.1 = capacity_ s.1 /\ alpha_ s'.1 = alpha_ s.1 /\
  beta_ s'.1 = beta_ s.1 /\ prefetch_ s'.1 = prefetch_ s.1 /\
  capacity (storage_ s'.1) = capacity (storage_ s.1).
Proof.
  intros Hstep. destruct Hstep; simpl.
  - unfold append_reserve in H1.
    destruct (size_ (storage_ r) + _ <=? capacity (storage_ r)); [| discriminate].
    apply assert_bind_Done in H1 as [_ [= <- _ _]]. done.
  - apply append_fill_counters in H0 as (-> & _). done.
  - unfold append_commit in H0.
    destruct (safe_tail_ (storage_ r) =? p_start p); [| discriminate].
    apply assert_bind_Done in H0 as [_ [= <-]]. done.
  - done.
  - unfold sample in H. destruct (sampled_ids_ r); [| discriminate].
    assert (forall r0 r1 res,
               sample_ batchsize device r0 = Done (r1, res) ->
               capacity_ r1 = capacity_ r0 /\ alpha_ r1 = alpha_ r0 /\
               beta_ r1 = beta_ r0 /\ prefetch_ r1 = prefetch_ r0 /\
               capacity (storage_ r1) = capacity (storage_ r0)) as Hs.
    { intros r0 r1 res H0.
      pose proof (sample__fields _ _ _ _ _ H0) as (-> & -> & -> & -> & _).
      pose proof (sample__store_fields _ _ _ _ _ H0) as (-> & _). done. }
    destruct (prefetch_ r =? 0).
    + apply bind_Done in H as ([r1 [[batch priority] ids]] & H1 & [= <- _]).
      simpl. by apply Hs in H1.
    + apply bind_Done in H as ([r1 [[batch priority] ids]] & H1 & [= <- _]).
      simpl. destruct (futures_ r) as [| [b d | res] rest].
      * by apply Hs in H1.
      * simpl in H1.
        pose proof (sample__fields _ _ _ _ _ H1) as (-> & -> & -> & -> & _).
        pose proof (sample__store_fields _ _ _ _ _ H1) as (-> & _). done.
      * by injection H1 as <- _.
  - pose proof (sample__fields _ _ _ _ _ H0) as (-> & -> & -> & -> & _).
    pose proof (sample__store_fields _ _ _ _ _ H0) as (-> & _). done.
  - apply update_priority_Done in H as (_ & _ & ->). simpl.
    by destruct (update_counters (sampled_ids_ r)
                   ((fun p => torch_pow p (alpha_ r)) <$> values priority) (storage_ r))
      as (-> & _).
  - done.
  - by apply get_new_content_fields in H as (-> & -> & -> & -> & -> & _).
Qed.

Lemma rreachable_configuration capacity0 seed alpha beta prefetch s :
  rreachable capacity0 seed alpha beta prefetch s ->
  capacity_ s.1 = capacity0 /\ alpha_ s.1 = alpha /\ beta_ s.1 = beta /\
  prefetch_ s.1 = prefetch /\
  capacity (storage_ s.1) = storage_capacity capacity0.
Proof.
  intros Hr. unfold rreachable in Hr. revert s Hr.
  apply (rtc_ind_r (fun s =>
           capacity_ s.1 = capacity0 /\ alpha_ s.1 = alpha /\ beta_ s.1 = beta /\
           prefetch_ s.1 = prefetch /\
           capacity (storage_ s.1) = storage_capacity capacity0)).
  - done.
  - intros s s' _ Hstep (H1 & H2 & H3 & H4 & H5).
    apply rstep_configuration in Hstep as (-> & -> & -> & -> & ->). done.
Qed.

(** X9.  For a nominal capacity [c] from 1 to 1717986918, the largest for
    which [int(1.25 * c)] is defined: the constructor's arguments stay
    what they were, the store keeps the physical capacity the
    constructor gave it, and so the overflow that a sample finds above
    the nominal capacity is at most a quarter of it: [floor(c / 4)]
    slots. *)
Theorem overflow_headroom (capacity0 seed : Z) (alpha beta : float) (prefetch : Z)
    (r : PrioritizedReplay.t) (l : list rstage) :
  0 < capacity0 <= 1717986918 ->
  rreachable capacity0 seed alpha beta prefetch (r, l) ->
  (capacity_ r = capacity0 /\ alpha_ r = alpha /\ beta_ r = beta /\
   prefetch_ r = prefetch) /\
  capacity (storage_ r) = capacity0 + capacity0 / 4 /\
  0 <= safe_size_ (storage_ r) <= size_ (storage_ r) /\
  size_ (storage_ r) - capacity_ r <= capacity0 / 4 /\
  (capacity0 < 4 -> size_ (storage_ r) <= capacity_ r).
Proof.
  intros Hcap Hreach.
  pose proof (rreachable_configuration _ _ _ _ _ _ Hreach) as (Hc & Ha & Hb & Hp & Hs).
  apply rreachable_inv in Hreach; [| lia]. simpl in *.
  rewrite storage_capacity_floor in Hs by lia.
  assert (5 * capacity0 / 4 = capacity0 + capacity0 / 4) as Hq.
  { replace (5 * capacity0) with (capacity0 + capacity0 * 4) by lia.
    rewrite Z.div_add by lia. pose proof (Z.div_small capacity0 4). lia. }
  destruct Hreach as [_ _ Hsafe Hsize _ _ _ _ _ _ _ _].
  rewrite Hs, Hq in Hsize. rewrite Hs, Hq, Hc.
  split_and!; try done; try lia.
  intros Hsmall. rewrite Z.div_small in Hsize by lia. lia.
Qed.

End Replay_configuration.

(** ** What a sample marks *)

Section Sample_flags.
Context `{E : External}.
Import ConcurrentQueue PrioritizedReplay Interleaving Accounting Described Scanning.

Lemma slot_id_range q (k : nat) :
  0 < capacity q -> 0 <= head_ q -> 0 <= slot_id q k < capacity q.
Proof.
  intros Hcap Hhead. rewrite slot_id_mod by lia. apply Z.mod_pos_bound. lia.
Qed.

(** Two committed slots at different offsets are different slots. *)
Lemma slot_id_inj q (k k' : nat) :
  0 < capacity q -> 0 <= head_ q ->
  Z.of_nat k < capacity q -> Z.of_nat k' < capacity q ->
  slot_id q k = slot_id q k' -> k = k'.
Proof.
  intros Hcap Hhead Hk Hk'. rewrite !slot_id_mod by lia. intros Heq.
  destruct (Nat.lt_trichotomy k k') as [Hlt | [-> | Hgt]]; [| done |]; exfalso.
  - apply (mod_ne (capacity q) (head_ q + Z.of_nat k) (Z.of_nat k' - Z.of_nat k));
      [lia | lia |].
    rewrite Heq. f_equal. lia.
  - apply (mod_ne (capacity q) (head_ q + Z.of_nat k') (Z.of_nat k - Z.of_nat k'));
      [lia | lia |].
    rewrite <- Heq. f_equal. lia.
Qed.

Lemma take_flags q i s k s' :
  scan_inv q s (S k) -> take i s = Done s' ->
  evicted_ (store s') = vset (evicted_ (store s)) (slot_id q k) false.
Proof.
  intros (Hc & Hw & He & Hn & Ha & Hlast). unfold take. rewrite Hn.
  destruct (Z.leb_spec 1 (Z.of_nat (S k))) as [_ | Hlt]; [| lia]. simpl.
  unfold get_element_and_mark.
  replace (Z.of_nat (S k) - 1) with (Z.of_nat k) by lia.
  rewrite (slot_id_store q s k Hc). by intros [= <-].
Qed.

(** The scan clears the evicted flag of every slot it selects and
    leaves the other flags as they are. *)
Lemma scan_for_flags q size sum segment g0 n : forall (i : nat) s k ks s' g',
  0 < capacity q -> 0 <= head_ q ->
  scan_inv q s k -> (k <= size)%nat ->
  length (evicted_ (store s)) = Z.to_nat (capacity q) ->
  cursors q size sum segment g0 n i k = Some ks ->
  scan_for n (Z.of_nat size) sum segment (Z.of_nat i) (rng_after segment i g0) s
  = Done (s', g') ->
  (forall k', k' ∈ ks -> vget false (evicted_ (store s')) (slot_id q (pred k')) = false) /\
  (forall j, (forall k', k' ∈ ks -> j <> slot_id q (pred k')) ->
             vget false (evicted_ (store s')) j = vget false (evicted_ (store s)) j).
Proof.
  induction n as [| n IH]; intros i s k ks s' g' Hcap Hhead Hinv Hk Hlen Hks Hrun.
  - simpl in Hks, Hrun. injection Hks as <-. injection Hrun as <- _.
    split; [intros k' Hin; by apply elem_of_nil in Hin | done].
  - cbn [cursors scan_for] in Hks, Hrun. rewrite draw_spec in Hrun.
    pose proof Hinv as (_ & _ & _ & Hn & _).
    rewrite Hn in Hrun.
    destruct (Z.leb_spec (Z.of_nat k) (Z.of_nat size)) as [_ | Hlt]; [| lia].
    replace (Z.to_nat (Z.of_nat size - Z.of_nat k)) with (size - k)%nat in Hrun by lia.
    pose proof (scan_while_spec q (stratified_draw sum segment g0 i) (Z.of_nat i)
                  (size - k) s k Hinv) as Hwhile.
    destruct (first_crossing q (stratified_draw sum segment g0 i) (size - k) k)
      as [k1 |] eqn:Hfc; simpl in Hks; [| done].
    destruct Hwhile as (s1 & Hinv1 & _ & _ & _ & Hst1 & Hwhile).
    pose proof (first_crossing_positive _ _ _ _ _ Hfc) as Hpos.
    apply first_crossing_Some in Hfc as (Hrange & _).
    destruct k1 as [| k0]; [lia |].
    destruct (take_spec q (Z.of_nat i) s1 k0 Hinv1) as (s2 & Htake & Hinv2 & _).
    pose proof (take_flags q _ _ _ _ Hinv1 Htake) as Hev2. rewrite Hst1 in Hev2.
    rewrite Hwhile, Htake in Hrun. simpl in Hrun.
    destruct (cursors q size sum segment g0 n (S i) (S k0)) as [ks' |] eqn:Hrest;
      simpl in Hks; [| done].
    injection Hks as <-.
    replace (Z.of_nat i + 1) with (Z.of_nat (S i)) in Hrun by lia.
    destruct (IH (S i) s2 (S k0) ks' s' g' Hcap Hhead Hinv2 ltac:(lia)
                ltac:(rewrite Hev2, vset_length; done) Hrest Hrun) as [Hclear Hkeep].
    pose proof (slot_id_range q k0 Hcap Hhead) as Hr0.
    split.
    + intros k' Hin. apply elem_of_cons in Hin as [-> | Hin]; [| by apply Hclear].
      simpl.
      destruct (decide (slot_id q k0 ∈ (fun k'' => slot_id q (pred k'')) <$> ks'))
        as [Hin | Hnone].
      * apply list_elem_of_fmap in Hin as (k'' & -> & Hin). by apply Hclear.
      * rewrite Hkeep.
        -- rewrite Hev2. apply vget_vset_eq. lia.
        -- intros k'' Hin Heq. apply Hnone. apply list_elem_of_fmap. by exists k''.
    + intros j Hj. rewrite Hkeep.
      * rewrite Hev2. apply vget_vset_ne. intros Heq.
        apply (Hj (S k0)); [by left | by simpl].
      * intros k' Hin. apply Hj. by right.
Qed.

Lemma sample__flags batchsize device r r' batch weights ids ps :
  inv (storage_ r) ps ->
  sample_ batchsize device r = Done (r', (batch, weights, ids)) ->
  let q := storage_ r in
  exists qs,
    same_counters q qs /\
    (forall j, j ∈ ids -> vget false (evicted_ qs) j = false) /\
    (forall j, j ∉ ids -> vget false (evicted_ qs) j = vget false (evicted_ q) j) /\
    (if size_ q >? capacity_ r
     then block_pop (size_ q - capacity_ r) qs = Done (storage_ r')
     else storage_ r' = qs).
Proof.
  intros Hinv H q. pose proof H as Hspec.
  apply sample__spec in Hspec as (Hb & Hsize & ks & _ & Hks & Hids & _).
  fold q in Hsize, Hks, Hids.
  unfold sample_ in H. simpl in H. fold q in H.
  apply bind_Done in H as (zs & Hzeros & H).
  unfold zeros in Hzeros.
  destruct (Z.ltb_spec batchsize 0) as [Hneg | _]; [discriminate |].
  injection Hzeros as <-.
  set (s0 := scan_start batchsize (replicate (Z.to_nat batchsize) fzero) r).
  apply bind_Done in H as ([s g] & Hscan & H).
  change (scan_for (Z.to_nat batchsize) (safe_size_ q) (float_of_double (sum_ q))
            (fdiv (float_of_double (sum_ q)) (float_of_int batchsize)) 0 (rng_ r) s0
          = Done (s, g)) in Hscan.
  apply assert_bind_Done in H as [_ H].
  apply bind_Done in H as (q' & Hpop & H).
  apply bind_Done in H as (ws & _ & H).
  injection H as <- _ _ _. simpl.
  pose proof Hinv as [Hcap Hhead _ _ _ _ Hev _ _ _ _ _]. fold q in Hcap, Hhead, Hev.
  pose proof (scan_for_counters _ _ _ _ _ _ _ _ _ Hscan) as Hc.
  change (store s0) with q in Hc.
  rewrite <- (Z2Nat.id (safe_size_ q)) in Hscan by lia.
  destruct (scan_for_flags q _ _ _ (rng_ r) _ 0 s0 0 ks s g Hcap ltac:(lia)
              (scan_start_inv _ _ r) ltac:(lia) Hev Hks Hscan) as [Hclear Hkeep].
  exists (store s). split_and!.
  - done.
  - intros j Hj. rewrite Hids in Hj.
    apply list_elem_of_fmap in Hj as (k' & -> & Hin). by apply Hclear.
  - intros j Hj. apply Hkeep. intros k' Hin ->. apply Hj. rewrite Hids.
    apply list_elem_of_fmap. by exists k'.
  - unfold ConcurrentQueue.size in Hpop.
    destruct Hc as (_ & _ & _ & Hsz & _). rewrite Hsz in Hpop.
    destruct (size_ q >? capacity_ r); [done |]. by injection Hpop as <-.
Qed.

Lemma sample__slots batchsize device r r' batch weights ids ps :
  inv (storage_ r) ps ->
  sample_ batchsize device r = Done (r', (batch, weights, ids)) ->
  let q := storage_ r in
  let excess := Z.max 0 (size_ q - capacity_ r) in
  Z.of_nat (length ids) = batchsize /\
  Forall (fun id =>
            0 <= id < Z.of_nat (length (weights_ q)) /\
            exists k : nat,
              Z.of_nat k < safe_size_ q /\ id = slot_id q k /\
              vget false (evicted_ (storage_ r')) id = (Z.of_nat k <? excess)) ids.
Proof.
  intros Hreach H q excess. fold q in Hreach.
  pose proof (sample__flags _ _ _ _ _ _ _ _ Hreach H) as (qs & Hc & Hclear & _ & Hpop).
  fold q in Hc, Hpop.
  pose proof (inv_same_counters _ _ _ Hc Hreach) as Hinvs.
  pose proof Hreach as [Hcap Hhead Hsafe Hsize _ _ _ _ Hwt _ _ _].
  apply sample__spec in H as (Hb & _ & ks & _ & Hks & Hids & _).
  fold q in Hks, Hids.
  apply cursors_spec in Hks as [Hlen Hcur]; [| lia].
  split; [rewrite Hids, length_fmap, Hlen; lia |].
  apply Forall_forall. intros id Hin.
  pose proof (Hclear id Hin) as Hflag.
  rewrite Hids in Hin. apply list_elem_of_fmap in Hin as (k1 & -> & Hin).
  apply list_elem_of_lookup in Hin as [i Hi].
  destruct (Hcur i k1 Hi) as (Hrange & Hpos & _).
  destruct k1 as [| k]; [lia |]. simpl in *.
  pose proof (slot_id_range q k Hcap ltac:(lia)) as Hr.
  split; [rewrite Hwt; lia |].
  exists k. split; [lia |]. split; [done |].
  assert (forall k0 : nat, slot_id qs k0 = slot_id q k0) as Hslot.
  { intros k0. unfold slot_id. by destruct Hc as (-> & -> & _). }
  destruct (Z.gtb_spec (size_ q) (capacity_ r)) as [Hgt | Hle].
  - apply (block_pop_spec _ _ _ _ Hinvs) in Hpop
      as (_ & _ & _ & _ & _ & _ & _ & _ & Hmark & Hrest); [| lia].
    replace excess with (size_ q - capacity_ r) by lia.
    destruct (Z.ltb_spec (Z.of_nat k) (size_ q - capacity_ r)) as [Hlt | Hge].
    + rewrite <- Hslot. by apply Hmark.
    + rewrite Hrest; [done |].
      intros k0 Hk0 Heq. rewrite Hslot in Heq.
      apply slot_id_inj in Heq; lia.
  - rewrite Hpop. replace excess with 0 by lia.
    destruct (Z.ltb_spec (Z.of_nat k) 0) as [Hlt | _]; [lia | done].
Qed.

(** X10.  The ids that a sample returns are the physical indices of committed
    slots, inside the vectors of the store; when the sample returns, the
    evicted flag of such a slot is clear, unless the overflow pop of this
    sample has removed the slot. *)
Theorem sampled_slots (capacity0 seed : Z) (alpha beta : float) (prefetch : Z)
    (r : PrioritizedReplay.t) (l : list rstage) (batchsize : Z) (device : string)
    (r' : PrioritizedReplay.t) (batch : DataType) (weights : Tensor) (ids : list Z) :
  0 < capacity0 < 2 ^ 31 ->
  rreachable capacity0 seed alpha beta prefetch (r, l) ->
  sample_ batchsize device r = Done (r', (batch, weights, ids)) ->
  let q := storage_ r in
  let excess := Z.max 0 (size_ q - capacity_ r) in
  Z.of_nat (length ids) = batchsize /\
  Forall (fun id =>
            0 <= id < Z.of_nat (length (weights_ q)) /\
            exists k : nat,
              Z.of_nat k < safe_size_ q /\ id = slot_id q k /\
              vget false (evicted_ (storage_ r')) id = (Z.of_nat k <? excess)) ids.
Proof.
  intros Hcap0 Hreach H.
  apply rreachable_inv in Hreach; [| done]. simpl in Hreach.
  by apply (sample__slots _ _ _ _ _ _ _ _ Hreach H).
Qed.

(** What [update] writes: the last weight given for an id that is in
    range and not flagged, nothing for a flagged id or an id it was not
    given. *)
Lemma update_writes ids ws q :
  length ws = length ids ->
  let q' := update_weights ids ws q in
  (forall (i : nat) j w,
      ids !! i = Some j -> ws !! i = Some w ->
      vget false (evicted_ q) j = false ->
      0 <= j < Z.of_nat (length (weights_ q)) ->
      (forall i' : nat, (i < i')%nat -> ids !! i' <> Some j) ->
      vget fzero (weights_ q') j = w) /\
  (forall j, vget false (evicted_ q) j = true ->
             vget fzero (weights_ q') j = vget fzero (weights_ q) j) /\
  (forall j, j ∉ ids -> vget fzero (weights_ q') j = vget fzero (weights_ q) j).
Proof.
  intros Hlen q'.
  pose proof (update_loop_spec ids [] ws q dzero Hlen) as Hloop.
  change (Z.of_nat (length [])) with 0 in Hloop.
  change ([] ++ ws) with ws in Hloop.
  set (live := live_updates q ids ws) in *.
  assert (weights_ q' = apply_updates (weights_ q) live) as ->
    by (unfold q', update_weights; by rewrite Hloop).
  pose proof (live_updates_not_evicted q ids ws) as Hlive.
  fold live in Hlive.
  split_and!.
  - intros i j w Hi Hw Hev Hj Hlast.
    assert (zip ids ws
            = zip (firstn i ids) (firstn i ws) ++ (j, w)
                :: zip (drop (S i) ids) (drop (S i) ws)) as Hzip.
    { rewrite <- (take_drop_middle ids i j Hi) at 1.
      rewrite <- (take_drop_middle ws i w Hw) at 1.
      rewrite zip_with_app; [done |].
      rewrite !length_take. lia. }
    unfold live, live_updates. rewrite Hzip, filter_app, filter_cons.
    simpl. rewrite decide_True by done.
    apply apply_updates_last; [done |].
    apply Forall_forall. intros p Hp Heq.
    apply list_elem_of_filter in Hp as [_ Hp].
    apply (list_elem_of_fmap_2 fst) in Hp. rewrite fst_zip in Hp
      by (rewrite !length_drop; lia).
    apply list_elem_of_lookup in Hp as [k Hk]. rewrite lookup_drop in Hk.
    apply (Hlast (S i + k)%nat); [lia | by rewrite <- Heq].
  - intros j Hj. apply apply_updates_other.
    eapply Forall_impl; [apply Hlive |]. intros p Hp Heq. simpl in Hp. congruence.
  - intros j Hj. apply apply_updates_other.
    apply Forall_forall. intros p Hp Heq. apply Hj.
    eapply sublist_subseteq; [apply (live_updates_ids q ids ws) |].
    apply list_elem_of_fmap. by exists p.
Qed.

(** X14.  [update_priority] after [sample]: given as many priorities as the
    batch has records, it returns, clears [sampled_ids_] and writes
    [priority^alpha] to every sampled slot that the overflow pop of the
    sample has left in the store (for a slot sampled more than once, the
    priority given last); the slots popped and the slots not sampled keep
    their weights. *)
Theorem update_after_sample (capacity0 seed : Z) (alpha beta : float) (prefetch : Z)
    (r : PrioritizedReplay.t) (l : list rstage) (batchsize : Z) (device : string)
    (r1 : PrioritizedReplay.t) (out : DataType * Tensor) (priority : Tensor) :
  0 < capacity0 < 2 ^ 31 ->
  rreachable capacity0 seed alpha beta prefetch (r, l) ->
  prefetch_ r = 0 ->
  sample batchsize device r = Done (r1, out) ->
  dim priority = 1 -> size0 priority = batchsize ->
  let q := storage_ r in
  let excess := Z.max 0 (size_ q - capacity_ r) in
  exists r2,
    update_priority priority r1 = Done r2 /\
    sampled_ids_ r2 = [] /\
    (forall (i k : nat) p,
        sampled_ids_ r1 !! i = Some (slot_id q k) -> Z.of_nat k < safe_size_ q ->
        values priority !! i = Some p ->
        (forall i' : nat, (i < i')%nat -> sampled_ids_ r1 !! i' <> Some (slot_id q k)) ->
        vget fzero (weights_ (storage_ r2)) (slot_id q k)
        = if Z.of_nat k <? excess then slot_weight q k else torch_pow p (alpha_ r)) /\
    (forall j, j ∉ sampled_ids_ r1 ->
               vget fzero (weights_ (storage_ r2)) j = vget fzero (weights_ q) j).
Proof.
  intros Hcap0 Hreach Hpre Hs Hdim Hlen q excess.
  apply rreachable_inv in Hreach; [| done]. simpl in Hreach. fold q in Hreach.
  unfold sample in Hs. destruct (sampled_ids_ r); [| discriminate].
  rewrite Hpre in Hs. simpl in Hs.
  apply bind_Done in Hs as ([r' [[batch ws] ids]] & Hs & [= <- _]).
  pose proof (sample__slots _ _ _ _ _ _ _ _ Hreach Hs) as [Hn Hslots].
  fold q in Hslots.
  pose proof (sample__fields _ _ _ _ _ Hs) as (Ha & _).
  pose proof (sample__store_fields _ _ _ _ _ Hs) as (_ & _ & _ & _ & Hw).
  fold q in Hw.
  pose proof Hreach as [Hcap Hhead Hsafe Hsize _ _ _ _ Hwt _ _ _].
  unfold update_priority, ConcurrentQueue.update. simpl.
  rewrite (proj2 (Z.eqb_eq _ _) Hdim). simpl.
  assert ((Z.of_nat (length ids) =? size0 priority) = true) as ->
    by (apply Z.eqb_eq; lia).
  simpl. eexists. split; [done |]. simpl. split; [done |].
  assert (length ((fun p => torch_pow p (alpha_ r')) <$> values priority) = length ids)
    as Hlen'.
  { rewrite length_fmap. unfold size0 in Hlen. lia. }
  pose proof (update_writes ids ((fun p => torch_pow p (alpha_ r')) <$> values priority)
                (storage_ r') Hlen')
    as (Hwrite & Hskip & Hother).
  split.
  - intros i k p Hi Hk Hp Hlast.
    assert (slot_id q k ∈ ids) as Hin by (apply list_elem_of_lookup; by exists i).
    pose proof (proj1 (Forall_forall _ _) Hslots _ Hin) as (Hr & k' & Hk' & Heq & Hflag).
    apply slot_id_inj in Heq as <-; [| lia | lia | lia | lia].
    fold excess in Hflag. revert Hflag.
    destruct (Z.of_nat k <? excess); intros Hflag.
    + rewrite Hskip by done. unfold slot_weight. by rewrite Hw.
    + rewrite (Hwrite i (slot_id q k) (torch_pow p (alpha_ r'))); try done.
      * by rewrite Ha.
      * simpl. by rewrite list_lookup_fmap, Hp.
      * by rewrite Hw.
  - intros j Hj. rewrite Hother by done. by rewrite Hw.
Qed.

End Sample_flags.

(** ** Calls that cannot be served *)

Section Sample_edges.
Context `{E : External}.
Import ConcurrentQueue PrioritizedReplay Interleaving Accounting Described Scanning.

Lemma block_pop_not_blocked n q : block_pop n q <> Blocked.
Proof.
  unfold block_pop. destruct (pop_loop _ _ _ _ _ _) as [[evicted head] diff].
  simpl. destruct (0 <=? safe_size_ q - n); [| done]. simpl.
  by destruct (check_size _ _ _ _).
Qed.

Lemma scan_while_not_blocked rem rand i : forall s, scan_while rem rand i s <> Blocked.
Proof.
  induction rem as [| rem IH]; intros s; simpl.
  - destruct (crossed (acc_sum s) rand); [| done].
    unfold take. by destruct (1 <=? next_idx s).
  - destruct (crossed (acc_sum s) rand); [| apply IH].
    unfold take. by destruct (1 <=? next_idx s).
Qed.

Lemma scan_for_not_blocked n size sum segment : forall i g s,
  scan_for n size sum segment i g s <> Blocked.
Proof.
  induction n as [| n IH]; intros i g s; simpl; [done |].
  destruct (draw sum segment i g) as [rand g1].
  destruct (next_idx s <=? size); simpl; [| apply IH].
  pose proof (scan_while_not_blocked (Z.to_nat (size - next_idx s)) rand i s) as Hw.
  destruct (scan_while _ rand i s); simpl; [apply IH | done | done].
Qed.

Lemma importance_not_blocked size sum beta ws : importance size sum beta ws <> Blocked.
Proof. unfold importance. by destruct ws. Qed.

(** [sample_] waits for nothing: it returns or aborts. *)
Lemma sample__not_blocked batchsize device r : sample_ batchsize device r <> Blocked.
Proof.
  unfold sample_. simpl. unfold zeros.
  destruct (batchsize <? 0); [done |]. simpl.
  match goal with
  | |- context [scan_for ?n ?size ?sum ?seg ?i ?g ?s] =>
      pose proof (scan_for_not_blocked n size sum seg i g s) as Hs;
      destruct (scan_for n size sum seg i g s) as [[s1 g1] | |]; [| done | done]
  end.
  simpl. destruct (Z.of_nat (length (samples s1)) =? batchsize); [| done]. simpl.
  destruct (ConcurrentQueue.size (store s1) >? capacity_ r).
  - pose proof (block_pop_not_blocked
                  (ConcurrentQueue.size (store s1) - capacity_ r) (store s1)) as Hp.
    destruct (block_pop _ (store s1)); [| done | done]. simpl.
    match goal with
    | |- context [importance ?a ?b ?c ?d] =>
        pose proof (importance_not_blocked a b c d) as Hi;
        by destruct (importance a b c d)
    end.
  - simpl.
    match goal with
    | |- context [importance ?a ?b ?c ?d] =>
        pose proof (importance_not_blocked a b c d) as Hi;
        by destruct (importance a b c d)
    end.
Qed.

(** X12.  A sample of no records, or from a store without committed records,
    aborts: [sample_] for every such call, and [sample] unless a
    prefetched result is waiting. *)
Theorem sample_needs_records (batchsize : Z) (device : string) (r : PrioritizedReplay.t) :
  batchsize <= 0 \/ safe_size_ (storage_ r) <= 0 ->
  sample_ batchsize device r = Fatal /\
  (futures_ r = [] -> sample batchsize device r = Fatal).
Proof.
  intros Hedge.
  assert (sample_ batchsize device r = Fatal) as Hs.
  { pose proof (sample__not_blocked batchsize device r) as Hnb.
    destruct (sample_ batchsize device r) as [[r' [[batch weights] ids]] | |] eqn:H;
      [exfalso | done | done].
    apply sample__spec in H as (Hb & Hsize & ks & _ & Hks & _).
    apply cursors_spec in Hks as [Hlen Hcur]; [| lia].
    destruct ks as [| k ks]; [simpl in Hlen; lia |].
    destruct (Hcur 0%nat k eq_refl) as (Hrange & Hpos & _). lia. }
  split; [done |].
  intros Hf. unfold sample. destruct (sampled_ids_ r); [| done].
  rewrite Hf. destruct (prefetch_ r =? 0); by rewrite Hs.
Qed.

(** X16.  [get_new_content] right after [get_new_content] finds nothing new:
    it returns no record and changes nothing. *)
Theorem get_new_content_twice (r r' : PrioritizedReplay.t) (out : Z * DataType * Tensor) :
  get_new_content r = Done (r', out) ->
  out.1.1 = num_add_ r - last_query_ r /\
  last_query_ r' = num_add_ r' /\
  get_new_content r' = Done (r', (0, default_data, tensor1 [])).
Proof.
  intros H.
  pose proof (get_new_content_fields _ _ _ H) as (_ & _ & _ & _ & _ & Hn & Hl).
  split_and!.
  - unfold get_new_content in H.
    apply bind_Done in H as (weights & _ & H).
    destruct (Z.eqb_spec (num_add_ r - last_query_ r) 0) as [Hz | _].
    + injection H as _ <-. simpl. lia.
    + destruct (drain_loop _ _ _ _ _ _) as [[[q samples] weight_acc] last_query].
      apply bind_Done in H as (q' & _ & [= _ <-]). done.
  - lia.
  - unfold get_new_content. rewrite Hn, Hl, Z.sub_diag. done.
Qed.

(** X15.  With prefetch, [sample] hands out what an earlier call has queued.
    After a first call with an empty queue, the second call returns a
    batch of the size the first call asked for, and leaves the queue
    full again, its newest task being for the size asked now. *)
Theorem prefetch_serves_earlier_request (b1 b2 : Z) (d1 d2 : string)
    (r r1 r2 : PrioritizedReplay.t) (out1 out2 : DataType * Tensor) :
  0 < prefetch_ r -> futures_ r = [] ->
  sample b1 d1 r = Done (r1, out1) ->
  sample b2 d2 (keep_priority r1) = Done (r2, out2) ->
  futures_ r1 = replicate (Z.to_nat (prefetch_ r)) (Pending b1 d1) /\
  Z.of_nat (length (sampled_ids_ r1)) = b1 /\
  Z.of_nat (length (sampled_ids_ r2)) = b1 /\
  futures_ r2
  = replicate (Z.to_nat (prefetch_ r) - 1) (Pending b1 d1) ++ [Pending b2 d2].
Proof.
  intros Hp Hf H1 H2.
  unfold sample in H1. destruct (sampled_ids_ r); [| discriminate].
  destruct (Z.eqb_spec (prefetch_ r) 0) as [| _]; [lia |].
  rewrite Hf in H1.
  apply bind_Done in H1 as ([r' [[batch priority] ids]] & Hs1 & [= <- _]).
  pose proof (sample__fields _ _ _ _ _ Hs1) as (_ & _ & Hp' & _ & _ & _ & Hf' & _).
  pose proof Hs1 as Hspec1.
  apply sample__spec in Hspec1 as (Hb1 & _ & ks & _ & Hks & Hids & _).
  apply cursors_spec in Hks as [Hlen1 _]; [| lia].
  assert (Z.of_nat (length ids) = b1) as Hn1
    by (rewrite Hids, length_fmap, Hlen1; lia).
  assert (futures_ (top_up b1 d1 (set_sampled_ids r' ids))
          = replicate (Z.to_nat (prefetch_ r)) (Pending b1 d1)) as Hq1.
  { unfold top_up. simpl. rewrite Hf', Hf, Hp'. simpl. do 2 f_equal. lia. }
  split; [done |]. split; [done |].
  unfold sample in H2. simpl in H2.
  rewrite Hp' in H2. destruct (Z.eqb_spec (prefetch_ r) 0) as [| _]; [lia |].
  assert (futures_ r' ++
          replicate (Z.to_nat (prefetch_ r - Z.of_nat (length (futures_ r'))))
            (Pending b1 d1)
          = Pending b1 d1 :: replicate (Z.to_nat (prefetch_ r) - 1) (Pending b1 d1))
    as Hq.
  { rewrite Hf', Hf. simpl.
    replace (Z.to_nat (prefetch_ r - Z.of_nat 0)) with (S (Z.to_nat (prefetch_ r) - 1))
      by lia.
    done. }
  rewrite Hq in H2. simpl in H2.
  apply bind_Done in H2 as ([r'' [[batch2 priority2] ids2]] & Hs2 & [= <- _]).
  pose proof (sample__fields _ _ _ _ _ Hs2) as (_ & _ & Hp'' & _ & _ & _ & Hf'' & _).
  simpl in Hp'', Hf''.
  apply sample__spec in Hs2 as (Hb2 & _ & ks2 & _ & Hks2 & Hids2 & _).
  apply cursors_spec in Hks2 as [Hlen2 _]; [| lia].
  split.
  - simpl. rewrite Hids2, length_fmap, Hlen2. lia.
  - unfold top_up. simpl. rewrite Hf'', Hp'', Hp', length_replicate. f_equal.
    replace (Z.to_nat (prefetch_ r - Z.of_nat (Z.to_nat (prefetch_ r) - 1))) with 1%nat
      by lia.
    done.
Qed.

End Sample_edges.

(** ** Adding records *)

Section Adding.
Context `{E : External}.
Import ConcurrentQueue PrioritizedReplay Interleaving Accounting Described Draining.

Lemma block_append_capacity block weights q q' :
  block_append block weights q = Done q' -> capacity q' = capacity q.
Proof.
  unfold block_append. intros H.
  apply bind_Done in H as ([q1 [start end_]] & Hreserve & H).
  apply bind_Done in H as ([q2 sum] & Hfill & Hcommit).
  unfold append_reserve in Hreserve.
  destruct (size_ q + Z.of_nat (length block) <=? capacity q); [| discriminate].
  apply assert_bind_Done in Hreserve as [_ [= <- <- <-]].
  apply append_fill_counters in Hfill as (Hc & _). simpl in Hc.
  unfold append_commit in Hcommit.
  destruct (safe_tail_ q2 =? tail_ q); [| discriminate].
  by apply assert_bind_Done in Hcommit as [_ [= <-]].
Qed.

(** What [add] does when no other producer is inside [block_append]. *)
Lemma add_effect sample priority r :
  inv (storage_ r) [] ->
  dim priority = 1 -> size0 priority = Z.of_nat (length sample) ->
  if size_ (storage_ r) + Z.of_nat (length sample) <=? capacity (storage_ r)
  then exists r',
      add sample priority r = Done r' /\
      inv (storage_ r') [] /\
      num_add_ r' = num_add_ r + Z.of_nat (length sample) /\
      region (storage_ r')
      = region (storage_ r) ++ zip sample ((fun p => torch_pow p (alpha_ r)) <$> values priority) /\
      size_ (storage_ r') = size_ (storage_ r) + Z.of_nat (length sample) /\
      alpha_ r' = alpha_ r /\ capacity (storage_ r') = capacity (storage_ r)
  else add sample priority r = Blocked.
Proof.
  intros Hinv Hdim Hlen.
  assert (size_ (storage_ r) = safe_size_ (storage_ r)) as Hquiet.
  { pose proof (inv_total _ _ Hinv) as Ht. simpl in Ht. lia. }
  assert (size0 (pow priority (alpha_ r)) = Z.of_nat (length sample)) as Hlen'.
  { unfold size0 in *. simpl. by rewrite length_fmap. }
  pose proof (block_append_outcome sample (pow priority (alpha_ r)) (storage_ r)
                Hinv Hquiet Hdim Hlen') as Hout.
  unfold add. rewrite (proj2 (Z.eqb_eq _ _) Hdim), (proj2 (Z.eqb_eq _ _) Hlen). simpl.
  destruct (size_ (storage_ r) + Z.of_nat (length sample) <=? capacity (storage_ r)).
  - destruct Hout as [q' Happend]. rewrite Happend. simpl.
    destruct (block_append_region _ _ _ _ Hinv Hquiet Happend)
      as (Hinv' & Hquiet' & Hsafe & Hregion).
    eexists. split; [done |]. simpl. split_and!; try done; try lia.
    by eapply block_append_capacity.
  - by rewrite Hout.
Qed.

Lemma add_batch_loop_effect vecs : forall (pre ws : list float) r,
  inv (storage_ r) [] ->
  (length vecs <= length ws)%nat ->
  size_ (storage_ r) + Z.of_nat (length vecs) <= capacity (storage_ r) ->
  exists r',
    add_batch_loop (Z.of_nat (length pre)) vecs {| dim := 1; values := pre ++ ws |} r
    = Done r' /\
    inv (storage_ r') [] /\
    num_add_ r' = num_add_ r + Z.of_nat (length vecs) /\
    region (storage_ r')
    = region (storage_ r) ++ zip vecs ((fun p => torch_pow p (alpha_ r)) <$> ws) /\
    forall l, rtc rstep (r, l) (r', l).
Proof.
  induction vecs as [| x vecs IH]; intros pre ws r Hinv Hlen Hfit.
  - exists r. split_and!; try done.
    + change (Z.of_nat (length [])) with 0. lia.
    + simpl. by rewrite app_nil_r.
  - destruct ws as [| w ws]; [simpl in Hlen; lia |].
    cbn [add_batch_loop]. simpl dim. simpl assert. cbn [mbind outcome_bind].
    pose proof (vget_app_r fzero pre (w :: ws) 0) as Hw.
    rewrite Nat.add_0_r in Hw. simpl in Hw. simpl values. rewrite Hw.
    pose proof (add_effect [x] (tensor1 [w]) r Hinv eq_refl eq_refl) as Hadd.
    simpl length in Hadd, Hfit.
    destruct (Z.leb_spec (size_ (storage_ r) + Z.of_nat 1) (capacity (storage_ r)))
      as [_ | Hfull]; [| lia].
    destruct Hadd as (r1 & Hadd & Hinv1 & Hn1 & Hreg1 & Hsz1 & Ha1 & Hc1).
    unfold add_one. rewrite Hadd. cbn [mbind outcome_bind].
    replace (Z.of_nat (length pre) + 1) with (Z.of_nat (length (pre ++ [w])))
      by (rewrite length_app; simpl; lia).
    replace (pre ++ w :: ws) with ((pre ++ [w]) ++ ws) by (by rewrite <- app_assoc).
    destruct (IH (pre ++ [w]) ws r1 Hinv1 ltac:(simpl in Hlen; lia) ltac:(lia))
      as (r' & Hloop & Hinv' & Hn' & Hreg' & Hpath).
    exists r'. split; [done |]. split; [done |]. split; [cbn [length]; lia |]. split.
    + rewrite Hreg', Hreg1, Ha1, <- app_assoc. done.
    + intros l. eapply rtc_trans; [| apply Hpath]. by eapply add_path.
Qed.

(** X7.  [add] in a state without another producer inside [block_append]:
    it aborts on a priority tensor that is not of rank 1 or not as long
    as the sample, before it looks at the store; otherwise it appends the
    records with [priority^alpha] behind the committed ones and counts
    them in [num_add] when they fit in [capacity + floor(capacity / 4)]
    slots, and waits when they do not.  The count is that of the
    [std::atomic<int>] while it stays below [2 ^ 31]. *)
Theorem add_outcome (capacity0 seed : Z) (alpha beta : float) (prefetch : Z)
    (r : PrioritizedReplay.t) (sample : list DataType) (priority : Tensor) :
  0 < capacity0 <= 1717986918 ->
  rreachable capacity0 seed alpha beta prefetch (r, []) ->
  num_add_ r + Z.of_nat (length sample) < 2 ^ 31 ->
  if (dim priority =? 1) && (size0 priority =? Z.of_nat (length sample))
  then
    if size_ (storage_ r) + Z.of_nat (length sample) <=? capacity0 + capacity0 / 4
    then exists r',
        add sample priority r = Done r' /\
        rreachable capacity0 seed alpha beta prefetch (r', []) /\
        num_add_ r' = num_add_ r + Z.of_nat (length sample) /\
        PrioritizedReplay.size r' = PrioritizedReplay.size r + Z.of_nat (length sample) /\
        region (storage_ r')
        = region (storage_ r) ++ zip sample ((fun p => torch_pow p alpha) <$> values priority)
    else add sample priority r = Blocked
  else add sample priority r = Fatal.
Proof.
  intros Hcap Hreach _.
  pose proof (rreachable_configuration _ _ _ _ _ _ Hreach) as (_ & Ha & _ & _ & Hs).
  assert (0 < capacity0 < 2 ^ 31) as Hcap' by lia.
  pose proof (rreachable_inv _ _ _ _ _ _ Hcap' Hreach) as Hinv. simpl in *.
  rewrite storage_capacity_floor in Hs by lia.
  assert (5 * capacity0 / 4 = capacity0 + capacity0 / 4) as Hq.
  { replace (5 * capacity0) with (capacity0 + capacity0 * 4) by lia.
    rewrite Z.div_add by lia. lia. }
  destruct (Z.eqb_spec (dim priority) 1) as [Hdim | Hdim]; simpl.
  - destruct (Z.eqb_spec (size0 priority) (Z.of_nat (length sample))) as [Hlen | Hlen].
    + pose proof (add_effect sample priority r Hinv Hdim Hlen) as Hadd.
      rewrite Hs, Hq, Ha in Hadd.
      destruct (size_ (storage_ r) + Z.of_nat (length sample)
                <=? capacity0 + capacity0 / 4); [| done].
      destruct Hadd as (r' & Hadd & Hinv' & Hn & Hreg & Hsz & _).
      exists r'. split_and!; try done.
      * eapply rtc_trans; [apply Hreach |]. by eapply add_path.
      * pose proof (inv_total _ _ Hinv) as Ht. pose proof (inv_total _ _ Hinv') as Ht'.
        unfold PrioritizedReplay.size. simpl in *. lia.
    + unfold add. rewrite (proj2 (Z.eqb_eq _ _) Hdim). simpl.
      by rewrite (proj2 (Z.eqb_neq _ _) Hlen).
  - unfold add. by rewrite (proj2 (Z.eqb_neq _ _) Hdim).
Qed.

(** X8.  [add_batch] adds the records of [batch.get_vector()] one by one, in
    their order, record [i] with [priority[i]^alpha]; priorities beyond
    the last record are not looked at.  An empty vector returns at once,
    whatever the priority tensor is; with a record to add, a tensor that
    is not of rank 1 aborts.  The count in [num_add] is that of the
    [std::atomic<int>] while it stays below [2 ^ 31]. *)
Theorem add_batch_adds_in_order (capacity0 seed : Z) (alpha beta : float) (prefetch : Z)
    (r : PrioritizedReplay.t) (batch : DataType) (priority : Tensor) :
  0 < capacity0 <= 1717986918 ->
  rreachable capacity0 seed alpha beta prefetch (r, []) ->
  let vecs := get_vector batch in
  (vecs = [] -> add_batch batch priority r = Done r) /\
  (vecs <> [] -> dim priority <> 1 -> add_batch batch priority r = Fatal) /\
  (dim priority = 1 ->
   (length vecs <= length (values priority))%nat ->
   size_ (storage_ r) + Z.of_nat (length vecs) <= capacity0 + capacity0 / 4 ->
   num_add_ r + Z.of_nat (length vecs) < 2 ^ 31 ->
   exists r',
     add_batch batch priority r = Done r' /\
     rreachable capacity0 seed alpha beta prefetch (r', []) /\
     num_add_ r' = num_add_ r + Z.of_nat (length vecs) /\
     region (storage_ r')
     = region (storage_ r) ++ zip vecs ((fun p => torch_pow p alpha) <$> values priority)).
Proof.
  intros Hcap Hreach vecs. unfold add_batch. fold vecs. split_and!.
  - by intros ->.
  - intros Hne Hdim. destruct vecs as [| x vecs']; [done |]. simpl.
    by rewrite (proj2 (Z.eqb_neq _ _) Hdim).
  - intros Hdim Hlen Hfit _.
    pose proof (rreachable_configuration _ _ _ _ _ _ Hreach) as (_ & Ha & _ & _ & Hs).
    assert (0 < capacity0 < 2 ^ 31) as Hcap' by lia.
    pose proof (rreachable_inv _ _ _ _ _ _ Hcap' Hreach) as Hinv. simpl in *.
    rewrite storage_capacity_floor in Hs by lia.
    assert (5 * capacity0 / 4 = capacity0 + capacity0 / 4) as Hq.
    { replace (5 * capacity0) with (capacity0 + capacity0 * 4) by lia.
      rewrite Z.div_add by lia. lia. }
    destruct (add_batch_loop_effect vecs [] (values priority) r Hinv Hlen
                ltac:(rewrite Hs, Hq; lia))
      as (r' & Hloop & _ & Hn & Hreg & Hpath).
    change (Z.of_nat (length [])) with 0 in Hloop. simpl in Hloop.
    assert ({| dim := 1; values := values priority |} = priority) as Hp
      by (destruct priority; simpl in *; by subst).
    rewrite Hp in Hloop.
    exists r'. split_and!; try done.
    + eapply rtc_trans; [apply Hreach | apply Hpath].
    + by rewrite Hreg, Ha.
Qed.

End Adding.

(** ** What the unlocked parts leave alone *)

Section Frames.
Context `{E : External}.
Import ConcurrentQueue PrioritizedReplay Interleaving Accounting Described Draining.

(** X4.  The copy loop of [block_append] runs without the lock.  Whatever
    other producers have reserved, it writes to no committed slot: the
    committed records and their weights are what they were, and so are
    the counters, the flags and the running sum. *)
Theorem fill_leaves_committed_records (cap : Z) (q : ConcurrentQueue.t)
    (l1 : list producer) (p : producer) (l2 : list producer)
    (q' : ConcurrentQueue.t) (sum : float) :
  0 < cap ->
  reachable cap (q, l1 ++ p :: l2) ->
  append_fill (p_start p) (p_block p) (p_weights p) q = Done (q', sum) ->
  region q' = region q /\ same_counters q q' /\
  evicted_ q' = evicted_ q /\ sum_ q' = sum_ q.
Proof.
  intros Hcap Hreach Hfill.
  apply reachable_inv in Hreach; [| done]. simpl in Hreach.
  pose proof (append_fill_counters _ _ _ _ _ _ Hfill) as Hc.
  unfold append_fill in Hfill.
  apply assert_bind_Done in Hfill as [_ Hfill].
  apply assert_bind_Done in Hfill as [_ Hfill]. injection Hfill as Hfill.
  pose proof (fill_loop_sum_field (p_start p) (p_block p) (values (p_weights p)) 0 q fzero)
    as Hsum.
  pose proof (fill_loop_evicted (p_start p) (p_block p) (values (p_weights p)) 0 q fzero)
    as Hev.
  rewrite Hfill in Hsum, Hev. simpl in Hsum, Hev.
  split_and!; try done.
  destruct Hreach as [Hcq Hhead Hsafe Hsize _ Hstail _ Hel Hwt Hps Hchain Htotal].
  apply Forall_app in Hps as [_ Hps]. apply Forall_cons in Hps as [[Hp1 _] _].
  rewrite total_app in Htotal. simpl in Htotal.
  pose proof (total_nonneg l1). pose proof (total_nonneg l2).
  assert (block_size p = Z.of_nat (length (p_block p))) as Hbs by done.
  pose proof (fill_loop_spec (p_start p) (values (p_weights p)) (p_block p) 0 q fzero
                Hcq Hp1 ltac:(lia) Hel Hwt) as [Hkeep _].
  change (Z.of_nat 0) with 0 in Hkeep. rewrite Hfill in Hkeep. simpl in Hkeep.
  unfold region. destruct Hc as (Hcc & Hch & _ & _ & _ & -> & _).
  apply list_fmap_ext. intros i k Hk.
  apply lookup_seq in Hk as [-> Hk]. simpl.
  unfold slot_element, slot_weight, slot_id. rewrite Hcc, Hch.
  fold (slot_id q i).
  destruct (Hkeep (slot_id q i)) as [-> ->]; [| done].
  intros j Hj.
  assert (0 < block_size p) as Hpos by lia.
  assert (0 <= safe_tail_ q < capacity q) as Hst
    by (rewrite Hstail; apply Z.mod_pos_bound; lia).
  rewrite (chain_start _ _ _ _ _ Hcq Hst Hpos Hchain), Hstail.
  rewrite slot_id_mod by lia.
  rewrite mod_shift, <- Z.add_assoc, mod_shift by lia.
  intros Heq.
  apply (mod_ne (capacity q) (head_ q + Z.of_nat i)
           (safe_size_ q + total l1 + Z.of_nat j - Z.of_nat i)); [lia | lia |].
  rewrite Heq. f_equal. lia.
Qed.

(** X11.  A sample that returns has drawn exactly [batchsize] numbers from the
    engine, and has changed no record, no weight and no counter of the
    replay; in the store it has touched the evicted flags and, through
    the overflow pop, the head, the sizes and the running sum only. *)
Theorem sample_changes_no_record (batchsize : Z) (device : string)
    (r r' : PrioritizedReplay.t) (res : SampleWeightIds) :
  sample_ batchsize device r = Done (r', res) ->
  let q := storage_ r in
  let segment := fdiv (safe_size q).2 (float_of_int batchsize) in
  r' = set_rng (set_storage r (storage_ r')) (rng_after segment (Z.to_nat batchsize) (rng_ r)) /\
  elements_ (storage_ r') = elements_ q /\ weights_ (storage_ r') = weights_ q /\
  tail_ (storage_ r') = tail_ q /\ safe_tail_ (storage_ r') = safe_tail_ q /\
  capacity (storage_ r') = capacity q /\
  size_ (storage_ r') - safe_size_ (storage_ r') = size_ q - safe_size_ q.
Proof.
  intros H q segment.
  pose proof (sample__store_fields _ _ _ _ _ H) as (Hc & Ht & Hst & He & Hw).
  destruct res as [[batch weights] ids].
  apply sample__spec in H
    as (_ & _ & ks & qs & _ & _ & _ & _ & _ & Hsame & _ & _ & Hpop & Hr').
  split_and!; try done.
  fold q in Hsame, Hpop. destruct Hsame as (_ & _ & _ & Hs & _ & Hss & _).
  destruct (size_ q >? capacity_ r).
  - unfold block_pop in Hpop.
    destruct (pop_loop _ _ _ _ _ _) as [[evicted head] diff].
    apply assert_bind_Done in Hpop as [_ Hpop].
    apply assert_bind_Done in Hpop as [_ [= <-]]. simpl. lia.
  - rewrite Hpop. lia.
Qed.

(** X13.  A sample makes room for producers: once it has returned, the store
    holds at most the nominal capacity, so an [add] of up to
    [floor(capacity / 4)] records returns without waiting. *)
Theorem sample_makes_room (capacity0 seed : Z) (alpha beta : float) (prefetch : Z)
    (r : PrioritizedReplay.t) (batchsize : Z) (device : string)
    (r1 : PrioritizedReplay.t) (out : DataType * Tensor)
    (sample : list DataType) (priority : Tensor) :
  0 < capacity0 < 2 ^ 31 ->
  rreachable capacity0 seed alpha beta prefetch (r, []) ->
  prefetch_ r = 0 ->
  PrioritizedReplay.sample batchsize device r = Done (r1, out) ->
  dim priority = 1 -> size0 priority = Z.of_nat (length sample) ->
  Z.of_nat (length sample) <= capacity0 / 4 ->
  size_ (storage_ r1) <= capacity0 /\
  exists r2, add sample priority r1 = Done r2.
Proof.
  intros Hcap Hreach Hpre Hs Hdim Hlen Hfew.
  assert (rreachable capacity0 seed alpha beta prefetch (r1, [])) as Hreach1.
  { eapply rtc_r; [apply Hreach |]. by eapply rstep_sample. }
  pose proof (rreachable_configuration _ _ _ _ _ _ Hreach) as (Hc & _).
  pose proof (rreachable_configuration _ _ _ _ _ _ Hreach1) as (_ & _ & _ & _ & Hs1).
  pose proof (rreachable_inv _ _ _ _ _ _ Hcap Hreach) as Hinv.
  pose proof (rreachable_inv _ _ _ _ _ _ Hcap Hreach1) as Hinv1. simpl in *.
  rewrite storage_capacity_floor in Hs1 by done.
  assert (5 * capacity0 / 4 = capacity0 + capacity0 / 4) as Hq.
  { replace (5 * capacity0) with (capacity0 + capacity0 * 4) by lia.
    rewrite Z.div_add by lia. lia. }
  assert (size_ (storage_ r1) <= capacity0) as Hroom.
  { unfold PrioritizedReplay.sample in Hs. destruct (sampled_ids_ r); [| discriminate].
    rewrite Hpre in Hs. simpl in Hs.
    apply bind_Done in Hs as ([r' [[batch ws] ids]] & Hs & [= <- _]). simpl.
    apply sample__spec in Hs
      as (_ & _ & ks & qs & _ & _ & _ & _ & _ & Hsame & _ & _ & Hpop & _).
    pose proof (inv_same_counters _ _ _ Hsame Hinv) as Hinvs.
    destruct Hsame as (_ & _ & _ & Hsz & _).
    destruct (Z.gtb_spec (size_ (storage_ r)) (capacity_ r)) as [Hgt | Hle].
    - apply (block_pop_spec _ _ _ _ Hinvs) in Hpop as (-> & _); lia.
    - rewrite Hpop. lia. }
  split; [done |].
  pose proof (add_effect sample priority r1 Hinv1 Hdim Hlen) as Hadd.
  rewrite Hs1, Hq in Hadd.
  destruct (Z.leb_spec (size_ (storage_ r1) + Z.of_nat (length sample))
              (capacity0 + capacity0 / 4)) as [_ | Hfull]; [| lia].
  destruct Hadd as (r2 & Hadd & _). by exists r2.
Qed.

End Frames.

(** * The claims on concrete inputs *)

Import Example.

(** ** Runs of the concrete replay *)

Lemma two_records_added :
  PrioritizedReplay.add [Item 1; Item 2] (tensor1 [float_of_int 1; float_of_int 3]) fresh
  = Done two_records.
Proof. reflexivity. Qed.

Lemma two_records_reachable :
  Interleaving.rreachable 4 0 fone fone 0 (two_records, []).
Proof.
  apply (add_path (E := Scripted) [Item 1; Item 2]
           (tensor1 [float_of_int 1; float_of_int 3])
           fresh two_records []).
  apply two_records_added.
Qed.

Lemma one_reserved_reachable :
  Interleaving.rreachable 4 0 fone fone 0
    (one_reserved, [Interleaving.InAppend reservation]).
Proof.
  eapply rtc_r; [apply two_records_reachable |].
  apply (Interleaving.rstep_add_reserve (E := Scripted) two_records [] [Item 3]
           (tensor1 [fone])
           (PrioritizedReplay.storage_ one_reserved) 2 3); reflexivity.
Qed.


Lemma full_store_reachable : Interleaving.reachable 2 (full_store, []).
Proof.
  apply (block_append_path (E := Scripted) [Item 1; Item 2] (tensor1 [fone; fone])).
  reflexivity.
Qed.

Lemma five_records_reachable :
  Interleaving.rreachable 4 0 fone fone 0 (five_records, []).
Proof.
  apply (add_path (E := Scripted) [Item 1; Item 2; Item 3; Item 4; Item 5]
           (tensor1 [fone; fone; fone; fone; fone]) fresh five_records []).
  reflexivity.
Qed.

Lemma five_sampled_reachable :
  Interleaving.rreachable 4 0 fone fone 0
    (PrioritizedReplay.set_sampled_ids five_sampled.1 [0], []).
Proof.
  eapply rtc_r; [apply five_records_reachable |].
  apply (Interleaving.rstep_sample (E := Scripted) five_records [] 1 "cpu" _
           ([1], tensor1 [fone])).
  reflexivity.
Qed.

Lemma two_sampled_returned :
  PrioritizedReplay.sample_ 2 "cpu" two_records = Done two_sampled.
Proof. reflexivity. Qed.

Lemma reserved_sampled_returned :
  PrioritizedReplay.sample_ 2 "cpu" one_reserved = Done reserved_sampled.
Proof. reflexivity. Qed.

Lemma five_sampled_returned :
  PrioritizedReplay.sample_ 1 "cpu" five_records = Done five_sampled.
Proof. reflexivity. Qed.

Lemma small_sum_reachable :
  Interleaving.rreachable 4 0 fone fone 0 (small_sum, []).
Proof.
  apply (add_path (E := Scripted) [Item 1; Item 2] (tensor1 [sixteenth; sixteenth])
           fresh small_sum []).
  reflexivity.
Qed.

Lemma small_sampled_returned :
  PrioritizedReplay.sample_ 3 "cpu" small_sum = Done small_sampled.
Proof. reflexivity. Qed.

(** ** Witnesses and counterexamples on the concrete replay *)

Lemma storage_capacity_is_floor_witness :
  ConcurrentQueue.capacity (PrioritizedReplay.storage_ fresh) = 5 * 4 / 4.
Proof.
  apply (storage_capacity_is_floor 4 0 fone fone 0). lia.
Defined.

(** C8 as described fails: nominal capacity 10 gives 12 slots, and the
    ceiling of 12.5 is 13. *)
Lemma storage_capacity_not_ceiling :
  ConcurrentQueue.capacity
    (PrioritizedReplay.storage_ (PrioritizedReplay.new 10 0 fone fone 0)) = 12 /\
  Described.described_storage_capacity 10 = 13 /\
  ConcurrentQueue.capacity
    (PrioritizedReplay.storage_ (PrioritizedReplay.new 10 0 fone fone 0))
  <> Described.described_storage_capacity 10.
Proof. vm_compute. split; [done |]. split; [done |]. discriminate. Qed.

Lemma size_is_committed_size_witness :
  PrioritizedReplay.size one_reserved = 2 /\
  ConcurrentQueue.size (PrioritizedReplay.storage_ one_reserved) = 3 /\
  PrioritizedReplay.size one_reserved
  <= ConcurrentQueue.size (PrioritizedReplay.storage_ one_reserved).
Proof.
  split; [reflexivity |]. split; [reflexivity |].
  apply (size_is_committed_size 4 0 fone fone 0
           (one_reserved, [Interleaving.InAppend reservation])).
  - lia.
  - apply one_reserved_reachable.
Defined.

Lemma ring_accounting_witness :
  ConcurrentQueue.tail_ full_store = ConcurrentQueue.head_ full_store.
Proof.
  apply (ring_accounting 2 (full_store, [])).
  - lia.
  - apply full_store_reachable.
  - right. reflexivity.
Defined.

(** C3 as described fails on a full store: after two records are
    appended to a store of capacity 2, [size] is 2 and
    [(tail - head) mod capacity] is 0. *)
Lemma full_store_breaks_described_arithmetic :
  Interleaving.reachable 2 (full_store, []) /\
  ~ Described.described_invariant full_store.
Proof.
  split; [apply full_store_reachable |].
  intros (_ & _ & Htail & _). vm_compute in Htail. discriminate.
Qed.
Lemma sample_update_handshake_witness :
  PrioritizedReplay.sample 2 "cpu"
    (PrioritizedReplay.set_sampled_ids two_records [0; 1]) = Fatal.
Proof.
  apply (proj1 sample_update_handshake). discriminate.
Defined.

Lemma importance_weights_witness :
  Z.of_nat (length (values two_sampled.2.1.2)) = 2.
Proof.
  apply (importance_weights 2 "cpu" two_records two_sampled.1
           two_sampled.2.1.1 two_sampled.2.1.2 two_sampled.2.2).
  reflexivity.
Defined.

(** C1 as described fails.  In the reachable state [one_reserved] the
    safe size is 2 and the reserved size is 3; [sample_(2, "cpu")]
    returns the weights [1; 11184810 * 2^-25], and the weights of the
    description, computed with the safe size, are [1; 11184811 * 2^-25]. *)
Lemma reserved_size_changes_importance :
  Interleaving.rreachable 4 0 fone fone 0
    (one_reserved, [Interleaving.InAppend reservation]) /\
  PrioritizedReplay.sample_ 2 "cpu" one_reserved = Done reserved_sampled /\
  values reserved_sampled.2.1.2 = [fone; S754_finite false 11184810 (-25)] /\
  Described.described_importance
    (ConcurrentQueue.safe_size (PrioritizedReplay.storage_ one_reserved)).1
    (ConcurrentQueue.safe_size (PrioritizedReplay.storage_ one_reserved)).2
    (PrioritizedReplay.beta_ one_reserved)
    (vget fzero (ConcurrentQueue.weights_ (PrioritizedReplay.storage_ one_reserved))
       <$> reserved_sampled.2.2)
  = Done [fone; S754_finite false 11184811 (-25)] /\
  Described.described_importance
    (ConcurrentQueue.safe_size (PrioritizedReplay.storage_ one_reserved)).1
    (ConcurrentQueue.safe_size (PrioritizedReplay.storage_ one_reserved)).2
    (PrioritizedReplay.beta_ one_reserved)
    (vget fzero (ConcurrentQueue.weights_ (PrioritizedReplay.storage_ one_reserved))
       <$> reserved_sampled.2.2)
  <> Done (values reserved_sampled.2.1.2).
Proof.
  split; [apply one_reserved_reachable |].
  split; [reflexivity |].
  split; [vm_compute; reflexivity |].
  split; [vm_compute; reflexivity |].
  vm_compute. discriminate.
Qed.

Lemma get_new_content_drains_witness :
  match Draining.run add_then_drain fresh with
  | Done (_, outs) => outs = Draining.expected fone add_then_drain []
  | Fatal => False
  | Blocked => True
  end.
Proof.
  apply (proj2 get_new_content_drains 4 0 fone fone 0 add_then_drain).
  - lia.
  - intros sample priority Hin. unfold add_then_drain in Hin.
    apply elem_of_cons in Hin as [[= -> ->] | Hin]; [done |].
    apply elem_of_cons in Hin as [Hin | Hin]; [discriminate |].
    by apply elem_of_nil in Hin.
Defined.

(** C2 as described fails.  After two records of priorities 1 and 3 are
    added, [get_new_content()] returns them with the weights 1 and 3, not
    with unit weights; and after a sample has popped a record of the full
    store, [num_add - last_query] is 5, the store holds 4 records, and
    [get_new_content()] aborts instead of returning the records added. *)
Lemma get_new_content_weights_not_unit :
  Interleaving.rreachable 4 0 fone fone 0 (two_records, []) /\
  (exists r',
      PrioritizedReplay.get_new_content two_records
      = Done (r', (2, pack [Item 1; Item 2], tensor1 [float_of_int 1; float_of_int 3]))) /\
  ones 2 = Done [fone; fone] /\
  [float_of_int 1; float_of_int 3] <> [fone; fone] /\
  Interleaving.rreachable 4 0 fone fone 0
    (PrioritizedReplay.set_sampled_ids five_sampled.1 [0], []) /\
  PrioritizedReplay.get_new_content (PrioritizedReplay.set_sampled_ids five_sampled.1 [0])
  = Fatal.
Proof.
  split; [apply two_records_reachable |].
  split; [eexists; reflexivity |].
  split; [reflexivity |].
  split; [vm_compute; discriminate |].
  split; [apply five_sampled_reachable |].
  reflexivity.
Qed.

Lemma stratified_scan_witness :
  exists cursor : list nat,
    length cursor = Z.to_nat 2 /\
    two_sampled.2.2
    = (fun k => Described.slot_id (PrioritizedReplay.storage_ two_records) (pred k))
        <$> cursor.
Proof.
  destruct (proj1 (stratified_scan 2 "cpu" two_records) two_sampled.1
              two_sampled.2.1.1 two_sampled.2.1.2 two_sampled.2.2)
    as (cursor & Hlen & Hids & _).
  - reflexivity.
  - exists cursor. split; [exact Hlen | exact Hids].
Defined.

Lemma update_skips_evicted_witness :
  exists q',
    ConcurrentQueue.update [0; 1] (tensor1 [fone; fone])
      (PrioritizedReplay.storage_ two_records)
    = Done q' /\
    ConcurrentQueue.evicted_ q'
    = ConcurrentQueue.evicted_ (PrioritizedReplay.storage_ two_records) /\
    vget fzero (ConcurrentQueue.weights_ q') 1 = fone.
Proof.
  destruct (proj2 (update_skips_evicted [0; 1] (tensor1 [fone; fone])
                     (PrioritizedReplay.storage_ two_records)))
    as (q' & Hq & (_ & He & _) & _ & _ & Hwrite & _).
  - reflexivity.
  - reflexivity.
  - exists q'. split; [exact Hq |]. split; [exact He |].
    apply (Hwrite 1%nat 1 fone).
    + reflexivity.
    + reflexivity.
    + reflexivity.
    + vm_compute. split; [discriminate | reflexivity].
    + intros [| [| i']] Hi; [lia | lia | discriminate].
Defined.



Lemma small_sum_repeats_one_slot_witness :
  exists k : nat,
    small_sampled.2.2
    = replicate (Z.to_nat 3)
        (Described.slot_id (PrioritizedReplay.storage_ small_sum) k).
Proof.
  pose proof (small_sum_repeats_one_slot 3 "cpu" small_sum) as H.
  destruct H as (_ & H & _).
  - vm_compute. reflexivity.
  - destruct (H small_sampled.1 small_sampled.2.1.1 small_sampled.2.1.2 small_sampled.2.2)
      as (k & _ & _ & _ & Hids & _).
    + reflexivity.
    + exists k. exact Hids.
Defined.

(** ** The further properties on the concrete replay *)

Lemma two_records_store_reachable :
  Interleaving.reachable 5 (PrioritizedReplay.storage_ two_records, []).
Proof.
  apply (block_append_path (E := Scripted) [Item 1; Item 2]
           (tensor1 [float_of_int 1; float_of_int 3])).
  reflexivity.
Qed.

Lemma one_reserved_store_reachable :
  Interleaving.reachable 5 (PrioritizedReplay.storage_ one_reserved, [reservation]).
Proof.
  eapply rtc_r; [apply two_records_store_reachable |].
  apply (Interleaving.step_reserve (E := Scripted)
           (PrioritizedReplay.storage_ two_records) [] [Item 3] (tensor1 [fone])
           (PrioritizedReplay.storage_ one_reserved) 2 3).
  reflexivity.
Qed.

Lemma two_records_sample :
  PrioritizedReplay.sample 2 "cpu" two_records
  = Done (PrioritizedReplay.set_sampled_ids two_records [0; 1],
          (two_sampled.2.1.1, two_sampled.2.1.2)).
Proof. reflexivity. Qed.

Lemma five_records_sample :
  PrioritizedReplay.sample 1 "cpu" five_records
  = Done (PrioritizedReplay.set_sampled_ids five_sampled.1 [0], ([1], tensor1 [fone])).
Proof. reflexivity. Qed.

Lemma two_records_drained :
  PrioritizedReplay.get_new_content two_records
  = Done (two_drained, (2, pack [Item 1; Item 2], tensor1 [float_of_int 1; float_of_int 3])).
Proof. reflexivity. Qed.

Lemma one_reserved_filled :
  ConcurrentQueue.append_fill 2 [Item 3] (tensor1 [fone])
    (PrioritizedReplay.storage_ one_reserved)
  = Done (one_filled, fone).
Proof. reflexivity. Qed.

Lemma block_append_enqueues_witness :
  exists q',
    ConcurrentQueue.block_append [Item 3] (tensor1 [fone])
      (PrioritizedReplay.storage_ two_records) = Done q' /\
    Draining.region q'
    = Draining.region (PrioritizedReplay.storage_ two_records) ++ [(Item 3, fone)].
Proof.
  destruct (block_append_enqueues 5 (PrioritizedReplay.storage_ two_records)
              [Item 3] (tensor1 [fone]))
    as (q' & Happend & _ & Hregion & _).
  - lia.
  - apply two_records_store_reachable.
  - reflexivity.
  - reflexivity.
  - exists q'. split; [exact Happend | exact Hregion].
Defined.

Lemma append_never_aborts_witness :
  ConcurrentQueue.append_commit 2 3 1 fone (PrioritizedReplay.storage_ one_reserved)
  <> Fatal.
Proof.
  apply (proj2 (append_never_aborts 5 (PrioritizedReplay.storage_ one_reserved)
                  [reservation] ltac:(lia) one_reserved_store_reachable)
           reservation fone).
  apply elem_of_cons. left. reflexivity.
Defined.

Lemma commit_in_reservation_order_witness :
  exists q',
    ConcurrentQueue.append_commit 2 3 1 fone (PrioritizedReplay.storage_ one_reserved)
    = Done q' /\
    ConcurrentQueue.safe_tail_ q' = 3.
Proof.
  destruct (proj1 (commit_in_reservation_order 5
                     (PrioritizedReplay.storage_ one_reserved) [] reservation [] fone
                     ltac:(lia) one_reserved_store_reachable ltac:(reflexivity))
              (Forall_nil_2 _))
    as (q' & Hcommit & Htail & _).
  exists q'. split; [exact Hcommit | exact Htail].
Defined.

Lemma fill_leaves_committed_records_witness :
  Draining.region one_filled = Draining.region (PrioritizedReplay.storage_ one_reserved).
Proof.
  apply (fill_leaves_committed_records 5 (PrioritizedReplay.storage_ one_reserved)
           [] reservation [] one_filled fone).
  - lia.
  - apply one_reserved_store_reachable.
  - reflexivity.
Defined.

Lemma block_pop_dequeues_witness :
  exists q',
    ConcurrentQueue.block_pop 1 (PrioritizedReplay.storage_ two_records) = Done q' /\
    Draining.region q' = drop 1 (Draining.region (PrioritizedReplay.storage_ two_records)).
Proof.
  destruct (block_pop_dequeues 5 (PrioritizedReplay.storage_ two_records) [] 1)
    as (q' & Hpop & _ & Hregion & _).
  - lia.
  - apply two_records_store_reachable.
  - lia.
  - exists q'. split; [exact Hpop | exact Hregion].
Defined.

Lemma check_size_characterised_witness :
  ConcurrentQueue.check_size (PrioritizedReplay.storage_ two_records) 0 2 2 = true
  <-> 2 = (0 + 2) mod ConcurrentQueue.capacity (PrioritizedReplay.storage_ two_records).
Proof.
  apply (check_size_characterised (PrioritizedReplay.storage_ two_records) 0 2 2);
    simpl; lia.
Defined.

Lemma add_outcome_witness :
  exists r',
    PrioritizedReplay.add [Item 3] (tensor1 [fone]) two_records = Done r' /\
    PrioritizedReplay.num_add_ r' = PrioritizedReplay.num_add_ two_records + 1.
Proof.
  destruct (add_outcome 4 0 fone fone 0 two_records [Item 3] (tensor1 [fone]))
    as (r' & Hadd & _ & Hn & _).
  - lia.
  - apply two_records_reachable.
  - vm_compute. reflexivity.
  - exists r'. split; [exact Hadd | exact Hn].
Defined.

Lemma add_batch_adds_in_order_witness :
  exists r',
    PrioritizedReplay.add_batch [3; 4] (tensor1 [fone; fone]) two_records = Done r' /\
    PrioritizedReplay.num_add_ r' = PrioritizedReplay.num_add_ two_records + 2.
Proof.
  destruct (proj2 (proj2 (add_batch_adds_in_order 4 0 fone fone 0 two_records [3; 4]
                            (tensor1 [fone; fone]) ltac:(lia) two_records_reachable)))
    as (r' & Hadd & _ & Hn & _).
  - reflexivity.
  - simpl. lia.
  - vm_compute. discriminate.
  - vm_compute. reflexivity.
  - exists r'. split; [exact Hadd | exact Hn].
Defined.

Lemma overflow_headroom_witness :
  ConcurrentQueue.size_ (PrioritizedReplay.storage_ five_records)
  - PrioritizedReplay.capacity_ five_records <= 4 / 4.
Proof.
  apply (overflow_headroom 4 0 fone fone 0 five_records []).
  - lia.
  - apply five_records_reachable.
Defined.

Lemma sampled_slots_witness : Z.of_nat (length two_sampled.2.2) = 2.
Proof.
  apply (sampled_slots 4 0 fone fone 0 two_records [] 2 "cpu" two_sampled.1
           two_sampled.2.1.1 two_sampled.2.1.2 two_sampled.2.2).
  - lia.
  - apply two_records_reachable.
  - reflexivity.
Defined.

Lemma sample_changes_no_record_witness :
  ConcurrentQueue.weights_ (PrioritizedReplay.storage_ five_sampled.1)
  = ConcurrentQueue.weights_ (PrioritizedReplay.storage_ five_records).
Proof.
  apply (sample_changes_no_record 1 "cpu" five_records five_sampled.1 five_sampled.2).
  reflexivity.
Defined.

Lemma sample_needs_records_witness :
  PrioritizedReplay.sample_ 0 "cpu" two_records = Fatal.
Proof.
  apply (sample_needs_records 0 "cpu" two_records). left. lia.
Defined.

Lemma sample_makes_room_witness :
  exists r2,
    PrioritizedReplay.add [Item 6] (tensor1 [fone])
      (PrioritizedReplay.set_sampled_ids five_sampled.1 [0]) = Done r2.
Proof.
  apply (sample_makes_room 4 0 fone fone 0 five_records 1 "cpu"
           (PrioritizedReplay.set_sampled_ids five_sampled.1 [0]) ([1], tensor1 [fone])
           [Item 6] (tensor1 [fone])).
  - lia.
  - apply five_records_reachable.
  - reflexivity.
  - apply five_records_sample.
  - reflexivity.
  - reflexivity.
  - vm_compute. discriminate.
Defined.

Lemma update_after_sample_witness :
  exists r2,
    PrioritizedReplay.update_priority (tensor1 [fone; fone])
      (PrioritizedReplay.set_sampled_ids two_records [0; 1]) = Done r2 /\
    PrioritizedReplay.sampled_ids_ r2 = [].
Proof.
  destruct (update_after_sample 4 0 fone fone 0 two_records [] 2 "cpu"
              (PrioritizedReplay.set_sampled_ids two_records [0; 1])
              (two_sampled.2.1.1, two_sampled.2.1.2) (tensor1 [fone; fone]))
    as (r2 & Hupdate & Hids & _).
  - lia.
  - apply two_records_reachable.
  - reflexivity.
  - apply two_records_sample.
  - reflexivity.
  - reflexivity.
  - exists r2. split; [exact Hupdate | exact Hids].
Defined.

Lemma get_new_content_twice_witness :
  PrioritizedReplay.get_new_content two_drained
  = Done (two_drained, (0, default_data, tensor1 [])).
Proof.
  apply (get_new_content_twice (E := Scripted) two_records two_drained
           (2, [1; 2], tensor1 [float_of_int 1; float_of_int 3])).
  apply two_records_drained.
Defined.

Lemma prefetch_serves_earlier_request_witness :
  Z.of_nat
    (length
       (PrioritizedReplay.sampled_ids_
          (PrioritizedReplay.top_up 1 "cpu"
             (PrioritizedReplay.set_sampled_ids prefetching [0; 1])))) = 2.
Proof.
  apply (prefetch_serves_earlier_request (E := Scripted) 2 1 "cpu" "cpu" prefetching
           (PrioritizedReplay.top_up 2 "cpu"
              (PrioritizedReplay.set_sampled_ids prefetching [0; 1]))
           (PrioritizedReplay.top_up 1 "cpu"
              (PrioritizedReplay.set_sampled_ids prefetching [0; 1]))
           (two_sampled.2.1.1, two_sampled.2.1.2)
           (two_sampled.2.1.1, two_sampled.2.1.2)).
  - reflexivity.
  - reflexivity.
  - reflexivity.
  - reflexivity.
Defined.
